(** * klog-inator: a shallow embedding of the archive matcher

    This file models, in Rocq, the parts of [pkg/inator] and [pkg/fast]
    that the archive matching pipeline is made of:
    - [ParseLine], the hand-written klog line parser (match.go);
    - [ReadLines], the newline-aligned chunker (fast/reader.go);
    - the fingerprints of [LogStatement] and [ParsedLog] (types.go);
    - [matcher], [Match], [AggregateResults] and [SortMatches] (match.go).

    Go values are modelled as they are laid out by the code: a Go [int] is a
    [Z] (64-bit platform), a [[]byte] or a Go [string] is a [list byte],
    runtime panics and returned errors are the two failure cases of the
    [outcome] monad below. *)

From Stdlib Require Import ZArith Lia List Bool Ascii String Permutation Sorted.
From Stdlib Require Import Init.Byte Strings.Byte Floats.
From stdpp Require Import base gmap list.
Import ListNotations.

Open Scope Z_scope.

(** ** Outcomes: normal results, returned errors and runtime panics *)

Inductive outcome (A : Type) : Type :=
| Ok (a : A)
| Err (e : string)
| Panic (msg : string).
Arguments Ok {A} a.
Arguments Err {A} e.
Arguments Panic {A} msg.

#[global] Instance outcome_ret : MRet outcome := fun A a => Ok a.
#[global] Instance outcome_bind : MBind outcome := fun A B k m =>
  match m with
  | Ok a => k a
  | Err e => Err e
  | Panic p => Panic p
  end.

(** ** Bytes, slices and indexing *)

Definition b2z (c : byte) : Z := Z.of_N (Byte.to_N c).

Definition beq (c : byte) (d : byte) : bool := Byte.eqb c d.

#[global] Instance byte_eq_decision : EqDecision byte := Byte.byte_eq_dec.

(** [c < lo || c > hi], the rejection test the parser writes for ranges. *)
Definition out_of (c lo hi : byte) : bool :=
  (b2z c <? b2z lo) || (b2z hi <? b2z c).

Definition len {A} (l : list A) : Z := Z.of_nat (length l).

(** [s[i]]: panics outside [0, len(s)). *)
Definition at_ {A} (s : list A) (i : Z) : outcome A :=
  if (0 <=? i) && (i <? len s) then
    match nth_error s (Z.to_nat i) with
    | Some c => Ok c
    | None => Panic "index out of range"
    end
  else Panic "index out of range".

(** [s[lo:hi]]: panics unless [0 <= lo <= hi <= len(s)].  (Go checks [hi]
    against the capacity; no slice expression modelled here reaches past
    the length, so the length is used.) *)
Definition slice {A} (s : list A) (lo hi : Z) : outcome (list A) :=
  if (0 <=? lo) && (lo <=? hi) && (hi <=? len s) then
    Ok (firstn (Z.to_nat (hi - lo)) (skipn (Z.to_nat lo) s))
  else Panic "slice bounds out of range".

(** Literal Go strings, as bytes. *)
Definition bs (s : string) : list byte := list_byte_of_string s.

(** ** strconv.Atoi (64-bit [int]) *)

Inductive numError := ErrSyntax | ErrRange.

Definition maxUint64 : Z := 2 ^ 64 - 1.

Definition digit_val (c : byte) : option Z :=
  if out_of c "0"%byte "9"%byte then None else Some (b2z c - 48).

(** strconv.ParseUint(s, 10, 64). *)
Fixpoint parseUint10_loop (s : list byte) (n : Z) : Z * option numError :=
  match s with
  | [] => (n, None)
  | c :: s' =>
      match digit_val c with
      | None => (0, Some ErrSyntax)
      | Some d =>
          if maxUint64 / 10 + 1 <=? n then (maxUint64, Some ErrRange)
          else
            let n1 := n * 10 + d in
            if maxUint64 <? n1 then (maxUint64, Some ErrRange)
            else parseUint10_loop s' n1
      end
  end.

Definition ParseUint10 (s : list byte) : Z * option numError :=
  match s with
  | [] => (0, Some ErrSyntax)
  | _ => parseUint10_loop s 0
  end.

(** strconv.ParseInt(s, 10, 0) with [IntSize = 64]. *)
Definition ParseInt10 (s0 : list byte) : Z * option numError :=
  match s0 with
  | [] => (0, Some ErrSyntax)
  | c :: rest =>
      let '(neg, s) :=
        if beq c "+"%byte then (false, rest)
        else if beq c "-"%byte then (true, rest)
        else (false, s0) in
      let '(un, err) := ParseUint10 s in
      match err with
      | Some ErrSyntax => (0, Some ErrSyntax)
      | _ =>
          let cutoff := 2 ^ 63 in
          if negb neg && (cutoff <=? un) then (cutoff - 1, Some ErrRange)
          else if neg && (cutoff <? un) then (- cutoff, Some ErrRange)
          else ((if neg then - un else un), None)
      end
  end.

(** The fast path of Atoi, for [0 < len(s) < 19]. *)
Fixpoint atoi_fast_loop (s : list byte) (n : Z) : option Z :=
  match s with
  | [] => Some n
  | c :: s' =>
      match digit_val c with
      | None => None
      | Some d => atoi_fast_loop s' (n * 10 + d)
      end
  end.

Definition Atoi (s : list byte) : Z * option numError :=
  if (0 <? len s) && (len s <? 19) then
    match s with
    | [] => (0, Some ErrSyntax)
    | c :: rest =>
        let neg := beq c "-"%byte in
        let s' := if beq c "-"%byte || beq c "+"%byte then rest else s in
        match s' with
        | [] => (0, Some ErrSyntax)
        | _ =>
            match atoi_fast_loop s' 0 with
            | None => (0, Some ErrSyntax)
            | Some n => ((if neg then - n else n), None)
            end
        end
    end
  else ParseInt10 s.

(** ** ParsedLog and ParseLine (pkg/inator/types.go, match.go) *)

Record ParsedLog := mkParsedLog {
  pl_SourceFile : list byte;
  pl_LineNumber : Z;
  pl_Severity : Z;   (* int32 *)
  pl_Message : list byte
}.

Definition zeroParsedLog : ParsedLog := mkParsedLog [] 0 0 [].

Definition set_Severity (ls : ParsedLog) (s : Z) : ParsedLog :=
  mkParsedLog (pl_SourceFile ls) (pl_LineNumber ls) s (pl_Message ls).

Definition is_path_char (c : byte) : bool :=
  beq c "."%byte || beq c "-"%byte || beq c "_"%byte ||
  negb (out_of c "a"%byte "z"%byte) || negb (out_of c "A"%byte "Z"%byte) ||
  negb (out_of c "0"%byte "9"%byte).

(** The [FILENAME] loop: [for ; index < len(line)-1; index++ { switch ... }].
    It returns the final [index] and the variables [dirEnd], [fileStart],
    [fileEnd].  The fuel is [len(line)], more than the loop can use. *)
Fixpoint filename_loop (fuel : nat) (line : list byte)
    (index dirEnd fileStart fileEnd : Z) : outcome (Z * Z * Z * Z) :=
  match fuel with
  | O => Ok (index, dirEnd, fileStart, fileEnd)
  | S fuel' =>
      if index <? len line - 1 then
        c ← at_ line index;
        if is_path_char c then
          filename_loop fuel' line (index + 1) dirEnd fileStart fileEnd
        else if beq c "/"%byte then
          filename_loop fuel' line (index + 1) index (index + 1) fileEnd
        else if beq c ":"%byte then
          Ok (index, dirEnd, fileStart, index)            (* break FILENAME *)
        else Ok (index, dirEnd, fileStart, fileEnd)       (* break FILENAME *)
      else Ok (index, dirEnd, fileStart, fileEnd)
  end.

(** The [LINENUMBER] loop; returns the final [index] and [lineNumEnd]. *)
Fixpoint linenumber_loop (fuel : nat) (line : list byte) (index lineNumEnd : Z)
    : outcome (Z * Z) :=
  match fuel with
  | O => Ok (index, lineNumEnd)
  | S fuel' =>
      if index <? len line - 1 then
        c ← at_ line index;
        if negb (out_of c "0"%byte "9"%byte) then
          linenumber_loop fuel' line (index + 1) lineNumEnd
        else if beq c "]"%byte then Ok (index, index)     (* break LINENUMBER *)
        else Ok (index, lineNumEnd)                       (* break LINENUMBER *)
      else Ok (index, lineNumEnd)
  end.

(** The thread id loop over [line[22:29]]: leading spaces, then digits.
    Returns [false] where the Go code returns early. *)
Fixpoint threadid_ok (matchSpaces : bool) (t : list byte) : bool :=
  match t with
  | [] => true
  | c :: t' =>
      if matchSpaces && beq c " "%byte then threadid_ok true t'
      else if out_of c "0"%byte "9"%byte then false
      else threadid_ok false t'
  end.

(** Checks a list of positions against byte ranges: [(i, lo, hi)] rejects
    when [line[i] < lo || line[i] > hi]. *)
Fixpoint ranges_ok (line : list byte) (rs : list (Z * byte * byte)) : outcome bool :=
  match rs with
  | [] => Ok true
  | (i, lo, hi) :: rs' =>
      c ← at_ line i;
      if out_of c lo hi then Ok false else ranges_ok line rs'
  end.

Definition header_ranges : list (Z * byte * byte) :=
  [ (* mmdd *)
    (1, "0", "1"); (2, "0", "9"); (3, "0", "3"); (4, "0", "9");
    (* hh:mm:ss.uuuuuu *)
    (6, "0", "2"); (7, "0", "9"); (8, ":", ":");
    (9, "0", "5"); (10, "0", "9"); (11, ":", ":");
    (12, "0", "5"); (13, "0", "9"); (14, ".", ".");
    (15, "0", "9"); (16, "0", "9"); (17, "0", "9");
    (18, "0", "9"); (19, "0", "9"); (20, "0", "9") ]%byte.

Definition severity_of (c : byte) : option Z :=
  if beq c "I"%byte then Some 0
  else if beq c "W"%byte then Some 1
  else if beq c "E"%byte then Some 2
  else if beq c "F"%byte then Some 3
  else None.

Definition ParseLine (line : list byte) : outcome (ParsedLog * bool) :=
  let reject ls := Ok (ls, false) in
  if len line <=? 29 then reject zeroParsedLog else
  c5 ← at_ line 5; c21 ← at_ line 21; c29 ← at_ line 29;
  if negb (beq c5 " "%byte) || negb (beq c21 " "%byte) || negb (beq c29 " "%byte)
  then reject zeroParsedLog else
  c0 ← at_ line 0;
  match severity_of c0 with
  | None => reject zeroParsedLog
  | Some sev =>
    let ls := set_Severity zeroParsedLog sev in
    hdr ← ranges_ok line header_ranges;
    if negb hdr then reject ls else
    threadid ← slice line 22 29;
    if negb (threadid_ok true threadid) then reject ls else
    (* dir/file: *)
    let dirStart := 30 in
    '(index, dirEnd, fileStart, fileEnd) ←
      filename_loop (length line) line 30 0 0 0;
    if (index =? len line - 1) || (dirEnd - dirStart <? 1) ||
       negb (fileStart =? dirEnd + 1) || (fileEnd - fileStart <? 1)
    then reject ls else
    let index := index + 1 in
    (* lineNumber] *)
    let lineNumStart := index in
    '(index, lineNumEnd) ← linenumber_loop (length line) line index 0;
    if (index =? len line - 1) || (lineNumEnd - lineNumStart <? 1)
    then reject ls else
    let index := index + 1 in
    (* space *)
    sp ← at_ line index;
    if negb (beq sp " "%byte) then reject ls else
    let index := index + 1 in
    (* message *)
    let messageStart := index in
    let messageEnd := len line - 1 in
    num ← slice line lineNumStart lineNumEnd;
    let '(lineNumber, err) := Atoi num in
    let ok := match err with Some _ => false | None => true end in
    sf ← slice line dirStart fileEnd;
    msg ← slice line messageStart messageEnd;
    let ok := true in
    Ok (mkParsedLog sf lineNumber sev msg, ok)
  end.

Definition SampleLine : list byte :=
  bs "I1105 13:30:39.614388  739568 queueset/queueset.go:488] Sample Text".


(** ** The chunker: fast.ReadLines (pkg/fast/reader.go) *)

Definition nl : byte := Byte.x0a.

(** syscall.Mmap of the whole file: Go's [mmapper.Mmap] refuses a length
    [<= 0] with [EINVAL] before calling mmap(2). *)
Definition Mmap (file : list byte) : outcome (list byte) :=
  if len file <=? 0 then Err "invalid argument" else Ok file.

(** [for seekPos <= len(buf)-1 && buf[seekPos] != '\n' { seekPos++ }] *)
Fixpoint seek_loop (fuel : nat) (buf : list byte) (seekPos : Z) : outcome Z :=
  match fuel with
  | O => Ok seekPos
  | S fuel' =>
      if seekPos <=? len buf - 1 then
        c ← at_ buf seekPos;
        if negb (beq c nl) then seek_loop fuel' buf (seekPos + 1)
        else Ok seekPos
      else Ok seekPos
  end.

(** The body of [for i := 0; i < len(channels); i++], run [k] times from
    [seekPos]; returns the chunks in order. *)
Fixpoint chunk_loop (k : nat) (buf : list byte) (chunkSize seekPos : Z)
    : outcome (list (list byte)) :=
  match k with
  | O => Ok []
  | S k' =>
      let startByte := seekPos in
      let seekPos := seekPos + chunkSize in
      let seekPos := if len buf - 1 <? seekPos then len buf - 1 else seekPos in
      seekPos ← seek_loop (S (length buf)) buf seekPos;
      let seekPos := if seekPos <? len buf - 1 then seekPos + 1 else seekPos in
      chunk ← slice buf startByte seekPos;
      rest ← chunk_loop k' buf chunkSize seekPos;
      Ok (chunk :: rest)
  end.

(** The chunks [ReadLines] hands to its [G = len(channels)] producers. *)
Definition read_chunks (file : list byte) (G : nat) : outcome (list (list byte)) :=
  buf ← Mmap file;
  if (G =? 0)%nat then Panic "integer divide by zero" else
  let chunkSize := len buf / Z.of_nat G in
  chunk_loop G buf chunkSize 0.

(** bufio.Scanner with ScanLines over one chunk: lines split at ['\n'],
    one trailing ['\r'] dropped, no token for an empty remainder at EOF; a
    line of [MaxScanTokenSize] bytes or more stops the scanner with
    [ErrTooLong], on which the producer panics. *)
Definition MaxScanTokenSize : Z := 65536.

Definition dropCR (l : list byte) : list byte :=
  match rev l with
  | c :: r => if beq c Byte.x0d then rev r else l
  | [] => l
  end.

Fixpoint split_lines (cur : list byte) (s : list byte) : list (list byte) :=
  match s with
  | [] => match cur with [] => [] | _ => [rev cur] end
  | c :: s' =>
      if beq c nl then rev cur :: split_lines [] s'
      else split_lines (c :: cur) s'
  end.

Definition scan_lines (chunk : list byte) : outcome (list (list byte)) :=
  let raw := split_lines [] chunk in
  if existsb (fun l => MaxScanTokenSize <=? len l) raw
  then Panic "bufio.Scanner: token too long"
  else Ok (map dropCR raw).

(** [ReadLines]: the lines each producer sends on its channel. *)
Definition ReadLines (file : list byte) (G : nat) : outcome (list (list (list byte))) :=
  chunks ← read_chunks file G;
  mapM scan_lines chunks.

(** ** Paths: path/filepath on Unix *)

Definition slash : byte := "/"%byte.

(** The '/'-separated elements of a path, empty ones included. *)
Fixpoint split_path (cur : list byte) (s : list byte) : list (list byte) :=
  match s with
  | [] => [rev cur]
  | c :: s' =>
      if beq c slash then rev cur :: split_path [] s'
      else split_path (c :: cur) s'
  end.

Fixpoint join_with (sep : list byte) (xs : list (list byte)) : list byte :=
  match xs with
  | [] => []
  | [x] => x
  | x :: xs' => x ++ sep ++ join_with sep xs'
  end.

Definition list_byte_eqb (a b : list byte) : bool :=
  if decide (a = b) then true else false.

(** The element pass of filepath.Clean: drop empty and "." elements,
    let ".." remove the previous element when there is one that is not
    "..", drop it at the root of a rooted path, and keep it otherwise.
    [stack] holds the kept elements, last one first. *)
Fixpoint clean_elems (rooted : bool) (stack : list (list byte))
    (elems : list (list byte)) : list (list byte) :=
  match elems with
  | [] => stack
  | e :: es =>
      if list_byte_eqb e [] || list_byte_eqb e (bs ".") then
        clean_elems rooted stack es
      else if list_byte_eqb e (bs "..") then
        match stack with
        | top :: stack' =>
            if list_byte_eqb top (bs "..") then clean_elems rooted (e :: stack) es
            else clean_elems rooted stack' es
        | [] =>
            if rooted then clean_elems rooted [] es
            else clean_elems rooted [e] es
        end
      else clean_elems rooted (e :: stack) es
  end.

(** filepath.Clean *)
Definition Clean (p : list byte) : list byte :=
  match p with
  | [] => bs "."
  | c :: _ =>
      let rooted := beq c slash in
      let out := join_with [slash] (rev (clean_elems rooted [] (split_path [] p))) in
      if rooted then slash :: out
      else match out with [] => bs "." | _ => out end
  end.

(** The prefix of [p] up to and including its last '/', [[]] if none. *)
Fixpoint upto_last_slash (p : list byte) : list byte :=
  match p with
  | [] => []
  | c :: p' =>
      match upto_last_slash p' with
      | [] => if beq c slash then [c] else []
      | r => c :: r
      end
  end.

(** The suffix of [p] after its last '/', [p] itself if none. *)
Definition after_last_slash (p : list byte) : list byte :=
  skipn (length (upto_last_slash p)) p.

(** filepath.Dir *)
Definition Dir (p : list byte) : list byte := Clean (upto_last_slash p).

Fixpoint strip_trailing_slashes_rev (r : list byte) : list byte :=
  match r with
  | c :: r' => if beq c slash then strip_trailing_slashes_rev r' else r
  | [] => []
  end.

(** filepath.Base *)
Definition Base (p : list byte) : list byte :=
  match p with
  | [] => bs "."
  | _ =>
      let p := rev (strip_trailing_slashes_rev (rev p)) in
      match after_last_slash p with
      | [] => [slash]
      | b => b
      end
  end.

(** filepath.Join *)
Definition Join (elems : list (list byte)) : list byte :=
  let nonempty := filter (fun e => negb (list_byte_eqb e [])) elems in
  match nonempty with
  | [] => []
  | _ => Clean (join_with [slash] elems)
  end.

(** ** strconv.Itoa and hex.EncodeToString *)

Fixpoint digits_rev (fuel : nat) (n : Z) : list byte :=
  match fuel with
  | O => []
  | S f =>
      let d := match Byte.of_N (Z.to_N (48 + n mod 10)) with
               | Some b => b | None => "0"%byte end in
      if n <? 10 then [d] else d :: digits_rev f (n / 10)
  end.

Definition Itoa (n : Z) : list byte :=
  let a := Z.abs n in
  let ds := rev (digits_rev (S (Z.to_nat (Z.log2 (a + 1)))) a) in
  if n <? 0 then "-"%byte :: ds else ds.

Definition hexdigit (n : Z) : byte :=
  match Byte.of_N (Z.to_N (if n <? 10 then 48 + n else 87 + n)) with
  | Some b => b | None => "0"%byte end.

Definition EncodeToString (src : list byte) : list byte :=
  flat_map (fun b => [hexdigit (b2z b / 16); hexdigit (b2z b mod 16)]) src.

(** ** LogStatement and the fingerprints (pkg/inator/types.go) *)

Record LogStatement := mkLogStatement {
  SourceFile : list byte;
  LineNumber : Z;
  Severity : Z;              (* Severity int32 *)
  Verbosity : option Z;      (* *int *)
  FormatString : list byte
}.

Definition ShortSourceFile (s : LogStatement) : list byte :=
  Join [Base (Dir (SourceFile s)); Base (SourceFile s)].

(** A [hash.Hash] as used here: [Write] appends to the data written so far
    and [Sum(nil)] is the digest of all of it.  The digest function is a
    parameter: every statement below holds for any choice of it, SHA-1
    included. *)
Section Fingerprints.
Variable sha1 : list byte -> list byte.

Record digest := mkDigest { written : list byte }.

Definition sha1_New : digest := mkDigest [].
Definition h_Write (h : digest) (p : list byte) : digest := mkDigest (written h ++ p).
Definition h_Sum (h : digest) : list byte := sha1 (written h).

Definition LogStatement_Fingerprint (s : LogStatement) : list byte :=
  let h := sha1_New in
  let h := h_Write h (ShortSourceFile s) in
  let h := h_Write h (Itoa (LineNumber s)) in
  let h := h_Write h (Itoa (Severity s)) in
  EncodeToString (h_Sum h).

Definition ParsedLog_Fingerprint (p : ParsedLog) : list byte :=
  let h := sha1_New in
  let h := h_Write h (pl_SourceFile p) in
  let h := h_Write h (Itoa (pl_LineNumber p)) in
  let h := h_Write h (Itoa (pl_Severity p)) in
  EncodeToString (h_Sum h).

End Fingerprints.

(** ** Search map, matcher and Match (pkg/inator/match.go) *)

#[global] Instance byte_countable : Countable byte :=
  inj_countable Byte.to_N Byte.of_N Byte.of_to_N.

(** A [*LogStatement] is its address; the pointee is looked up in a heap
    where needed.  [SearchMap] maps a fingerprint to the address of its
    statement. *)
Abbreviation ptr := nat (only parsing).
Abbreviation SearchMap := (gmap (list byte) ptr).

(** [Matches = map[*LogStatement]*[]ParsedLog], with each bucket given by
    its contents.  A bucket is created by [matcher] for its own table and
    never shared by two tables of one run, so its contents identify it. *)
Abbreviation Matches := (gmap ptr (list ParsedLog)).

(** Go's [int64] arithmetic: two's complement wrap-around. *)
Definition wrap64 (z : Z) : Z := (z + 2 ^ 63) mod 2 ^ 64 - 2 ^ 63.
Definition add64 (a b : Z) : Z := wrap64 (a + b).

(** The two package-level counters [numMatched] and [numNotMatched]: they
    live as long as the process and are never reset.  They are
    [atomic.Int64]s: [Add] wraps around like [int64] arithmetic. *)
Record Counters := mkCounters { numMatched : Z; numNotMatched : Z }.

Definition zeroCounters : Counters := mkCounters 0 0.

Record MatchResults := mkMatchResults {
  Matched : list Matches;
  NumMatched : Z;
  NumNotMatched : Z
}.

Section Pipeline.
Variable sha1 : list byte -> list byte.
(** fastjson.GetBytes(line, jsonField): the field's value, [None] for nil. *)
Variable GetBytes : list byte -> list byte -> option (list byte).

(** [scanner]: the records one scanner goroutine sends for the lines it
    receives, in order; a panic of [ParseLine] crashes the process. *)
Fixpoint scanner (jsonField : list byte) (lines : list (list byte))
    : outcome (list ParsedLog) :=
  match lines with
  | [] => Ok []
  | line :: rest =>
      let msg := match jsonField with
                 | [] => Some line
                 | _ => GetBytes line jsonField
                 end in
      match msg with
      | None => scanner jsonField rest                    (* continue *)
      | Some msg =>
          match ParseLine msg with
          | Ok (logStmt, ok) =>
              tl ← scanner jsonField rest;
              Ok (if ok then logStmt :: tl else tl)
          | Err e => Err e
          | Panic m => Panic m
          end
      end
  end.

(** [matcher]: one matcher goroutine over the records it receives. *)
Fixpoint matcher_loop (sm : SearchMap) (parsed : list ParsedLog)
    (hit : Matches) (c : Counters) : Matches * Counters :=
  match parsed with
  | [] => (hit, c)
  | p :: ps =>
      let fp := ParsedLog_Fingerprint sha1 p in
      match sm !! fp with
      | Some stmt =>
          let hit := match hit !! stmt with
                     | None => <[stmt := [p]]> hit
                     | Some s => <[stmt := s ++ [p]]> hit
                     end in
          matcher_loop sm ps hit
            (mkCounters (add64 (numMatched c) 1) (numNotMatched c))   (* numMatched.Add(1) *)
      | None =>
          matcher_loop sm ps hit
            (mkCounters (numMatched c) (add64 (numNotMatched c) 1))   (* numNotMatched.Add(1) *)
      end
  end.

Definition matcher (sm : SearchMap) (parsed : list ParsedLog) (c : Counters)
    : Matches * Counters :=
  matcher_loop sm parsed ∅ c.

(** All matchers of a run; their atomic [Add]s commute, so running them
    one after the other gives the counters of any interleaving. *)
Fixpoint run_matchers (sm : SearchMap) (parts : list (list ParsedLog))
    (c : Counters) : list Matches * Counters :=
  match parts with
  | [] => ([], c)
  | part :: parts' =>
      let '(h, c1) := matcher sm part c in
      let '(hs, c2) := run_matchers sm parts' c1 in
      (h :: hs, c2)
  end.

(** Worker [i] reads channel group [i mod G]. *)
Definition workers_in_group (workerCount G g : nat) : nat :=
  length (filter (fun i => Nat.eqb (Nat.modulo i G) g) (seq 0 workerCount)).

(** The records all scanners of the run produce, group by group. *)
Definition parsed_groups (archive : list byte) (G : nat) (jsonField : list byte)
    : outcome (list (list ParsedLog)) :=
  lines ← ReadLines archive G;
  mapM (scanner jsonField) lines.

(** The records the parser accepts in a run over [archive]. *)
Definition accepted_records (archive : list byte) (G : nat) (jsonField : list byte)
    : outcome (list ParsedLog) :=
  groups ← parsed_groups archive G jsonField;
  Ok (concat groups).

(** [Match(sm, archive, opts...)] on a machine with [numCPU] CPUs, from
    counters [c] to counters [c'].  The choice of which matcher of a group
    receives which record, and the order in which matchers deliver their
    tables, are the scheduler's: [scheds] gives, per group, the records of
    each of its matchers, and [matched] is any order of the tables. *)
Inductive Match_run (sm : SearchMap) (archive : list byte) (numCPU : nat)
    (jsonField : list byte) : Counters -> outcome MatchResults -> Counters -> Prop :=
| Match_no_groups c :
    (numCPU / 4 = 0)%nat ->
    Match_run sm archive numCPU jsonField c (Panic "integer divide by zero") c
| Match_read_error c e :
    (numCPU / 4 <> 0)%nat ->
    ReadLines archive (numCPU / 4) = Err e ->
    Match_run sm archive numCPU jsonField c (Err e) c
| Match_crash c m :
    (numCPU / 4 <> 0)%nat ->
    parsed_groups archive (numCPU / 4) jsonField = Panic m ->
    Match_run sm archive numCPU jsonField c (Panic m) c
| Match_done c groups scheds hits matched c' :
    (numCPU / 4 <> 0)%nat ->
    parsed_groups archive (numCPU / 4) jsonField = Ok groups ->
    length scheds = length groups ->
    (forall g sched grp, scheds !! g = Some sched -> groups !! g = Some grp ->
       Permutation (concat sched) grp /\
       length sched = workers_in_group numCPU (numCPU / 4) g) ->
    run_matchers sm (concat scheds) c = (hits, c') ->
    Permutation matched hits ->
    Match_run sm archive numCPU jsonField c
      (Ok (mkMatchResults matched (numMatched c') (numNotMatched c'))) c'.

End Pipeline.

(** ** AggregateResults *)

(** The inner loop [for k, v := range result] over the accumulator
    [first], with buckets as values. *)
Definition merge_into (first result : Matches) : Matches :=
  map_fold (fun k v acc =>
              match acc !! k with
              | None => <[k := v]> acc                   (* first[k] = v *)
              | Some s => <[k := s ++ v]> acc            (* append to the bucket *)
              end) first result.

(** [AggregateResults(results)] on bucket contents. *)
Definition AggregateResults (results : list Matches) : outcome Matches :=
  match results with
  | [] => Panic "index out of range [0] with length 0"
  | first :: rest => Ok (fold_left merge_into rest first)
  end.

(** The same function on the Go heap: a table is a handle to a Go map
    from call-site to bucket pointer, and a bucket pointer leads to a
    slice.  Handles absent from [maps] are nil maps.  Each [range result]
    visits the entries [result] has when the loop over it starts. *)
Record Heap := mkHeap {
  maps : gmap nat (gmap ptr nat);
  slices : gmap nat (list ParsedLog)
}.

Definition heap_step (first : nat) (k : ptr) (v : nat) (h : outcome Heap)
    : outcome Heap :=
  h ← h;
  match maps h !! first with
  | None => Panic "assignment to entry in nil map"
  | Some fm =>
      match fm !! k with
      | None => Ok (mkHeap (<[first := <[k := v]> fm]> (maps h)) (slices h))
      | Some s =>
          let sv := default [] (slices h !! s) in
          let vv := default [] (slices h !! v) in
          Ok (mkHeap (maps h) (<[s := sv ++ vv]> (slices h)))
      end
  end.

Definition AggregateResults_heap (results : list nat) (h : Heap) : outcome (nat * Heap) :=
  first ← at_ results 0;
  h' ← fold_left (fun acc result =>
          h ← acc;
          map_fold (heap_step first) (Ok h) (default ∅ (maps h !! result)))
        (tail results) (Ok h);
  Ok (first, h').

(** ** SortMatches *)

(** Go's [<] on strings: bytewise lexicographic order. *)
Fixpoint bytes_compare (a b : list byte) : comparison :=
  match a, b with
  | [], [] => Eq
  | [], _ :: _ => Lt
  | _ :: _, [] => Gt
  | x :: a', y :: b' =>
      match Z.compare (b2z x) (b2z y) with
      | Eq => bytes_compare a' b'
      | r => r
      end
  end.

Definition str_gt (a b : list byte) : bool :=
  match bytes_compare a b with Gt => true | _ => false end.
Definition str_ge (a b : list byte) : bool :=
  match bytes_compare a b with Lt => false | _ => true end.

Record MatchEntry := mkMatchEntry { Log : ptr; Hits : list ParsedLog }.

Section Sorting.
(** The statements the call-site pointers lead to. *)
Variable deref : ptr -> LogStatement.

Definition entry_less (a b : MatchEntry) : bool :=
  if Nat.eqb (length (Hits a)) (length (Hits b))
  then str_gt (SourceFile (deref (Log a))) (SourceFile (deref (Log b)))
  else Nat.ltb (length (Hits b)) (length (Hits a)).

(** sort.Slice with Go's insertion sort ([insertionSortLessFunc]: each
    element moves left while it is [less] than its left neighbour).  The
    sorted prefix is kept reversed, its last element first. *)
Fixpoint insert_rev (less : MatchEntry -> MatchEntry -> bool)
    (x : MatchEntry) (rsorted : list MatchEntry) : list MatchEntry :=
  match rsorted with
  | [] => [x]
  | y :: ys => if less x y then y :: insert_rev less x ys else x :: y :: ys
  end.

Definition sort_Slice (less : MatchEntry -> MatchEntry -> bool)
    (entries : list MatchEntry) : list MatchEntry :=
  rev (fold_left (fun acc x => insert_rev less x acc) entries []).

(** [SortMatches(results)]; [results] is given as the sequence its
    [range] visits, a nil bucket pointer as [None]. *)
Definition SortMatches (results : list (ptr * option (list ParsedLog)))
    : list MatchEntry :=
  let entries := map (fun '(k, v) =>
                        mkMatchEntry k (match v with
                                        | None => []
                                        | Some s => s
                                        end)) results in
  sort_Slice entry_less entries.

End Sorting.

(** ** Counters across the invocations of one process *)

(** The counter values a process can reach: zero at start, then whatever
    [Match] runs leave behind. *)
Inductive process_counters (sha1 : list byte -> list byte)
    (GetBytes : list byte -> list byte -> option (list byte)) : Counters -> Prop :=
| process_start : process_counters sha1 GetBytes zeroCounters
| process_after_match c sm archive numCPU jsonField r c' :
    process_counters sha1 GetBytes c ->
    Match_run sha1 GetBytes sm archive numCPU jsonField c r c' ->
    process_counters sha1 GetBytes c'.

(** ** FindMissed, the search map and the analysis (match.go, search list) *)

(** [FindMissed(sm, aggregated)]: the statements of [sm] without a bucket
    in [aggregated], each with a nil bucket pointer ([None], as in the
    input of [SortMatches]). *)
Definition FindMissed (sm : SearchMap) (aggregated : Matches)
    : gmap ptr (option (list ParsedLog)) :=
  map_fold (fun _ v missed =>
              match aggregated !! v with
              | None => <[v := None]> missed          (* missed[v] = nil *)
              | Some _ => missed
              end) ∅ sm.

(** [SearchList.GenerateSearchMap]: the first statement of each
    fingerprint goes to the search map; once a fingerprint is seen again,
    [collisions] lists all its statements in order. *)
Section SearchMapGen.
Variable sha1 : list byte -> list byte.
Variable deref : ptr -> LogStatement.

Definition gen_step (st : SearchMap * gmap (list byte) (list ptr)) (stmt : ptr)
    : SearchMap * gmap (list byte) (list ptr) :=
  let '(sm, collisions) := st in
  let fp := LogStatement_Fingerprint sha1 (deref stmt) in
  match sm !! fp with
  | None => (<[fp := stmt]> sm, collisions)
  | Some existing =>
      let cur := match collisions !! fp with
                 | None => [existing]          (* collisions[fp] = {existing} *)
                 | Some l => l
                 end in
      (sm, <[fp := cur ++ [stmt]]> collisions)
  end.

Definition GenerateSearchMap (s : list ptr) : SearchMap * gmap (list byte) (list ptr) :=
  fold_left gen_step s (∅, ∅).

End SearchMapGen.

(** [m[k]] on a [map[int]int64]: 0 for a missing key. *)
Definition map_get (m : gmap Z Z) (k : Z) : Z := default 0 (m !! k).

(** [m[k]++]. *)
Definition map_incr (m : gmap Z Z) (k : Z) : gmap Z Z := <[k := add64 (map_get m k) 1]> m.

(** [float64(n)] for an [int64]: rounded to nearest, ties to even, as the
    primitive [of_uint63] does; [-2^63] is exact. *)
Definition float64_of_int64 (n : Z) : float :=
  let mag := if Z.abs n =? 2 ^ 63
             then (PrimFloat.of_uint63 (Uint63.of_Z (2 ^ 62)) * 2)%float
             else PrimFloat.of_uint63 (Uint63.of_Z (Z.abs n)) in
  if n <? 0 then PrimFloat.opp mag else mag.

Record AnalyzeResult := mkAnalyzeResult {
  NumHitTotal : Z;
  NumMissedTotal : Z;
  PercentHitTotal : float;
  NumInfoHit : gmap Z Z;
  NumInfoMissed : gmap Z Z;
  PercentInfoHit : gmap Z float;
  NumWarnHit : Z;
  NumWarnMissed : Z;
  PercentWarnHit : float;
  NumErrorHit : gmap Z Z;
  NumErrorMissed : gmap Z Z;
  PercentErrorHit : gmap Z float;
  NumFatalHit : Z;
  NumFatalMissed : Z;
  PercentFatalHit : float
}.

(** [float64(num) / float64(den) * 100]. *)
Definition percent (num den : Z) : float :=
  (float64_of_int64 num / float64_of_int64 den * 100)%float.

(** The two loops filling [PercentInfoHit] (or [PercentErrorHit]): over
    the keys of the hit map, then over those of the missed map. *)
Definition percent_map (hit missed : gmap Z Z) : gmap Z float :=
  let pct := map_fold (fun k v pct =>
               <[k := percent v (add64 (map_get hit k) (map_get missed k))]> pct) ∅ hit in
  map_fold (fun k _ pct =>
    <[k := percent (map_get hit k) (add64 (map_get hit k) (map_get missed k))]> pct) pct missed.

Section Analyze.
Variable deref : ptr -> LogStatement.

(** [verbosity := -1; if v.Verbosity != nil { verbosity = *v.Verbosity }] *)
Definition stmt_verbosity (v : ptr) : Z :=
  match Verbosity (deref v) with Some x => x | None => -1 end.

(** [!ok || matched == nil || len( *matched) == 0]; the buckets of a
    [Matches] value are never nil here (see [Matches]). *)
Definition is_missed (results : Matches) (v : ptr) : bool :=
  match results !! v with
  | None => true
  | Some matched => Nat.eqb (length matched) 0
  end.

(** One iteration of [for _, v := range sm]: the totals and the counter
    the [switch v.Severity] selects (none for a severity outside 0..3). *)
Definition analyze_visit (results : Matches) (r : AnalyzeResult) (v : ptr) : AnalyzeResult :=
  let verbosity := stmt_verbosity v in
  let missed := is_missed results v in
  let sev := Severity (deref v) in
  {| NumHitTotal := if missed then NumHitTotal r else add64 (NumHitTotal r) 1;
     NumMissedTotal := if missed then add64 (NumMissedTotal r) 1 else NumMissedTotal r;
     PercentHitTotal := PercentHitTotal r;
     NumInfoHit := if negb missed && (sev =? 0) then map_incr (NumInfoHit r) verbosity
                   else NumInfoHit r;
     NumInfoMissed := if missed && (sev =? 0) then map_incr (NumInfoMissed r) verbosity
                      else NumInfoMissed r;
     PercentInfoHit := PercentInfoHit r;
     NumWarnHit := if negb missed && (sev =? 1) then add64 (NumWarnHit r) 1 else NumWarnHit r;
     NumWarnMissed := if missed && (sev =? 1) then add64 (NumWarnMissed r) 1 else NumWarnMissed r;
     PercentWarnHit := PercentWarnHit r;
     NumErrorHit := if negb missed && (sev =? 2) then map_incr (NumErrorHit r) verbosity
                    else NumErrorHit r;
     NumErrorMissed := if missed && (sev =? 2) then map_incr (NumErrorMissed r) verbosity
                       else NumErrorMissed r;
     PercentErrorHit := PercentErrorHit r;
     NumFatalHit := if negb missed && (sev =? 3) then add64 (NumFatalHit r) 1 else NumFatalHit r;
     NumFatalMissed := if missed && (sev =? 3) then add64 (NumFatalMissed r) 1 else NumFatalMissed r;
     PercentFatalHit := PercentFatalHit r |}.

(** The result literal: empty maps, zero counters. *)
Definition analyze_init : AnalyzeResult :=
  mkAnalyzeResult 0 0 0%float ∅ ∅ ∅ 0 0 0%float ∅ ∅ ∅ 0 0 0%float.

(** [AnalyzeMatches(sm, results)]. *)
Definition AnalyzeMatches (sm : SearchMap) (results : Matches) : AnalyzeResult :=
  let r := map_fold (fun _ v r => analyze_visit results r v) analyze_init sm in
  {| NumHitTotal := NumHitTotal r;
     NumMissedTotal := NumMissedTotal r;
     PercentHitTotal := percent (NumHitTotal r) (add64 (NumHitTotal r) (NumMissedTotal r));
     NumInfoHit := NumInfoHit r;
     NumInfoMissed := NumInfoMissed r;
     PercentInfoHit := percent_map (NumInfoHit r) (NumInfoMissed r);
     NumWarnHit := NumWarnHit r;
     NumWarnMissed := NumWarnMissed r;
     PercentWarnHit := percent (NumWarnHit r) (add64 (NumWarnHit r) (NumWarnMissed r));
     NumErrorHit := NumErrorHit r;
     NumErrorMissed := NumErrorMissed r;
     PercentErrorHit := percent_map (NumErrorHit r) (NumErrorMissed r);
     NumFatalHit := NumFatalHit r;
     NumFatalMissed := NumFatalMissed r;
     PercentFatalHit := percent (NumFatalHit r) (add64 (NumFatalHit r) (NumFatalMissed r)) |}.

End Analyze.

(** ** The match command's report (cmd/match.go) *)

(** [for i := -1; i < 10; i++] *)
Definition verbosity_levels : list Z := map (fun n => Z.of_nat n - 1) (seq 0 11).

(** [forEachVerbosityLevel(hit, missed, pct, fn)]: the arguments of the
    calls to [fn], in order.  [fmt.Sprint(i)] of an [int] is [Itoa i]. *)
Definition forEachVerbosityLevel (hit missed : gmap Z Z) (pct : gmap Z float)
    : list (list byte * Z * Z * float) :=
  flat_map (fun i =>
    match pct !! i with
    | None => []                                           (* continue *)
    | Some p =>
        if (map_get hit i =? 0) && (map_get missed i =? 0) then []   (* continue *)
        else [((if i =? -1 then bs "*" else Itoa i), map_get hit i, map_get missed i, p)]
    end) verbosity_levels.

(** The end of the command: [sorted := SortMatches(aggregated)]; nothing
    more when it is empty ([None]); otherwise [printEntries(sorted[:top])],
    with [top = len(sorted)] under [--all].  [SortMatches] allocates
    [sorted] with capacity [len(results)] and appends as many entries, so
    its capacity is its length and [slice] checks the right bound. *)
Definition top_entries (sorted : list MatchEntry) (showAll : bool) (top : Z)
    : outcome (option (list MatchEntry)) :=
  if len sorted =? 0 then Ok None else
  let top := if showAll then len sorted else top in
  entries ← slice sorted 0 top;
  Ok (Some entries).

(** The default of the [--top] flag. *)
Definition default_top : Z := 20.

(** ** printEntries (cmd/match.go) *)

(** [Severity.String] (pkg/inator/types.go). *)
Definition Severity_String (s : Z) : list byte :=
  if s =? 0 then bs "I"
  else if s =? 1 then bs "W"
  else if s =? 2 then bs "E"
  else if s =? 3 then bs "F"
  else bs "?".

(** A line [printEntries] prints, given by the arguments of its
    [fmt.Printf]: the index [i+1], the number of hits, the severity letter,
    the file name and the format string.  The widths [maxIndexLen],
    [maxHitsLen] and [maxFilenameLen] only pad these fields and are left
    out. *)
Record PrintedRow := mkPrintedRow {
  row_index : Z;
  row_hits : Z;
  row_severity : list byte;
  row_filename : list byte;
  row_format : list byte
}.

Section PrintEntries.
Variable deref : ptr -> LogStatement.
(** [strings.ToLower]. *)
Variable ToLower : list byte -> list byte.
(** The [--full-paths] and [--severity] flags. *)
Variable fullPaths : bool.
Variable severityFilter : list (list byte).

Definition formatFilename (log : LogStatement) : list byte :=
  (if fullPaths then SourceFile log else ShortSourceFile log) ++ bs ":" ++ Itoa (LineNumber log).

(** The [switch strings.ToLower(f)] over a [--severity] value. *)
Definition severity_case (f : list byte) : option Z :=
  let l := ToLower f in
  if existsb (list_byte_eqb l) [bs "info"; bs "debug"; bs "i"; bs "0"] then Some 0
  else if existsb (list_byte_eqb l) [bs "warn"; bs "warning"; bs "w"; bs "1"] then Some 1
  else if existsb (list_byte_eqb l) [bs "error"; bs "err"; bs "e"; bs "2"] then Some 2
  else if existsb (list_byte_eqb l) [bs "fatal"; bs "f"; bs "3"] then Some 3
  else None.

Definition all_severities (b : bool) : gmap Z bool :=
  <[0 := b]> (<[1 := b]> (<[2 := b]> (<[3 := b]> ∅))).

(** [severityFilterMap]. *)
Definition severity_filter_map : gmap Z bool :=
  if 0 <? len severityFilter then
    fold_left (fun m f => match severity_case f with
                          | Some s => <[s := true]> m
                          | None => m
                          end) severityFilter (all_severities false)
  else all_severities true.

Definition entry_row (i : Z) (entry : MatchEntry) : PrintedRow :=
  let log := deref (Log entry) in
  mkPrintedRow (i + 1) (len (Hits entry)) (Severity_String (Severity log))
               (formatFilename log) (FormatString log).

(** The printing loop from index [i]; a severity missing from the map reads
    as [false]. *)
Fixpoint print_rows (m : gmap Z bool) (i : Z) (entries : list MatchEntry) : list PrintedRow :=
  match entries with
  | [] => []
  | entry :: rest =>
      if default false (m !! Severity (deref (Log entry)))
      then entry_row i entry :: print_rows m (i + 1) rest
      else print_rows m (i + 1) rest
  end.

Definition printEntries (entries : list MatchEntry) : list PrintedRow :=
  print_rows severity_filter_map 0 entries.

End PrintEntries.

(** ** resolveSeverity (the search list's severity rules) *)

Definition dquote : byte := x22.

(** [strings.Trim] with an ASCII cut set, which trims bytes: first from the
    left, then from the right. *)
Fixpoint TrimLeft (cutset : list byte) (s : list byte) : list byte :=
  match s with
  | [] => []
  | c :: s' => if existsb (beq c) cutset then TrimLeft cutset s' else s
  end.

Definition TrimRight (cutset : list byte) (s : list byte) : list byte :=
  rev (TrimLeft cutset (rev s)).

Definition Trim (cutset : list byte) (s : list byte) : list byte :=
  TrimRight cutset (TrimLeft cutset s).

(** [strings.HasPrefix], [strings.HasSuffix], [strings.Contains]. *)
Definition HasPrefix (s prefix : list byte) : bool :=
  (length prefix <=? length s)%nat && list_byte_eqb (firstn (length prefix) s) prefix.

Definition HasSuffix (s suffix : list byte) : bool :=
  (length suffix <=? length s)%nat &&
  list_byte_eqb (skipn (length s - length suffix) s) suffix.

Definition Contains (s substr : list byte) : bool :=
  existsb (fun i => HasPrefix (skipn i s) substr) (seq 0 (S (length s))).

Section ResolveSeverity.
(** [strings.ToLower]. *)
Variable ToLower : list byte -> list byte.

(** The loop over [errorKeywords]: 2 is [SeverityError], 0 is
    [SeverityInfo]. *)

Fixpoint resolve_loop (unquoted : list byte) (errorKeywords : list (list byte)) : outcome Z :=
  match errorKeywords with
  | [] => Ok 0
  | keyword :: rest =>
      c0 ← at_ keyword 0;
      if beq c0 "^"%byte then
        p ← slice keyword 1 (len keyword);
        if HasPrefix unquoted (ToLower p) then Ok 2 else resolve_loop unquoted rest
      else
        cl ← at_ keyword (len keyword - 1);
        if beq cl "$"%byte then
          p ← slice keyword 0 (len keyword - 1);
          if HasSuffix unquoted (ToLower p) then Ok 2 else resolve_loop unquoted rest
        else if Contains unquoted (ToLower keyword) then Ok 2
        else resolve_loop unquoted rest
  end.

(** The deferred message to [os.Stderr] is output only and is left out. *)
Definition resolveSeverity (message : list byte) (severity : Z)
    (errorKeywords : list (list byte)) : outcome Z :=
  if negb (severity =? 0) then Ok severity else
  let unquoted := ToLower (Trim [" "%byte; dquote] message) in
  resolve_loop unquoted errorKeywords.

End ResolveSeverity.

(** ** Auxiliary definitions for the statements and proofs *)

(** The bytes of a line from index 30 up to its first ':' (all of them if
    there is none): the path portion of a klog header. *)
Fixpoint upto_colon (l : list byte) : list byte :=
  match l with
  | [] => []
  | c :: l' => if beq c ":"%byte then [] else c :: upto_colon l'
  end.

Definition path_portion (line : list byte) : list byte := upto_colon (skipn 30 line).

(** The number of bytes before the first newline of [l]. *)
Fixpoint nl_dist (l : list byte) : nat :=
  match l with
  | [] => O
  | c :: l' => if beq c nl then O else S (nl_dist l')
  end.

(** Joining two optional buckets the way [AggregateResults] does. *)
Definition opt_app (x y : option (list ParsedLog)) : option (list ParsedLog) :=
  match x, y with
  | None, _ => y
  | _, None => x
  | Some a, Some b => Some (a ++ b)
  end.

(** The bucket a key gets from a sequence of optional buckets, joined in
    order. *)
Fixpoint opt_flat (os : list (option (list ParsedLog))) : option (list ParsedLog) :=
  match os with
  | [] => None
  | o :: os' => opt_app o (opt_flat os')
  end.

(** Two optional buckets with the same records up to order. *)
Definition opt_perm (x y : option (list ParsedLog)) : Prop :=
  match x, y with
  | None, None => True
  | Some a, Some b => Permutation a b
  | _, _ => False
  end.

(** The value of a lowercase hex digit. *)
Definition unhex (c : byte) : Z :=
  if negb (out_of c "0"%byte "9"%byte) then b2z c - 48 else b2z c - 87.

Definition is_lower_hex (c : byte) : bool :=
  negb (out_of c "0"%byte "9"%byte) || negb (out_of c "a"%byte "f"%byte).

(** A decimal digit, and the value of a digit string read from [n]. *)
Definition is_digit (c : byte) : Prop := exists d, digit_val c = Some d.

Definition digits_value (n : Z) (ds : list byte) : Z :=
  fold_left (fun n c => n * 10 + (b2z c - 48)) ds n.

(** The byte of the digit [k] as [Itoa] writes it. *)
Definition digit_byte (k : Z) : byte :=
  match Byte.of_N (Z.to_N (48 + k)) with Some b => b | None => "0"%byte end.

(** A bucket as [Matches] holds it: absent when empty. *)
Definition to_opt (l : list ParsedLog) : option (list ParsedLog) :=
  match l with [] => None | _ => Some l end.

(** The records of [ps] whose fingerprint the search map sends to [k]. *)
Definition hits_for (sha1 : list byte -> list byte) (sm : SearchMap) (k : ptr)
    (ps : list ParsedLog) : list ParsedLog :=
  List.filter (fun p => bool_decide (sm !! ParsedLog_Fingerprint sha1 p = Some k)) ps.

(** A record whose fingerprint is in the search map. *)
Definition in_map (sha1 : list byte -> list byte) (sm : SearchMap) (p : ParsedLog) : bool :=
  bool_decide (is_Some (sm !! ParsedLog_Fingerprint sha1 p)).

(** The statements of [s] with fingerprint [f], in order. *)
Definition with_fp (sha1 : list byte -> list byte) (deref : ptr -> LogStatement)
    (f : list byte) (s : list ptr) : list ptr :=
  List.filter (fun stmt => bool_decide (LogStatement_Fingerprint sha1 (deref stmt) = f)) s.

(** The number of elements of [l] satisfying [P], and the entry a counter
    map holds for it (none when zero). *)
Definition cnt {A} (P : A -> bool) (l : list A) : Z := Z.of_nat (length (List.filter P l)).
Definition cnt_opt {A} (P : A -> bool) (l : list A) : option Z :=
  if cnt P l =? 0 then None else Some (cnt P l).

(** The statements of a search map, one per entry. *)
Definition stmts (sm : SearchMap) : list ptr := map snd (map_to_list sm).

Section AnalyzeCounts.
Variable deref : ptr -> LogStatement.

(** A statement of severity [s] with (resp. without) records. *)
Definition hit_sev (results : Matches) (s : Z) (v : ptr) : bool :=
  negb (is_missed results v) && (Severity (deref v) =? s).
Definition miss_sev (results : Matches) (s : Z) (v : ptr) : bool :=
  is_missed results v && (Severity (deref v) =? s).
Definition at_level (Q : ptr -> bool) (i : Z) (v : ptr) : bool :=
  Q v && (stmt_verbosity deref v =? i).

(** The counters of [r] count the statements of [l]: all of them, per
    severity, and per severity and verbosity level. *)
Definition counts_ok (results : Matches) (l : list ptr) (r : AnalyzeResult) : Prop :=
  NumHitTotal r = cnt (fun v => negb (is_missed results v)) l /\
  NumMissedTotal r = cnt (is_missed results) l /\
  NumWarnHit r = cnt (hit_sev results 1) l /\
  NumWarnMissed r = cnt (miss_sev results 1) l /\
  NumFatalHit r = cnt (hit_sev results 3) l /\
  NumFatalMissed r = cnt (miss_sev results 3) l /\
  (forall i, NumInfoHit r !! i = cnt_opt (at_level (hit_sev results 0) i) l) /\
  (forall i, NumInfoMissed r !! i = cnt_opt (at_level (miss_sev results 0) i) l) /\
  (forall i, NumErrorHit r !! i = cnt_opt (at_level (hit_sev results 2) i) l) /\
  (forall i, NumErrorMissed r !! i = cnt_opt (at_level (miss_sev results 2) i) l).

End AnalyzeCounts.

(** The rows a level table gets from per-level hit and miss counts: one
    per level of [-1..9] with a statement, its percentage computed from
    the two counts. *)
Definition level_rows (h m : Z -> Z) : list (list byte * Z * Z * float) :=
  flat_map (fun i =>
    if (h i =? 0) && (m i =? 0) then []
    else [((if i =? -1 then bs "*" else Itoa i), h i, m i, percent (h i) (h i + m i))])
    verbosity_levels.

(** Three statements: an INFO one without verbosity, an ERROR one at
    level 1 and an INFO one at level 12; only the first has records. *)
Definition analysis_deref (v : ptr) : LogStatement :=
  match v with
  | O => mkLogStatement (bs "a/a.go") 1 0 None (bs "a")
  | 1%nat => mkLogStatement (bs "a/b.go") 2 2 (Some 1) (bs "b")
  | _ => mkLogStatement (bs "a/c.go") 3 0 (Some 12) (bs "c")
  end.

Definition analysis_sm : SearchMap :=
  <[bs "fa" := 0%nat]> (<[bs "fb" := 1%nat]> (<[bs "fc" := 2%nat]> ∅)).

Definition analysis_results : Matches := <[0%nat := [mkParsedLog (bs "a/a.go") 1 0 (bs "a")]]> ∅.

(** A path element that [Clean] keeps as it is: non-empty, free of '/',
    and neither "." nor "..". *)
Definition plain_elem (e : list byte) : Prop :=
  e <> [] /\ Forall (fun c => c <> slash) e /\ e <> bs "." /\ e <> bs "..".

(** A path prefix that is empty or ends in '/'. *)
Definition slash_ended (y : list byte) : Prop := y = [] \/ exists y', y = y' ++ [slash].

(** The first 30 bytes of a line pass the header checks of [ParseLine]:
    severity letter, the spaces at 5, 21 and 29, the date and time digits and
    the thread id. *)
Definition klog_header_ok (hdr : list byte) (sev : Z) : Prop :=
  length hdr = 30%nat /\
  (exists c0, nth_error hdr 0 = Some c0 /\ severity_of c0 = Some sev) /\
  nth_error hdr 5 = Some " "%byte /\ nth_error hdr 21 = Some " "%byte /\
  nth_error hdr 29 = Some " "%byte /\
  ranges_ok hdr header_ranges = Ok true /\
  threadid_ok true (firstn 7 (skipn 22 hdr)) = true.

(** The severities [printEntries] prints: 0 to 3 without [--severity],
    otherwise those some value of the flag names. *)
Definition severity_selected (ToLower : list byte -> list byte) (severityFilter : list (list byte)) (s : Z) : Prop :=
  match severityFilter with
  | [] => 0 <= s <= 3
  | _ => exists f, In f severityFilter /\ severity_case ToLower f = Some s
  end.

(** Whether one non-empty keyword matches, as the loop tests it. *)
Definition keyword_matches (ToLower : list byte -> list byte) (unquoted keyword : list byte) : bool :=
  match keyword with
  | [] => false
  | c0 :: _ =>
      if beq c0 "^"%byte then HasPrefix unquoted (ToLower (skipn 1 keyword))
      else if beq (List.last keyword c0) "$"%byte then HasSuffix unquoted (ToLower (removelast keyword))
      else Contains unquoted (ToLower keyword)
  end.

(** * Examples *)

Example ParseLine_sample :
  ParseLine SampleLine =
  Ok (mkParsedLog (bs "queueset/queueset.go") 488 0 (bs "Sample Tex"), true).
Proof. vm_compute. reflexivity. Qed.

Example ShortSourceFile_sample :
  ShortSourceFile (mkLogStatement
    (bs "k8s.io/apiserver/pkg/util/flowcontrol/fairqueuing/queueset/queueset.go")
    488 0 None (bs "Sample")) = bs "queueset/queueset.go".
Proof. vm_compute. reflexivity. Qed.

Example read_chunks_sample :
  read_chunks (bs "aa" ++ [nl] ++ bs "bb" ++ [nl] ++ bs "cc") 2%nat =
  Ok [bs "aa" ++ [nl] ++ bs "bb" ++ [nl]; bs "cc"].
Proof. vm_compute. reflexivity. Qed.

(** * Properties *)

(** ** Fingerprints *)

(** C1: a statement and a parsed record with the same short path, line
    number and severity have the same fingerprint (for any digest function). *)
Theorem fingerprints_agree (sha1 : list byte -> list byte)
    (s : LogStatement) (p : ParsedLog) :
  ShortSourceFile s = pl_SourceFile p ->
  LineNumber s = pl_LineNumber p ->
  Severity s = pl_Severity p ->
  LogStatement_Fingerprint sha1 s = ParsedLog_Fingerprint sha1 p.
Proof.
  intros Hsf Hln Hsev. unfold LogStatement_Fingerprint, ParsedLog_Fingerprint.
  rewrite Hsf, Hln, Hsev. reflexivity.
Qed.

Definition S1_statement : LogStatement :=
  mkLogStatement
    (bs "k8s.io/apiserver/pkg/util/flowcontrol/fairqueuing/queueset/queueset.go")
    488 0 None (bs "Sample").

Definition S1_record : ParsedLog :=
  mkParsedLog (bs "queueset/queueset.go") 488 0 (bs "Sample Tex").

Lemma fingerprints_agree_witness :
  ShortSourceFile S1_statement = pl_SourceFile S1_record /\
  LineNumber S1_statement = pl_LineNumber S1_record /\
  Severity S1_statement = pl_Severity S1_record /\
  LogStatement_Fingerprint (fun d => d) S1_statement =
  ParsedLog_Fingerprint (fun d => d) S1_record.
Proof.
  assert (H1 : ShortSourceFile S1_statement = pl_SourceFile S1_record)
    by (vm_compute; reflexivity).
  split; [exact H1|]. split; [reflexivity|]. split; [reflexivity|].
  apply (fingerprints_agree (fun d => d) S1_statement S1_record H1);
    reflexivity.
Defined.

(** ** ParseLine on the edges of its input *)

Definition klog_header : list byte := bs "I1105 13:30:39.614388  739568 ".

(** C4 (code_bug): a well-formed klog line whose message is empty, ending
    in "] ", makes ParseLine take [line[len(line):len(line)-1]] and panic. *)
Theorem ParseLine_empty_message_panics :
  ParseLine (klog_header ++ bs "queueset/queueset.go:488] ") =
  Panic "slice bounds out of range".
Proof. vm_compute. reflexivity. Qed.

(** C6 (code_bug): a line number that overflows [int] makes Atoi fail with
    a range error, yet ParseLine returns the record, with the clamped line
    number 2^63-1, and ok = true. *)
Theorem ParseLine_overflow_accepted :
  Atoi (bs "99999999999999999999") = (9223372036854775807, Some ErrRange) /\
  ParseLine (klog_header ++ bs "queueset/queueset.go:99999999999999999999] Sample Text") =
  Ok (mkParsedLog (bs "queueset/queueset.go") 9223372036854775807 0 (bs "Sample Tex"),
      true).
Proof. split; vm_compute; reflexivity. Qed.

(** ** The empty archive *)

(** C9 (code_bug): for an empty archive the mapping of the file fails with
    EINVAL, so ReadLines returns an error and no Match run completes. *)
Theorem empty_archive_fails (sha1 : list byte -> list byte)
    (GetBytes : list byte -> list byte -> option (list byte))
    (sm : SearchMap) (numCPU : nat) (jsonField : list byte) (c : Counters) (G : nat) :
  read_chunks [] G = Err "invalid argument" /\
  ReadLines [] G = Err "invalid argument" /\
  (forall res c', ~ Match_run sha1 GetBytes sm [] numCPU jsonField c (Ok res) c').
Proof.
  split; [reflexivity|]. split; [reflexivity|].
  intros res c' Hrun. inversion Hrun; subst.
  match goal with H : parsed_groups _ [] _ _ = Ok _ |- _ =>
    unfold parsed_groups in H; cbn in H; discriminate H end.
Qed.

(** ** AggregateResults on the heap *)

Lemma heap_step_fold (first : nat) (h : Heap) (fm : gmap ptr nat) (m : gmap ptr nat) :
  maps h !! first = Some fm ->
  exists h'', map_fold (heap_step first) (Ok h) m = Ok h'' /\
              maps h'' = <[first := fm ∪ m]> (maps h).
Proof.
  intros Hfm.
  refine (map_fold_weak_ind
            (fun r m => exists h'', r = Ok h'' /\ maps h'' = <[first := fm ∪ m]> (maps h))
            (heap_step first) (Ok h) _ _ m).
  - exists h. split; [reflexivity|]. rewrite map_union_empty.
    rewrite insert_id; [reflexivity|exact Hfm].
  - intros i x m' r Hi [h1 [-> Hm1]]. unfold heap_step; simpl.
    rewrite Hm1, lookup_insert_eq.
    destruct ((fm ∪ m') !! i) as [s|] eqn:Hs.
    + eexists; split; [reflexivity|]. simpl. f_equal.
      apply map_eq; intros j. rewrite !lookup_union.
      destruct (decide (i = j)) as [<-|Hne].
      * rewrite lookup_insert_eq, Hi.
        rewrite lookup_union, Hi in Hs. destruct (fm !! i); cbn in *; congruence.
      * rewrite lookup_insert_ne by exact Hne. reflexivity.
    + eexists; split; [reflexivity|]. simpl.
      rewrite insert_insert_eq. f_equal.
      apply map_eq; intros j. rewrite lookup_union.
      destruct (decide (i = j)) as [<-|Hne].
      * rewrite !lookup_insert_eq.
        rewrite lookup_union, Hi in Hs. destruct (fm !! i); cbn in *; congruence.
      * rewrite !lookup_insert_ne by exact Hne. rewrite lookup_union. reflexivity.
Qed.

Lemma heap_fold_results (first : nat) (rest : list nat) (h : Heap) (fm : gmap ptr nat) :
  maps h !! first = Some fm -> first ∉ rest ->
  exists h',
    fold_left (fun acc result =>
                 h ← acc;
                 map_fold (heap_step first) (Ok h) (default ∅ (maps h !! result)))
              rest (Ok h) = Ok h' /\
    maps h' !! first = Some (fold_left (fun acc r => acc ∪ default ∅ (maps h !! r)) rest fm).
Proof.
  revert h fm. induction rest as [|r rest IH]; intros h fm Hfm Hnotin.
  - exists h. split; [reflexivity|exact Hfm].
  - apply not_elem_of_cons in Hnotin as [Hne Hnotin].
    simpl.
    destruct (heap_step_fold first h fm (default ∅ (maps h !! r)) Hfm) as [h1 [Hf Hm1]].
    rewrite Hf.
    assert (Hfm1 : maps h1 !! first = Some (fm ∪ default ∅ (maps h !! r))).
    { rewrite Hm1, lookup_insert_eq. reflexivity. }
    destruct (IH h1 _ Hfm1 Hnotin) as [h' [Hfold Hh']].
    exists h'. split; [exact Hfold|]. rewrite Hh'. f_equal.
    assert (Hsame : forall r', r' ∈ rest -> maps h1 !! r' = maps h !! r').
    { intros r' Hin. rewrite Hm1, lookup_insert_ne; [reflexivity|].
      intros ->. contradiction. }
    clear -Hsame. generalize (fm ∪ default ∅ (maps h !! r)) as acc.
    induction rest as [|x xs IHx]; intros acc; simpl; [reflexivity|].
    rewrite Hsame by (left; reflexivity). apply IHx.
    intros r' Hin. apply Hsame. right. exact Hin.
Qed.

(** C10: AggregateResults needs a non-empty slice (it reads [results[0]]
    and panics on an empty one), and what it returns is the first table
    itself: that Go map now holds every call-site of every table. *)
Theorem AggregateResults_first_in_place :
  AggregateResults [] = Panic "index out of range [0] with length 0" /\
  (forall h, AggregateResults_heap [] h = Panic "index out of range") /\
  (forall (first : nat) (rest : list nat) (h : Heap) (fm : gmap ptr nat),
     maps h !! first = Some fm -> first ∉ rest ->
     exists h', AggregateResults_heap (first :: rest) h = Ok (first, h') /\
       maps h' !! first =
       Some (fold_left (fun acc r => acc ∪ default ∅ (maps h !! r)) rest fm)).
Proof.
  split; [reflexivity|]. split; [reflexivity|].
  intros first rest h fm Hfm Hnotin.
  destruct (heap_fold_results first rest h fm Hfm Hnotin) as [h' [Hfold Hh']].
  exists h'. unfold AggregateResults_heap. simpl. rewrite Hfold.
  split; [reflexivity|exact Hh'].
Qed.

Definition two_tables_heap : Heap :=
  mkHeap (<[1%nat := <[7%nat := 100%nat]> ∅]> (<[2%nat := <[7%nat := 101%nat]> (<[8%nat := 102%nat]> ∅)]> ∅))
         (<[100%nat := [S1_record]]> (<[101%nat := [S1_record]]> (<[102%nat := [S1_record]]> ∅))).

Lemma AggregateResults_first_in_place_witness :
  maps two_tables_heap !! 1%nat = Some (<[7%nat := 100%nat]> ∅) /\ (1%nat ∉ [2%nat]) /\
  exists h', AggregateResults_heap [1%nat; 2%nat] two_tables_heap = Ok (1%nat, h') /\
    maps h' !! 1%nat =
    Some (fold_left (fun acc r => acc ∪ default ∅ (maps two_tables_heap !! r))
            [2%nat] (<[7%nat := 100%nat]> ∅)).
Proof.
  assert (H1 : maps two_tables_heap !! 1%nat = Some (<[7%nat := 100%nat]> ∅))
    by reflexivity.
  assert (H2 : 1%nat ∉ [2%nat]) by (rewrite not_elem_of_cons; split; [lia|apply not_elem_of_nil]).
  split; [exact H1|]. split; [exact H2|].
  exact (proj2 (proj2 AggregateResults_first_in_place) 1%nat [2%nat] two_tables_heap _ H1 H2).
Defined.

(** ** SortMatches *)

Lemma bytes_compare_antisym (a b : list byte) :
  bytes_compare b a = CompOpp (bytes_compare a b).
Proof.
  revert b. induction a as [|x a IH]; intros [|y b]; simpl; try reflexivity.
  rewrite (Z.compare_antisym (b2z x) (b2z y)).
  destruct (Z.compare (b2z x) (b2z y)); simpl; auto.
Qed.

Section SortProofs.
Variable deref : ptr -> LogStatement.

Lemma entry_less_asym (a b : MatchEntry) :
  entry_less deref a b = true -> entry_less deref b a = false.
Proof.
  unfold entry_less, str_gt.
  rewrite (Nat.eqb_sym (length (Hits b))).
  destruct (Nat.eqb (length (Hits a)) (length (Hits b))).
  - rewrite (bytes_compare_antisym (SourceFile (deref (Log a)))).
    destruct (bytes_compare (SourceFile (deref (Log a))) (SourceFile (deref (Log b))));
      simpl; congruence.
  - intros H. apply Nat.ltb_lt in H. apply Nat.ltb_ge. lia.
Qed.

Let nle (x y : MatchEntry) : Prop := entry_less deref x y = false.

Lemma insert_rev_sorted (x : MatchEntry) (rs : list MatchEntry) :
  Sorted nle rs -> Sorted nle (insert_rev (entry_less deref) x rs).
Proof.
  induction rs as [|y ys IH]; intros Hs; simpl.
  - repeat constructor.
  - destruct (entry_less deref x y) eqn:Hxy.
    + apply Sorted_inv in Hs as [Hys Hhd].
      constructor; [apply IH; exact Hys|].
      destruct ys as [|z zs]; simpl.
      * constructor. apply entry_less_asym. exact Hxy.
      * destruct (entry_less deref x z).
        -- constructor. inversion Hhd; assumption.
        -- constructor. apply entry_less_asym. exact Hxy.
    + constructor; [exact Hs|]. constructor. exact Hxy.
Qed.

Lemma sort_fold_sorted (entries acc : list MatchEntry) :
  Sorted nle acc ->
  Sorted nle (fold_left (fun acc x => insert_rev (entry_less deref) x acc) entries acc).
Proof.
  revert acc. induction entries as [|x xs IH]; intros acc Hacc; simpl.
  - exact Hacc.
  - apply IH. apply insert_rev_sorted. exact Hacc.
Qed.

Lemma Sorted_adjacent {A} (R : A -> A -> Prop) (l pre post : list A) (a b : A) :
  Sorted R l -> l = pre ++ a :: b :: post -> R a b.
Proof.
  revert l. induction pre as [|z pre IH]; intros l Hs ->; simpl in *.
  - apply Sorted_inv in Hs as [_ Hhd]. inversion Hhd; assumption.
  - apply Sorted_inv in Hs as [Hs _]. eapply IH; [exact Hs|reflexivity].
Qed.

End SortProofs.

(** C7: in the output of SortMatches every entry has at least as many hits
    as the next one, and when the counts are equal its statement's source
    file is not smaller (bytewise) than the next one's. *)
Theorem SortMatches_ordered (deref : ptr -> LogStatement)
    (results : list (ptr * option (list ParsedLog)))
    (pre post : list MatchEntry) (a b : MatchEntry) :
  SortMatches deref results = pre ++ a :: b :: post ->
  (length (Hits b) <= length (Hits a))%nat /\
  (length (Hits a) = length (Hits b) ->
   str_ge (SourceFile (deref (Log a))) (SourceFile (deref (Log b))) = true).
Proof.
  unfold SortMatches, sort_Slice. intros Hout.
  set (R := fold_left _ _ []) in Hout.
  assert (HR : Sorted (fun x y => entry_less deref x y = false) R).
  { apply sort_fold_sorted. constructor. }
  assert (Hrev : R = rev post ++ b :: a :: rev pre).
  { rewrite <- (rev_involutive R), Hout. rewrite rev_app_distr. simpl.
    rewrite <- !app_assoc. reflexivity. }
  pose proof (Sorted_adjacent _ R (rev post) (rev pre) b a HR Hrev) as Hba.
  unfold entry_less in Hba.
  destruct (Nat.eqb (length (Hits b)) (length (Hits a))) eqn:Hlen.
  - apply Nat.eqb_eq in Hlen. split; [lia|]. intros _.
    unfold str_gt in Hba. unfold str_ge.
    rewrite (bytes_compare_antisym (SourceFile (deref (Log a)))) in Hba.
    destruct (bytes_compare (SourceFile (deref (Log a))) (SourceFile (deref (Log b))));
      simpl in *; congruence.
  - apply Nat.eqb_neq in Hlen. apply Nat.ltb_ge in Hba. split; [lia|].
    intros Heq. lia.
Qed.

Lemma SortMatches_ordered_witness :
  let deref := fun k : nat => if Nat.eqb k 0 then S1_statement else
                 mkLogStatement (bs "a/b.go") 1 0 None [] in
  let results := [(0%nat, Some [S1_record]); (1%nat, Some [S1_record; S1_record])] in
  SortMatches deref results =
    [] ++ mkMatchEntry 1 [S1_record; S1_record] :: mkMatchEntry 0 [S1_record] :: [] /\
  (1 <= 2)%nat /\
  (2 = 1 -> str_ge (SourceFile (mkLogStatement (bs "a/b.go") 1 0 None []))
                    (SourceFile S1_statement) = true)%nat.
Proof.
  intros deref results.
  assert (H : SortMatches deref results =
    [] ++ mkMatchEntry 1 [S1_record; S1_record] :: mkMatchEntry 0 [S1_record] :: [])
    by (vm_compute; reflexivity).
  split; [exact H|].
  exact (SortMatches_ordered deref results [] [] _ _ H).
Defined.

(** ** AggregateResults on bucket contents *)

Lemma merge_into_union_with (first result : Matches) :
  merge_into first result = union_with (fun s v => Some (s ++ v)) first result.
Proof.
  unfold merge_into.
  refine (map_fold_weak_ind
            (fun r m => r = union_with (fun s v => Some (s ++ v)) first m)
            _ first _ _ result).
  - apply map_eq; intros j. rewrite lookup_union_with, lookup_empty.
    destruct (first !! j); reflexivity.
  - intros i x m r Hi ->.
    rewrite lookup_union_with, Hi.
    destruct (first !! i) as [s|] eqn:Hf; cbn;
      apply map_eq; intros j;
      (destruct (decide (i = j)) as [<-|Hne];
       [rewrite !lookup_insert_eq, lookup_union_with, lookup_insert_eq, Hf; reflexivity
       |rewrite !lookup_insert_ne, !lookup_union_with, lookup_insert_ne by exact Hne;
        reflexivity]).
Qed.

Lemma lookup_merge_into (first result : Matches) (k : ptr) :
  merge_into first result !! k = opt_app (first !! k) (result !! k).
Proof.
  rewrite merge_into_union_with, lookup_union_with.
  destruct (first !! k), (result !! k); reflexivity.
Qed.

Lemma opt_app_assoc (x y z : option (list ParsedLog)) :
  opt_app x (opt_app y z) = opt_app (opt_app x y) z.
Proof. destruct x, y, z; simpl; rewrite ?app_assoc; reflexivity. Qed.

Lemma opt_app_None_r (x : option (list ParsedLog)) : opt_app x None = x.
Proof. destruct x; reflexivity. Qed.

Lemma fold_merge_lookup (Ms : list Matches) (acc : Matches) (k : ptr) :
  fold_left merge_into Ms acc !! k =
  opt_app (acc !! k) (opt_flat (map (fun m => m !! k) Ms)).
Proof.
  revert acc. induction Ms as [|m Ms IH]; intros acc; simpl.
  - rewrite opt_app_None_r. reflexivity.
  - rewrite IH, lookup_merge_into, opt_app_assoc. reflexivity.
Qed.

Lemma AggregateResults_lookup (Ms : list Matches) (A : Matches) (k : ptr) :
  AggregateResults Ms = Ok A -> A !! k = opt_flat (map (fun m => m !! k) Ms).
Proof.
  destruct Ms as [|M Ms]; simpl; [discriminate|].
  intros [= <-]. rewrite fold_merge_lookup. reflexivity.
Qed.

Lemma opt_perm_refl (x : option (list ParsedLog)) : opt_perm x x.
Proof. destruct x; simpl; auto. Qed.

Lemma opt_perm_trans (x y z : option (list ParsedLog)) :
  opt_perm x y -> opt_perm y z -> opt_perm x z.
Proof.
  destruct x, y, z; simpl; try tauto. apply Permutation_trans.
Qed.

Lemma opt_app_perm_r (o x y : option (list ParsedLog)) :
  opt_perm x y -> opt_perm (opt_app o x) (opt_app o y).
Proof.
  intros H. destruct o, x, y; simpl in *; try tauto.
  - apply Permutation_app_head. exact H.
  - reflexivity.
Qed.

Lemma opt_app_swap (x y z : option (list ParsedLog)) :
  opt_perm (opt_app x (opt_app y z)) (opt_app y (opt_app x z)).
Proof.
  destruct x, y, z; simpl; auto.
  - rewrite !app_assoc. apply Permutation_app_tail, Permutation_app_comm.
  - apply Permutation_app_comm.
Qed.

Lemma opt_flat_perm (os os' : list (option (list ParsedLog))) :
  Permutation os os' -> opt_perm (opt_flat os) (opt_flat os').
Proof.
  induction 1 as [|o os os' _ IH|o o' os|os os' os'' _ IH1 _ IH2]; simpl.
  - exact I.
  - apply opt_app_perm_r. exact IH.
  - apply opt_app_swap.
  - eapply opt_perm_trans; eassumption.
Qed.

Definition S1_record_b : ParsedLog :=
  mkParsedLog (bs "queueset/queueset.go") 488 0 (bs "Other Tex").

(** C8, as stated (counterexample): aggregating two tables that both hit
    call-site 0 in the two orders gives different buckets, [[r1; r2]]
    against [[r2; r1]]. *)
Lemma AggregateResults_order_matters :
  ~ (forall Ms Ms' : list Matches,
       Permutation Ms Ms' -> AggregateResults Ms = AggregateResults Ms').
Proof.
  intros H.
  pose (M1 := <[0%nat := [S1_record]]> ∅ : Matches).
  pose (M2 := <[0%nat := [S1_record_b]]> ∅ : Matches).
  specialize (H [M1; M2] [M2; M1] (perm_swap _ _ [])).
  apply (f_equal (fun o => match o with Ok A => A !! 0%nat | _ => None end)) in H.
  vm_compute in H. congruence.
Qed.

(** C8, amended: regrouping three tables gives the very same aggregate;
    reordering tables gives the same set of call-sites and, for each, the
    same records in a possibly different order. *)
Theorem AggregateResults_assoc_comm_perm :
  (forall M1 M2 M3 : Matches,
     (A ← AggregateResults [M1; M2]; AggregateResults [A; M3]) =
     (B ← AggregateResults [M2; M3]; AggregateResults [M1; B]) /\
     (A ← AggregateResults [M1; M2]; AggregateResults [A; M3]) =
     AggregateResults [M1; M2; M3]) /\
  (forall (Ms Ms' : list Matches) (A A' : Matches),
     Permutation Ms Ms' ->
     AggregateResults Ms = Ok A -> AggregateResults Ms' = Ok A' ->
     dom A = dom A' /\ forall k, opt_perm (A !! k) (A' !! k)).
Proof.
  split.
  - intros M1 M2 M3. simpl.
    assert (E : merge_into (merge_into M1 M2) M3 = merge_into M1 (merge_into M2 M3)).
    { apply map_eq; intros k. rewrite !lookup_merge_into. symmetry. apply opt_app_assoc. }
    split; [exact (f_equal Ok E)|reflexivity].
  - intros Ms Ms' A A' Hp HA HA'.
    assert (Hk : forall k, opt_perm (A !! k) (A' !! k)).
    { intros k. rewrite (AggregateResults_lookup Ms A k HA),
                        (AggregateResults_lookup Ms' A' k HA').
      apply opt_flat_perm, Permutation_map, Hp. }
    split; [|exact Hk].
    apply set_eq; intros k. rewrite !elem_of_dom.
    specialize (Hk k). destruct (A !! k), (A' !! k); simpl in Hk;
      split; intros [? Hx]; first [discriminate | contradiction | (eexists; reflexivity)].
Qed.

Lemma AggregateResults_assoc_comm_perm_witness :
  let M1 := <[0%nat := [S1_record]]> ∅ : Matches in
  let M2 := <[0%nat := [S1_record_b]]> (<[1%nat := [S1_record]]> ∅) : Matches in
  Permutation [M1; M2] [M2; M1] /\
  AggregateResults [M1; M2] = Ok (merge_into M1 M2) /\
  AggregateResults [M2; M1] = Ok (merge_into M2 M1) /\
  dom (merge_into M1 M2) = dom (merge_into M2 M1) /\
  forall k, opt_perm (merge_into M1 M2 !! k) (merge_into M2 M1 !! k).
Proof.
  intros M1 M2.
  assert (Hp : Permutation [M1; M2] [M2; M1]) by apply perm_swap.
  assert (H1 : AggregateResults [M1; M2] = Ok (merge_into M1 M2)) by reflexivity.
  assert (H2 : AggregateResults [M2; M1] = Ok (merge_into M2 M1)) by reflexivity.
  split; [exact Hp|]. split; [exact H1|]. split; [exact H2|].
  exact (proj2 AggregateResults_assoc_comm_perm _ _ _ _ Hp H1 H2).
Defined.

(** ** Match and its counters *)

Lemma add64_small (a b : Z) : - 2 ^ 63 <= a + b < 2 ^ 63 -> add64 a b = a + b.
Proof.
  intros H. unfold add64, wrap64. rewrite Z.mod_small; lia.
Qed.

Lemma wrap64_small (z : Z) : - 2 ^ 63 <= z < 2 ^ 63 -> wrap64 z = z.
Proof.
  intros H. unfold wrap64. rewrite Z.mod_small; lia.
Qed.

Lemma wrap64_range (z : Z) : - 2 ^ 63 <= wrap64 z < 2 ^ 63.
Proof.
  unfold wrap64. pose proof (Z.mod_pos_bound (z + 2 ^ 63) (2 ^ 64)). lia.
Qed.

Lemma wrap64_add_wrap (a b : Z) : wrap64 (wrap64 a + b) = wrap64 (a + b).
Proof.
  unfold wrap64. f_equal.
  replace ((a + 2 ^ 63) mod 2 ^ 64 - 2 ^ 63 + b + 2 ^ 63)
    with ((a + 2 ^ 63) mod 2 ^ 64 + b) by ring.
  rewrite Z.add_mod_idemp_l by lia. f_equal. ring.
Qed.

Section MatchProofs.
Variable sha1 : list byte -> list byte.
Variable GetBytes : list byte -> list byte -> option (list byte).
Variable sm : SearchMap.

(** While the totals stay below [2^63], no [Add] wraps. *)
Lemma matcher_loop_total (ps : list ParsedLog) (hit : Matches) (c : Counters) :
  0 <= numMatched c -> 0 <= numNotMatched c ->
  numMatched c + numNotMatched c + len ps < 2 ^ 63 ->
  let c' := snd (matcher_loop sha1 sm ps hit c) in
  numMatched c' + numNotMatched c' = numMatched c + numNotMatched c + len ps /\
  0 <= numMatched c' /\ 0 <= numNotMatched c'.
Proof.
  revert hit c. induction ps as [|p ps IH]; intros hit c H1 H2 H3; simpl.
  - unfold len; simpl. lia.
  - unfold len in *. rewrite length_cons, Nat2Z.inj_succ in H3.
    destruct (sm !! ParsedLog_Fingerprint sha1 p).
    + rewrite add64_small by lia.
      match goal with |- context [matcher_loop sha1 sm ps ?h ?c2] =>
        destruct (IH h c2) as [Ha [Hb Hc]] end; simpl in *; lia.
    + rewrite add64_small by lia.
      match goal with |- context [matcher_loop sha1 sm ps ?h ?c2] =>
        destruct (IH h c2) as [Ha [Hb Hc]] end; simpl in *; lia.
Qed.

Lemma run_matchers_total (parts : list (list ParsedLog)) (c : Counters) :
  0 <= numMatched c -> 0 <= numNotMatched c ->
  numMatched c + numNotMatched c + len (concat parts) < 2 ^ 63 ->
  let c' := snd (run_matchers sha1 sm parts c) in
  numMatched c' + numNotMatched c' = numMatched c + numNotMatched c + len (concat parts) /\
  0 <= numMatched c' /\ 0 <= numNotMatched c'.
Proof.
  revert c. induction parts as [|part parts IH]; intros c H1 H2 H3; simpl.
  - unfold len; simpl. lia.
  - unfold matcher. unfold len in H3. cbn [concat] in H3.
    rewrite length_app, Nat2Z.inj_add in H3.
    assert (Hm : numMatched c + numNotMatched c + len part < 2 ^ 63)
      by (unfold len; lia).
    pose proof (matcher_loop_total part ∅ c H1 H2 Hm) as [Hm1 [Hm2 Hm3]].
    simpl in Hm1, Hm2, Hm3.
    destruct (matcher_loop sha1 sm part ∅ c) as [h c1] eqn:E1. simpl in Hm1, Hm2, Hm3.
    destruct (IH c1 Hm2 Hm3) as [Hr1 [Hr2 Hr3]]; [unfold len in *; lia|].
    destruct (run_matchers sha1 sm parts c1) as [hs c2] eqn:E2. simpl in *.
    unfold len in *. rewrite length_app, Nat2Z.inj_add. lia.
Qed.

End MatchProofs.

Lemma schedule_length (scheds : list (list (list ParsedLog)))
    (groups : list (list ParsedLog)) (P : nat -> list (list ParsedLog) -> Prop) :
  length scheds = length groups ->
  (forall g sched grp, scheds !! g = Some sched -> groups !! g = Some grp ->
     Permutation (concat sched) grp /\ P g sched) ->
  length (concat (concat scheds)) = length (concat groups).
Proof.
  revert groups P. induction scheds as [|s ss IH]; intros [|grp gs] P Hlen Hperm;
    simpl in *; try discriminate; try reflexivity.
  rewrite concat_app, !length_app.
  destruct (Hperm 0%nat s grp eq_refl eq_refl) as [Hp _].
  rewrite (Permutation_length Hp).
  f_equal. apply (IH gs (fun g => P (S g))); [lia|].
  intros g sched grp' Hs Hg. exact (Hperm (S g) sched grp' Hs Hg).
Qed.

(** C2, amended: every completed Match run adds exactly the number of
    records the parser accepted to the process-wide counters and reports
    the counters' new values, as long as the totals stay below [2^63]
    (beyond, the [atomic.Int64] counters wrap); so the reported total
    equals the accepted count when the counters start at zero (the first
    run of a process), and is cumulative over the runs of the process
    otherwise. *)
Theorem Match_counts_accumulate (sha1 : list byte -> list byte)
    (GetBytes : list byte -> list byte -> option (list byte))
    (sm : SearchMap) (archive : list byte) (numCPU : nat) (jsonField : list byte)
    (c : Counters) (res : MatchResults) (c' : Counters) (recs : list ParsedLog) :
  Match_run sha1 GetBytes sm archive numCPU jsonField c (Ok res) c' ->
  accepted_records GetBytes archive (numCPU / 4) jsonField = Ok recs ->
  0 <= numMatched c -> 0 <= numNotMatched c ->
  numMatched c + numNotMatched c + len recs < 2 ^ 63 ->
  NumMatched res = numMatched c' /\ NumNotMatched res = numNotMatched c' /\
  NumMatched res + NumNotMatched res = numMatched c + numNotMatched c + len recs /\
  (c = zeroCounters -> NumMatched res + NumNotMatched res = len recs).
Proof.
  intros Hrun Hrecs H1 H2 H3.
  inversion Hrun as [| | |c0 groups scheds hits matched c1
                     HG Hgroups Hlen Hperm Hm Hmatched]; subst.
  unfold accepted_records in Hrecs. rewrite Hgroups in Hrecs. simpl in Hrecs.
  injection Hrecs as <-.
  assert (Hl : len (concat (concat scheds)) = len (concat groups)).
  { unfold len. f_equal. exact (schedule_length scheds groups _ Hlen Hperm). }
  rewrite <- Hl in H3.
  pose proof (run_matchers_total sha1 sm (concat scheds) c H1 H2 H3) as [Htot _].
  rewrite Hm in Htot. simpl in Htot. simpl.
  rewrite Hl in Htot.
  split; [reflexivity|]. split; [reflexivity|]. split; [exact Htot|].
  intros ->. simpl in Htot. lia.
Qed.

(** A concrete archive of one record, [SampleLine] with its newline, and
    a search map that knows its call-site, with the identity as digest. *)
Definition sample_sm : SearchMap :=
  <[ParsedLog_Fingerprint (fun d => d) S1_record := 0%nat]> ∅.

Definition sample_archive : list byte := SampleLine ++ [nl].

Definition no_json (data field : list byte) : option (list byte) := None.

(** On 4 CPUs there is one channel group with 4 matchers; the first
    receives the record. *)
Definition sample_scheds : list (list (list ParsedLog)) :=
  [[[S1_record]; []; []; []]].

Definition sample_result (c : Counters) : MatchResults :=
  let '(hits, c') := run_matchers (fun d => d) sample_sm (concat sample_scheds) c in
  mkMatchResults hits (numMatched c') (numNotMatched c').

Lemma sample_Match_run (c : Counters) :
  Match_run (fun d => d) no_json sample_sm sample_archive 4%nat [] c
    (Ok (sample_result c))
    (snd (run_matchers (fun d => d) sample_sm (concat sample_scheds) c)).
Proof.
  unfold sample_result.
  destruct (run_matchers (fun d => d) sample_sm (concat sample_scheds) c)
    as [hits c'] eqn:E.
  simpl. eapply (Match_done _ _ _ _ _ _ c [[S1_record]] sample_scheds hits hits c').
  - vm_compute. discriminate.
  - vm_compute. reflexivity.
  - reflexivity.
  - intros [|[|g]] sched grp Hs Hg; simpl in Hs, Hg; try discriminate.
    injection Hs as <-. injection Hg as <-. split; [apply Permutation_refl|].
    vm_compute. reflexivity.
  - exact E.
  - apply Permutation_refl.
Qed.

Lemma sample_accepted :
  accepted_records no_json sample_archive (4 / 4) [] = Ok [S1_record].
Proof. vm_compute. reflexivity. Qed.

(** C2, as stated (counterexample): the counters are process-wide and
    never reset.  A second Match over the one-record archive in the same
    process reports NumMatched + NumNotMatched = 2, while the parser
    accepted 1 record. *)
Lemma Match_counts_not_per_invocation :
  ~ (forall (sha1 : list byte -> list byte)
            (GetBytes : list byte -> list byte -> option (list byte))
            (c : Counters) (sm : SearchMap) (archive : list byte) (numCPU : nat)
            (jsonField : list byte) (res : MatchResults) (c' : Counters)
            (recs : list ParsedLog),
       process_counters sha1 GetBytes c ->
       Match_run sha1 GetBytes sm archive numCPU jsonField c (Ok res) c' ->
       accepted_records GetBytes archive (numCPU / 4) jsonField = Ok recs ->
       NumMatched res + NumNotMatched res = len recs).
Proof.
  intros H.
  set (c1 := snd (run_matchers (fun d => d) sample_sm (concat sample_scheds)
                    zeroCounters)).
  assert (Hp : process_counters (fun d => d) no_json c1).
  { eapply process_after_match; [apply process_start | apply sample_Match_run]. }
  pose proof (H (fun d => d) no_json c1 sample_sm sample_archive 4%nat [] _ _
                [S1_record] Hp (sample_Match_run c1) sample_accepted) as Hc.
  vm_compute in Hc. discriminate.
Qed.

(** Witness of C2's amended theorem: the first run of a process over the
    one-record archive reports a total of 1. *)
Lemma Match_counts_accumulate_witness :
  Match_run (fun d => d) no_json sample_sm sample_archive 4%nat [] zeroCounters
    (Ok (sample_result zeroCounters))
    (snd (run_matchers (fun d => d) sample_sm (concat sample_scheds) zeroCounters)) /\
  accepted_records no_json sample_archive (4 / 4) [] = Ok [S1_record] /\
  0 <= numMatched zeroCounters /\ 0 <= numNotMatched zeroCounters /\
  numMatched zeroCounters + numNotMatched zeroCounters + len [S1_record] < 2 ^ 63 /\
  NumMatched (sample_result zeroCounters) + NumNotMatched (sample_result zeroCounters)
    = len [S1_record].
Proof.
  split; [apply sample_Match_run|]. split; [apply sample_accepted|].
  assert (H1 : 0 <= numMatched zeroCounters) by (simpl; lia).
  assert (H2 : 0 <= numNotMatched zeroCounters) by (simpl; lia).
  assert (H3 : numMatched zeroCounters + numNotMatched zeroCounters + len [S1_record]
               < 2 ^ 63) by (vm_compute; reflexivity).
  split; [exact H1|]. split; [exact H2|]. split; [exact H3|].
  apply (Match_counts_accumulate _ _ _ _ _ _ _ _ _ _
           (sample_Match_run zeroCounters) sample_accepted H1 H2 H3).
  reflexivity.
Defined.

(** ** The chunker *)

(** [buf[a:b]] on naturals. *)
Definition sub (a b : nat) (l : list byte) : list byte := firstn (b - a) (skipn a l).

Lemma nth_error_skipn_cons (l : list byte) (p : nat) (c : byte) :
  nth_error l p = Some c -> skipn p l = c :: skipn (S p) l.
Proof.
  revert p. induction l as [|x l IH]; intros [|p] H; simpl in *; try discriminate.
  - injection H as ->. reflexivity.
  - apply IH. exact H.
Qed.

Lemma firstn_snoc_nth (m : list byte) (i : nat) (x : byte) :
  nth_error m i = Some x -> firstn (S i) m = firstn i m ++ [x].
Proof.
  revert i. induction m as [|y m IH]; intros [|i] H; simpl in *; try discriminate.
  - injection H as ->. reflexivity.
  - f_equal. apply IH. exact H.
Qed.

Lemma firstn_add_skipn (m : list byte) (i j : nat) :
  firstn i m ++ firstn j (skipn i m) = firstn (i + j) m.
Proof.
  revert m. induction i as [|i IH]; intros [|y m]; simpl; try reflexivity.
  - destruct j; reflexivity.
  - f_equal. apply IH.
Qed.

Lemma sub_snoc (l : list byte) (a b : nat) (x : byte) :
  (a <= b)%nat -> nth_error l b = Some x -> sub a (S b) l = sub a b l ++ [x].
Proof.
  intros Hab Hb. unfold sub.
  replace (S b - a)%nat with (S (b - a)) by lia.
  apply firstn_snoc_nth. rewrite nth_error_skipn.
  replace (a + (b - a))%nat with b by lia. exact Hb.
Qed.

Lemma sub_app (l : list byte) (a b c : nat) :
  (a <= b <= c)%nat -> sub a b l ++ sub b c l = sub a c l.
Proof.
  intros H. unfold sub.
  replace (skipn b l) with (skipn (b - a) (skipn a l))
    by (rewrite skipn_skipn; f_equal; lia).
  rewrite firstn_add_skipn. f_equal. lia.
Qed.

Lemma nl_dist_le (l : list byte) : (nl_dist l <= length l)%nat.
Proof. induction l as [|c l IH]; simpl; [lia|]. destruct (beq c nl); simpl; lia. Qed.

Lemma nl_dist_hit (l : list byte) :
  (nl_dist l < length l)%nat -> nth_error l (nl_dist l) = Some nl.
Proof.
  induction l as [|c l IH]; simpl; [lia|].
  destruct (beq c nl) eqn:E; simpl.
  - intros _. unfold beq in E. apply Byte.byte_dec_bl in E. subst. reflexivity.
  - intros H. apply IH. lia.
Qed.

Lemma nl_dist_first (l : list byte) (i : nat) :
  nth_error l i = Some nl -> (nl_dist l <= i)%nat.
Proof.
  revert i. induction l as [|c l IH]; intros [|i] H; simpl in *; try discriminate.
  - injection H as ->. reflexivity.
  - destruct (beq c nl); [lia|]. specialize (IH i H). lia.
Qed.

Lemma seek_loop_spec (buf : list byte) (fuel p : nat) :
  (p <= length buf)%nat -> (length buf - p < fuel)%nat ->
  seek_loop fuel buf (Z.of_nat p) = Ok (Z.of_nat (p + nl_dist (skipn p buf))).
Proof.
  revert p. induction fuel as [|fuel IH]; intros p Hp Hf; [lia|].
  simpl. unfold len.
  destruct (Z.of_nat p <=? Z.of_nat (length buf) - 1) eqn:E.
  - apply Z.leb_le in E.
    destruct (nth_error buf p) as [c|] eqn:Hc;
      [|apply nth_error_None in Hc; lia].
    unfold at_, len. rewrite Nat2Z.id, Hc.
    replace ((0 <=? Z.of_nat p) && (Z.of_nat p <? Z.of_nat (length buf)))
      with true by (symmetry; apply andb_true_iff; split; [apply Z.leb_le|apply Z.ltb_lt]; lia).
    simpl. rewrite (nth_error_skipn_cons buf p c Hc). simpl.
    destruct (beq c nl) eqn:Ec; simpl.
    + f_equal. f_equal. lia.
    + replace (Z.of_nat p + 1) with (Z.of_nat (S p)) by lia.
      rewrite IH by lia. f_equal. f_equal. lia.
  - apply Z.leb_gt in E. replace p with (length buf) by lia.
    rewrite skipn_all. simpl. f_equal. f_equal. lia.
Qed.

Section ChunkSteps.
Variable buf : list byte.
Variable cs : nat.
Hypothesis buf_nonempty : (1 <= length buf)%nat.

(** One iteration of the loop in [ReadLines], on naturals: where
    [seekPos] ends when it starts at [p]. *)
Definition step (p : nat) : nat :=
  let s := Nat.min (p + cs) (length buf - 1) in
  let q := (s + nl_dist (skipn s buf))%nat in
  if (q <? length buf - 1)%nat then S q else q.

Fixpoint pos (k p : nat) : nat :=
  match k with
  | O => p
  | S k' => pos k' (step p)
  end.

Fixpoint chunks_nat (k p : nat) : list (list byte) :=
  match k with
  | O => []
  | S k' => sub p (step p) buf :: chunks_nat k' (step p)
  end.

(** The positions the loop can start an iteration from. *)
Definition Inv (p : nat) : Prop :=
  (p <= length buf)%nat /\ (p = length buf -> nth_error buf (length buf - 1) <> Some nl).

(** The positions from which the loop makes no progress. *)
Definition Term (p : nat) : Prop :=
  p = length buf \/ (p = (length buf - 1)%nat /\ nth_error buf (length buf - 1) = Some nl).

Lemma seek_fact (s : nat) :
  (s <= length buf - 1)%nat ->
  let q := (s + nl_dist (skipn s buf))%nat in
  (s <= q <= length buf)%nat /\
  ((q < length buf)%nat -> nth_error buf q = Some nl) /\
  (q = length buf -> nth_error buf (length buf - 1) <> Some nl).
Proof.
  intros Hs q. pose proof (nl_dist_le (skipn s buf)) as Hle.
  rewrite length_skipn in Hle.
  split; [unfold q; lia|]. split.
  - intros Hq. unfold q. rewrite <- (nth_error_skipn s buf). apply nl_dist_hit.
    rewrite length_skipn. unfold q in Hq. lia.
  - intros Hq Hnl. assert (Hd : nth_error (skipn s buf) (length buf - 1 - s) = Some nl).
    { rewrite nth_error_skipn. replace (s + (length buf - 1 - s))%nat with
        (length buf - 1)%nat by lia. exact Hnl. }
    apply nl_dist_first in Hd. unfold q in Hq. lia.
Qed.

Lemma step_Inv (p : nat) : Inv p -> (p <= step p)%nat /\ Inv (step p).
Proof.
  intros [Hp Hpn]. unfold step.
  set (s := Nat.min (p + cs) (length buf - 1)).
  assert (Hs : (s <= length buf - 1)%nat) by (unfold s; lia).
  destruct (seek_fact s Hs) as [Hq [Hlt Heq]].
  set (q := (s + nl_dist (skipn s buf))%nat) in *.
  destruct (q <? length buf - 1)%nat eqn:E.
  - apply Nat.ltb_lt in E. unfold Inv. split; [|lia].
    destruct (Nat.eq_dec p (length buf)) as [->|Hne]; [unfold s in *; lia|].
    unfold s in *; lia.
  - apply Nat.ltb_ge in E. split; [|split; [lia|exact Heq]].
    destruct (Nat.eq_dec p (length buf)) as [Hpe|Hne]; [|unfold s in *; lia].
    destruct (Nat.eq_dec q (length buf)); [lia|].
    exfalso. apply (Hpn Hpe). replace (length buf - 1)%nat with q by lia.
    apply Hlt. lia.
Qed.

Lemma step_Term (p : nat) : Inv p -> Term p -> step p = p.
Proof.
  intros [Hp Hpn] HT. unfold step.
  set (s := Nat.min (p + cs) (length buf - 1)).
  assert (Hs : (s <= length buf - 1)%nat) by (unfold s; lia).
  destruct (seek_fact s Hs) as [Hq [Hlt Heq]].
  set (q := (s + nl_dist (skipn s buf))%nat) in *.
  destruct HT as [Hpe|[Hpe Hnl]].
  - assert (q = length buf).
    { destruct (Nat.eq_dec q (length buf)) as [|Hne]; [assumption|].
      exfalso. apply (Hpn Hpe). assert (Hs' : s = (length buf - 1)%nat) by (unfold s; lia).
      replace (length buf - 1)%nat with q by lia. apply Hlt. lia. }
    destruct (q <? length buf - 1)%nat eqn:E; [apply Nat.ltb_lt in E; lia|lia].
  - assert (Hs' : s = (length buf - 1)%nat) by (unfold s; lia).
    assert (Hd : nth_error (skipn s buf) 0 = Some nl)
      by (rewrite nth_error_skipn, Hs', Nat.add_0_r; exact Hnl).
    apply nl_dist_first in Hd.
    assert (q = s) by (unfold q; lia).
    destruct (q <? length buf - 1)%nat eqn:E; [apply Nat.ltb_lt in E; lia|lia].
Qed.

Lemma step_progress (p : nat) : Inv p ->
  Term (step p) \/
  exists q, step p = S q /\ (p + cs <= q)%nat /\ nth_error buf q = Some nl.
Proof.
  intros [Hp Hpn]. unfold step.
  set (s := Nat.min (p + cs) (length buf - 1)).
  assert (Hs : (s <= length buf - 1)%nat) by (unfold s; lia).
  destruct (seek_fact s Hs) as [Hq [Hlt Heq]].
  set (q := (s + nl_dist (skipn s buf))%nat) in *.
  destruct (q <? length buf - 1)%nat eqn:E.
  - apply Nat.ltb_lt in E. right. exists q. split; [reflexivity|].
    split; [unfold s in *; lia|]. apply Hlt. lia.
  - apply Nat.ltb_ge in E. left. unfold Term.
    destruct (Nat.eq_dec q (length buf)); [left; assumption|].
    right. split; [lia|]. replace (length buf - 1)%nat with q by lia. apply Hlt. lia.
Qed.

Lemma pos_Inv (k p : nat) : Inv p -> (p <= pos k p)%nat /\ Inv (pos k p).
Proof.
  revert p. induction k as [|k IH]; intros p Hp; simpl; [split; [lia|exact Hp]|].
  destruct (step_Inv p Hp) as [H1 H2]. destruct (IH _ H2) as [H3 H4]. split; [lia|exact H4].
Qed.

Lemma pos_Term (k p : nat) : Inv p -> Term p -> pos k p = p.
Proof.
  revert p. induction k as [|k IH]; intros p Hp HT; simpl; [reflexivity|].
  rewrite (step_Term p Hp HT). apply IH; assumption.
Qed.

Lemma pos_progress (k p : nat) : Inv p ->
  Term (pos k p) \/ (p + k * (cs + 1) <= pos k p)%nat.
Proof.
  revert p. induction k as [|k IH]; intros p Hp; simpl; [right; lia|].
  destruct (step_Inv p Hp) as [_ Hs].
  destruct (step_progress p Hp) as [HT|[q [Hq [Hle _]]]].
  - left. rewrite (pos_Term k _ Hs HT). exact HT.
  - destruct (IH _ Hs) as [HT|Hge]; [left; exact HT|right; lia].
Qed.

Lemma chunks_nat_length (k p : nat) : length (chunks_nat k p) = k.
Proof. revert p. induction k; intros p; simpl; [reflexivity|]. f_equal. apply IHk. Qed.

Lemma chunks_nat_concat (k p : nat) : Inv p ->
  concat (chunks_nat k p) = sub p (pos k p) buf.
Proof.
  revert p. induction k as [|k IH]; intros p Hp; simpl.
  - unfold sub. rewrite Nat.sub_diag. reflexivity.
  - destruct (step_Inv p Hp) as [H1 H2]. rewrite (IH _ H2).
    apply sub_app. pose proof (pos_Inv k _ H2) as [H3 _]. lia.
Qed.

Lemma chunks_nat_adjacent (k p : nat) (pre : list (list byte))
    (c1 c2 : list byte) (post : list (list byte)) :
  Inv p -> chunks_nat k p = pre ++ c1 :: c2 :: post -> c2 <> [] ->
  c1 <> [] /\ exists c, c1 = c ++ [nl].
Proof.
  revert k p. induction pre as [|x pre IH]; intros k p Hp Hk Hc2.
  - destruct k as [|[|k]]; simpl in Hk; try discriminate.
    injection Hk as <- <- _.
    destruct (step_Inv p Hp) as [_ Hs].
    destruct (step_progress p Hp) as [HT|[q [Hq [Hle Hnl]]]].
    + exfalso. apply Hc2. rewrite (step_Term _ Hs HT). unfold sub.
      rewrite Nat.sub_diag. reflexivity.
    + rewrite Hq, (sub_snoc buf p q nl ltac:(lia) Hnl).
      split; [intros He; apply app_eq_nil in He as [_ He]; discriminate|].
      eexists. reflexivity.
  - destruct k as [|k]; simpl in Hk; try discriminate.
    injection Hk as _ Hk. destruct (step_Inv p Hp) as [_ Hs].
    exact (IH k (step p) Hs Hk Hc2).
Qed.

Lemma chunk_loop_eq (k p : nat) : Inv p ->
  chunk_loop k buf (Z.of_nat cs) (Z.of_nat p) = Ok (chunks_nat k p).
Proof.
  revert p. induction k as [|k IH]; intros p Hp; [reflexivity|].
  destruct (step_Inv p Hp) as [Hle Hs].
  pose proof Hp as [Hpn Hpl].
  set (s := Nat.min (p + cs) (length buf - 1)).
  assert (Hsb : (s <= length buf - 1)%nat) by (unfold s; lia).
  assert (Hc1 : (if len buf - 1 <? Z.of_nat p + Z.of_nat cs then len buf - 1
                 else Z.of_nat p + Z.of_nat cs) = Z.of_nat s).
  { unfold len, s. destruct (_ <? _) eqn:E;
      [apply Z.ltb_lt in E|apply Z.ltb_ge in E]; lia. }
  assert (Hseek : seek_loop (S (length buf)) buf (Z.of_nat s) =
                  Ok (Z.of_nat (s + nl_dist (skipn s buf)))).
  { apply seek_loop_spec; lia. }
  assert (Hc2 : (if Z.of_nat (s + nl_dist (skipn s buf)) <? len buf - 1
                 then Z.of_nat (s + nl_dist (skipn s buf)) + 1
                 else Z.of_nat (s + nl_dist (skipn s buf))) = Z.of_nat (step p)).
  { unfold step. fold s. unfold len.
    destruct (s + nl_dist (skipn s buf) <? length buf - 1)%nat eqn:E.
    - apply Nat.ltb_lt in E.
      replace (Z.of_nat (s + nl_dist (skipn s buf)) <? Z.of_nat (length buf) - 1)
        with true by (symmetry; apply Z.ltb_lt; lia). lia.
    - apply Nat.ltb_ge in E.
      replace (Z.of_nat (s + nl_dist (skipn s buf)) <? Z.of_nat (length buf) - 1)
        with false by (symmetry; apply Z.ltb_ge; lia). reflexivity. }
  assert (Hsl : slice buf (Z.of_nat p) (Z.of_nat (step p)) = Ok (sub p (step p) buf)).
  { unfold slice, len, sub. destruct Hs as [Hs1 _].
    replace ((0 <=? Z.of_nat p) && (Z.of_nat p <=? Z.of_nat (step p)) &&
             (Z.of_nat (step p) <=? Z.of_nat (length buf))) with true
      by (symmetry; rewrite !andb_true_iff; rewrite !Z.leb_le; lia).
    rewrite Nat2Z.id. f_equal. f_equal. lia. }
  cbn [chunk_loop]. rewrite Hc1, Hseek. cbn [mbind outcome_bind].
  rewrite Hc2, Hsl. cbn [mbind outcome_bind]. rewrite (IH _ Hs). reflexivity.
Qed.

End ChunkSteps.

(** When the data runs out before the G-th chunk, the last non-empty
    chunk need not end with a newline: the two-byte file "ab" with G = 2
    is cut into ["ab"; ""]. *)
Lemma read_chunks_not_all_newline_terminated :
  ~ (forall (file : list byte) (G : nat), file <> [] -> (1 <= G)%nat ->
       exists chunks, read_chunks file G = Ok chunks /\ concat chunks = file /\
         forall pre c post, chunks = pre ++ c :: post -> post <> [] ->
           exists c', c = c' ++ [nl]).
Proof.
  intros H.
  destruct (H (bs "ab") 2%nat ltac:(discriminate) ltac:(lia))
    as [chunks [Hr [_ Hnl]]].
  vm_compute in Hr. injection Hr as <-.
  destruct (Hnl [] (bs "ab") [[]] eq_refl ltac:(discriminate)) as [c' Hc].
  destruct c' as [|x [|y [|z c']]]; simpl in Hc; discriminate.
Qed.

(** The chunks in general: for a non-empty file and G >= 1 the chunker
    returns exactly G chunks; concatenated in order they give the file or
    the file without its final newline; and every chunk that is followed
    by a non-empty chunk is itself non-empty and ends with a newline. *)
Theorem read_chunks_cover (file : list byte) (G : nat) :
  file <> [] -> (1 <= G)%nat ->
  exists chunks, read_chunks file G = Ok chunks /\ length chunks = G /\
    (concat chunks = file \/ concat chunks ++ [nl] = file) /\
    (forall pre c1 c2 post, chunks = pre ++ c1 :: c2 :: post -> c2 <> [] ->
       c1 <> [] /\ exists c, c1 = c ++ [nl]).
Proof.
  intros Hf HG.
  assert (Hn : (1 <= length file)%nat)
    by (destruct file; [contradiction|simpl; lia]).
  set (cs := (length file / G)%nat).
  assert (H0 : Inv file 0) by (unfold Inv; split; lia).
  exists (chunks_nat file cs G 0). split; [|split; [|split]].
  - unfold read_chunks, Mmap, len.
    replace (Z.of_nat (length file) <=? 0) with false by (symmetry; apply Z.leb_gt; lia).
    cbn [mbind outcome_bind].
    replace (G =? 0)%nat with false by (symmetry; apply Nat.eqb_neq; lia).
    rewrite <- Nat2Z.inj_div. fold cs.
    exact (chunk_loop_eq file cs Hn G 0 H0).
  - apply chunks_nat_length.
  - rewrite (chunks_nat_concat file cs Hn G 0 H0).
    assert (Hlt : (length file < G * (cs + 1))%nat).
    { pose proof (Nat.div_mod (length file) G ltac:(lia)).
      pose proof (Nat.mod_upper_bound (length file) G ltac:(lia)).
      unfold cs. nia. }
    pose proof (pos_Inv file cs Hn G 0 H0) as [_ [Hle _]].
    destruct (pos_progress file cs Hn G 0 H0) as [[He|[He Hnl]]|Hge]; [| |lia].
    + left. rewrite He. unfold sub. rewrite Nat.sub_0_r. simpl. apply firstn_all.
    + right. rewrite He, <- (sub_snoc file 0 _ nl ltac:(lia) Hnl).
      replace (S (length file - 1)) with (length file) by lia.
      unfold sub. rewrite Nat.sub_0_r. simpl. apply firstn_all.
  - intros pre c1 c2 post Hc Hc2.
    exact (chunks_nat_adjacent file cs Hn G 0 pre c1 c2 post H0 Hc Hc2).
Qed.

(** C3 (a slip in the code): the final newline of a file that ends with
    one is in no chunk.  The guard [if seekPos < len(buf)-1 { seekPos++ }]
    never moves [seekPos] past the last byte, so the last chunk stops
    before it: for every G >= 1 the G chunks of [file ++ "\n"]
    concatenate to [file], and for G = 1 the one chunk is not the whole
    buffer. *)
Theorem read_chunks_drops_final_newline (file : list byte) (G : nat) :
  (1 <= G)%nat ->
  exists chunks, read_chunks (file ++ [nl]) G = Ok chunks /\ length chunks = G /\
    concat chunks = file.
Proof.
  intros HG.
  set (buf := file ++ [nl]).
  assert (Hlb : length buf = S (length file)) by (unfold buf; rewrite length_app; simpl; lia).
  assert (Hn : (1 <= length buf)%nat) by lia.
  assert (Hlast : nth_error buf (length buf - 1) = Some nl).
  { rewrite Hlb, Nat.sub_1_r. simpl Nat.pred. unfold buf.
    rewrite nth_error_app2 by lia. rewrite Nat.sub_diag. reflexivity. }
  set (cs := (length buf / G)%nat).
  assert (H0 : Inv buf 0) by (unfold Inv; split; lia).
  exists (chunks_nat buf cs G 0). split; [|split].
  - unfold read_chunks, Mmap, len.
    replace (Z.of_nat (length buf) <=? 0) with false by (symmetry; apply Z.leb_gt; lia).
    cbn [mbind outcome_bind].
    replace (G =? 0)%nat with false by (symmetry; apply Nat.eqb_neq; lia).
    rewrite <- Nat2Z.inj_div. fold cs.
    exact (chunk_loop_eq buf cs Hn G 0 H0).
  - apply chunks_nat_length.
  - rewrite (chunks_nat_concat buf cs Hn G 0 H0).
    assert (Hlt : (length buf < G * (cs + 1))%nat).
    { pose proof (Nat.div_mod (length buf) G ltac:(lia)).
      pose proof (Nat.mod_upper_bound (length buf) G ltac:(lia)).
      unfold cs. nia. }
    pose proof (pos_Inv buf cs Hn G 0 H0) as [_ [Hle Hend]].
    destruct (pos_progress buf cs Hn G 0 H0) as [[He|[He _]]|Hge]; [| |lia].
    + exfalso. exact (Hend He Hlast).
    + rewrite He. unfold sub. rewrite Nat.sub_0_r. simpl skipn.
      rewrite Hlb. replace (S (length file) - 1)%nat with (length file) by lia.
      unfold buf. rewrite skipn_O, List.firstn_app, Nat.sub_diag, List.firstn_all. simpl.
      apply app_nil_r.
Qed.

(** ** The path of a parsed line *)

(** The bytes the FILENAME loop steps over. *)
Definition path_or_slash (c : byte) : Prop := is_path_char c = true \/ c = "/"%byte.

Definition path_c (c : byte) : Prop := is_path_char c = true.

Lemma filename_loop_spec (line : list byte) (fuel ni nde nfs : nat) r :
  (30 <= ni)%nat ->
  Forall path_or_slash (sub 30 ni line) ->
  ((nde = 0 /\ nfs = 0)%nat \/
   ((30 <= nde < ni)%nat /\ nfs = S nde /\ nth_error line nde = Some "/"%byte /\
    Forall path_c (sub (S nde) ni line))) ->
  filename_loop fuel line (Z.of_nat ni) (Z.of_nat nde) (Z.of_nat nfs) 0 = Ok r ->
  let '(i', de', fs', fe') := r in
  fe' = 0 \/
  exists nfe, i' = Z.of_nat nfe /\ fe' = Z.of_nat nfe /\
    (nfe < length line - 1)%nat /\ nth_error line nfe = Some ":"%byte /\
    Forall path_or_slash (sub 30 nfe line) /\
    ((de' = 0 /\ fs' = 0) \/
     exists nde', de' = Z.of_nat nde' /\ fs' = de' + 1 /\ (30 <= nde' < nfe)%nat /\
       nth_error line nde' = Some "/"%byte /\ Forall path_c (sub (S nde') nfe line)).
Proof.
  revert ni nde nfs. induction fuel as [|fuel IH]; intros ni nde nfs H30 Hpre Hdir Hr.
  - simpl in Hr. injection Hr as <-. left. reflexivity.
  - simpl in Hr. unfold len in Hr.
    destruct (Z.of_nat ni <? Z.of_nat (length line) - 1) eqn:Elt;
      [|injection Hr as <-; left; reflexivity].
    apply Z.ltb_lt in Elt.
    destruct (nth_error line ni) as [c|] eqn:Hc; [|apply nth_error_None in Hc; lia].
    unfold at_, len in Hr. rewrite Nat2Z.id, Hc in Hr.
    replace ((0 <=? Z.of_nat ni) && (Z.of_nat ni <? Z.of_nat (length line))) with true
      in Hr by (symmetry; apply andb_true_iff; split; [apply Z.leb_le|apply Z.ltb_lt]; lia).
    cbn [mbind outcome_bind] in Hr.
    replace (Z.of_nat ni + 1) with (Z.of_nat (S ni)) in Hr by lia.
    destruct (is_path_char c) eqn:Ep.
    + apply (IH (S ni) nde nfs); [lia| |  |exact Hr].
      * rewrite (sub_snoc line 30 ni c ltac:(lia) Hc). apply Forall_app.
        split; [exact Hpre|]. constructor; [left; exact Ep|constructor].
      * destruct Hdir as [Hd|(Hd1 & Hd2 & Hd3 & Hd4)]; [left; exact Hd|right].
        split; [lia|]. split; [exact Hd2|]. split; [exact Hd3|].
        rewrite (sub_snoc line (S nde) ni c ltac:(lia) Hc). apply Forall_app.
        split; [exact Hd4|]. constructor; [exact Ep|constructor].
    + destruct (beq c "/"%byte) eqn:Es.
      * apply Byte.byte_dec_bl in Es. subst c.
        apply (IH (S ni) ni (S ni)); [lia| | |exact Hr].
        -- rewrite (sub_snoc line 30 ni _ ltac:(lia) Hc). apply Forall_app.
           split; [exact Hpre|]. constructor; [right; reflexivity|constructor].
        -- right. split; [lia|]. split; [reflexivity|]. split; [exact Hc|].
           unfold sub. rewrite Nat.sub_diag. constructor.
      * destruct (beq c ":"%byte) eqn:Ec.
        -- apply Byte.byte_dec_bl in Ec. subst c. injection Hr as <-. right.
           exists ni. split; [reflexivity|]. split; [reflexivity|].
           split; [lia|]. split; [exact Hc|]. split; [exact Hpre|].
           destruct Hdir as [[-> ->]|(Hd1 & -> & Hd3 & Hd4)]; [left; split; reflexivity|].
           right. exists nde. split; [reflexivity|]. split; [lia|].
           split; [lia|]. split; [exact Hd3|exact Hd4].
        -- injection Hr as <-. left. reflexivity.
Qed.

Lemma ParseLine_filename (line : list byte) (p : ParsedLog) :
  ParseLine line = Ok (p, true) ->
  exists i de fs fe, filename_loop (length line) line 30 0 0 0 = Ok (i, de, fs, fe) /\
    ((i =? len line - 1) || (de - 30 <? 1) || negb (fs =? de + 1) || (fe - fs <? 1))
      = false /\
    slice line 30 fe = Ok (pl_SourceFile p).
Proof.
  intros H. unfold ParseLine in H.
  destruct (len line <=? 29) eqn:?; [discriminate H|].
  repeat match type of H with
   | (if ?b then _ else _) = _ => destruct b eqn:?; try discriminate H
   | mbind _ ?m = _ => destruct m eqn:?; cbn in H; try discriminate H
   | (match ?x with _ => _ end) = _ => destruct x eqn:?; try discriminate H
   end.
  injection H as <-. eexists _, _, _, _. split; [reflexivity|]. split; eassumption.
Qed.

Lemma sub_cons (l : list byte) (a b : nat) (x : byte) :
  (a < b)%nat -> nth_error l a = Some x -> sub a b l = x :: sub (S a) b l.
Proof.
  intros Hab Hx. rewrite <- (sub_app l a (S a) b) by lia.
  rewrite (sub_snoc l a a x ltac:(lia) Hx).
  replace (sub a a l) with (@nil byte) by (unfold sub; rewrite Nat.sub_diag; reflexivity).
  reflexivity.
Qed.

Lemma length_sub (l : list byte) (a b : nat) :
  (a <= b <= length l)%nat -> length (sub a b l) = (b - a)%nat.
Proof. intros H. unfold sub. rewrite length_firstn, length_skipn. lia. Qed.

Lemma slice_sub (l : list byte) (a b : nat) :
  (a <= b <= length l)%nat -> slice l (Z.of_nat a) (Z.of_nat b) = Ok (sub a b l).
Proof.
  intros H. unfold slice, len, sub.
  replace ((0 <=? Z.of_nat a) && (Z.of_nat a <=? Z.of_nat b) &&
           (Z.of_nat b <=? Z.of_nat (length l))) with true
    by (symmetry; rewrite !andb_true_iff, !Z.leb_le; lia).
  rewrite Nat2Z.id. f_equal. f_equal. lia.
Qed.

(** C5, amended: a line ParseLine accepts has, from index 30 up to its
    first ':', a non-empty directory part of path characters and '/', then
    a '/' (the last one before the ':'), then a non-empty file name of
    path characters only; the record's SourceFile is that whole path.  The
    directory part may itself contain '/'. *)
Theorem ParseLine_path_shape (line : list byte) (p : ParsedLog) :
  ParseLine line = Ok (p, true) ->
  exists dir file rest,
    skipn 30 line = dir ++ ("/"%byte :: file ++ (":"%byte :: rest)) /\
    dir <> [] /\ file <> [] /\
    Forall (fun c => is_path_char c = true \/ c = "/"%byte) dir /\
    Forall (fun c => is_path_char c = true) file /\
    pl_SourceFile p = dir ++ ("/"%byte :: file).
Proof.
  intros H. destruct (ParseLine_filename line p H) as (i & de & fs & fe & Hfl & Hchk & Hsf).
  assert (H30 : Forall path_or_slash (sub 30 30 line))
    by (unfold sub; rewrite Nat.sub_diag; constructor).
  pose proof (filename_loop_spec line (length line) 30 0 0 _ ltac:(lia) H30
                (or_introl (conj eq_refl eq_refl)) Hfl) as Hspec.
  cbn beta iota in Hspec.
  repeat rewrite orb_false_iff in Hchk.
  destruct Hchk as [[[Hi Hde] Hfs] Hfe].
  apply Z.eqb_neq in Hi. apply Z.ltb_ge in Hde. apply negb_false_iff, Z.eqb_eq in Hfs.
  apply Z.ltb_ge in Hfe.
  destruct Hspec as [->|(nfe & -> & -> & Hlt & Hcolon & Hpre & Hdir)]; [lia|].
  destruct Hdir as [[-> ->]|(nde & -> & -> & Hnde & Hslash & Hfile)]; [lia|].
  assert (Hsub : sub 30 nfe line = sub 30 nde line ++ ("/"%byte :: sub (S nde) nfe line)).
  { rewrite <- (sub_app line 30 nde nfe) by lia. f_equal. apply sub_cons; [lia|exact Hslash]. }
  exists (sub 30 nde line), (sub (S nde) nfe line), (skipn (S nfe) line).
  split; [|split; [|split; [|split; [|split]]]].
  - assert (E : skipn 30 line = sub 30 (S nfe) line ++ skipn (S nfe) line).
    { unfold sub. rewrite <- (firstn_skipn (S nfe - 30) (skipn 30 line)) at 1.
      rewrite skipn_skipn. do 2 f_equal. lia. }
    rewrite E, (sub_snoc line 30 nfe _ ltac:(lia) Hcolon), Hsub.
    rewrite <- !app_assoc. reflexivity.
  - intros He. apply (f_equal (@length byte)) in He.
    rewrite length_sub in He by lia. simpl in He. lia.
  - intros He. apply (f_equal (@length byte)) in He.
    rewrite length_sub in He by lia. simpl in He. lia.
  - rewrite Hsub in Hpre. apply Forall_app in Hpre. exact (proj1 Hpre).
  - exact Hfile.
  - rewrite <- Hsub. replace 30 with (Z.of_nat 30) in Hsf by reflexivity.
    rewrite slice_sub in Hsf by lia. injection Hsf as <-. reflexivity.
Qed.


(** C5, as stated (counterexample): a line whose path portion
    "a/b/c.go" holds two '/' is accepted, with SourceFile "a/b/c.go". *)
Lemma ParseLine_accepts_nested_dirs :
  ~ (forall (line : list byte) (p : ParsedLog) (b : bool),
       (2 <= length (filter (fun c => beq c slash) (path_portion line)))%nat ->
       ParseLine line = Ok (p, b) -> b = false).
Proof.
  intros H.
  assert (Hp : ParseLine (klog_header ++ bs "a/b/c.go:1] msg") =
               Ok (mkParsedLog (bs "a/b/c.go") 1 0 (bs "ms"), true))
    by (vm_compute; reflexivity).
  pose proof (H (klog_header ++ bs "a/b/c.go:1] msg") _ _
                ltac:(vm_compute; lia) Hp). discriminate.
Qed.

(** Witness of C5's amended theorem, on [SampleLine]. *)
Lemma ParseLine_path_shape_witness :
  ParseLine SampleLine = Ok (S1_record, true) /\
  exists dir file rest,
    skipn 30 SampleLine = dir ++ ("/"%byte :: file ++ (":"%byte :: rest)) /\
    dir <> [] /\ file <> [] /\
    Forall (fun c => is_path_char c = true \/ c = "/"%byte) dir /\
    Forall (fun c => is_path_char c = true) file /\
    pl_SourceFile S1_record = dir ++ ("/"%byte :: file).
Proof.
  assert (H : ParseLine SampleLine = Ok (S1_record, true)) by (vm_compute; reflexivity).
  split; [exact H|]. exact (ParseLine_path_shape SampleLine S1_record H).
Defined.


(** ** hex.EncodeToString *)

Lemma hexdigit_byte (b : byte) :
  16 * unhex (hexdigit (b2z b / 16)) + unhex (hexdigit (b2z b mod 16)) = b2z b /\
  is_lower_hex (hexdigit (b2z b / 16)) = true /\
  is_lower_hex (hexdigit (b2z b mod 16)) = true.
Proof. destruct b; vm_compute; repeat split; reflexivity. Qed.

Lemma b2z_inj (a b : byte) : b2z a = b2z b -> a = b.
Proof.
  unfold b2z. intros H. apply N2Z.inj in H. apply (f_equal Byte.of_N) in H.
  rewrite !Byte.of_to_N in H. injection H as H. exact H.
Qed.

(** X1: [hex.EncodeToString] is injective, writes two characters per
    byte and only lowercase hex digits. *)
Theorem EncodeToString_inj_hex (a b : list byte) :
  (EncodeToString a = EncodeToString b <-> a = b) /\
  length (EncodeToString a) = (2 * length a)%nat /\
  Forall (fun c => is_lower_hex c = true) (EncodeToString a).
Proof.
  split; [|split].
  - split; [|intros ->; reflexivity].
    revert b. induction a as [|x a IH]; intros [|y b] H; simpl in H; try discriminate;
      [reflexivity|].
    injection H as H1 H2 H3.
    f_equal; [|apply IH; exact H3].
    apply b2z_inj. destruct (hexdigit_byte x) as [Ex _]. destruct (hexdigit_byte y) as [Ey _].
    rewrite <- Ex, <- Ey, H1, H2. reflexivity.
  - induction a as [|x a IH]; simpl; [reflexivity|]. rewrite IH. lia.
  - induction a as [|x a IH]; simpl; [constructor|].
    destruct (hexdigit_byte x) as (_ & H1 & H2). repeat constructor; assumption.
Qed.


(** ** strconv.Itoa and strconv.Atoi *)

Lemma digit_val_range (c : byte) (d : Z) :
  digit_val c = Some d -> d = b2z c - 48 /\ 0 <= d <= 9.
Proof.
  unfold digit_val, out_of. destruct ((b2z c <? b2z "0") || (b2z "9" <? b2z c)) eqn:E;
    [discriminate|]. intros H. injection H as <-.
  apply orb_false_iff in E as [E1 E2]. apply Z.ltb_ge in E1, E2.
  change (b2z "0"%byte) with 48 in E1. change (b2z "9"%byte) with 57 in E2.
  split; [reflexivity|]. lia.
Qed.

Lemma digit_not_sign (c : byte) (d : Z) :
  digit_val c = Some d -> beq c "-"%byte = false /\ beq c "+"%byte = false.
Proof.
  intros H. apply digit_val_range in H as [H1 H2].
  split; destruct (beq c _) eqn:E; try reflexivity;
    apply Byte.byte_dec_bl in E; subst c; cbv in H1; lia.
Qed.

Lemma digits_value_app (n : Z) (ds : list byte) (c : byte) :
  digits_value n (ds ++ [c]) = digits_value n ds * 10 + (b2z c - 48).
Proof. unfold digits_value. rewrite fold_left_app. reflexivity. Qed.

Lemma digits_value_ge (n : Z) (ds : list byte) :
  0 <= n -> Forall is_digit ds -> n <= digits_value n ds.
Proof.
  revert n. induction ds as [|c ds IH]; intros n Hn Hd; simpl; [lia|].
  inversion Hd as [|? ? [d Hc] Hds]; subst.
  apply digit_val_range in Hc as [-> Hr].
  specialize (IH (n * 10 + (b2z c - 48)) ltac:(lia) Hds). unfold digits_value in *. lia.
Qed.

Lemma atoi_fast_loop_digits (n : Z) (ds : list byte) :
  Forall is_digit ds -> atoi_fast_loop ds n = Some (digits_value n ds).
Proof.
  revert n. induction ds as [|c ds IH]; intros n Hd; simpl; [reflexivity|].
  inversion Hd as [|? ? [d Hc] Hds]; subst. rewrite Hc.
  apply digit_val_range in Hc as [-> _]. apply IH. exact Hds.
Qed.

Lemma parseUint10_loop_digits (n : Z) (ds : list byte) :
  0 <= n -> Forall is_digit ds -> digits_value n ds <= maxUint64 ->
  parseUint10_loop ds n = (digits_value n ds, None).
Proof.
  revert n. induction ds as [|c ds IH]; intros n Hn Hd Hv; simpl; [reflexivity|].
  inversion Hd as [|? ? [d Hc] Hds]; subst. rewrite Hc.
  pose proof (digit_val_range c d Hc) as [Hdv Hr].
  pose proof (digits_value_ge (n * 10 + d) ds ltac:(lia) Hds) as Hge.
  unfold digits_value in Hv, Hge. cbn [fold_left] in Hv. rewrite <- Hdv in Hv.
  replace (maxUint64 / 10 + 1) with 1844674407370955162 by reflexivity.
  replace maxUint64 with 18446744073709551615 in * by reflexivity.
  destruct (1844674407370955162 <=? n) eqn:E1.
  { apply Z.leb_le in E1. exfalso. lia. }
  destruct (18446744073709551615 <? n * 10 + d) eqn:E2.
  { apply Z.ltb_lt in E2. exfalso. lia. }
  unfold digits_value. simpl. rewrite <- Hdv. apply IH; [lia|exact Hds|exact Hv].
Qed.

Lemma digit_byte_ok (k : Z) : 0 <= k < 10 ->
  digit_val (digit_byte k) = Some k /\ b2z (digit_byte k) - 48 = k.
Proof.
  intros H. assert (k = 0 \/ k = 1 \/ k = 2 \/ k = 3 \/ k = 4 \/ k = 5 \/ k = 6 \/
                    k = 7 \/ k = 8 \/ k = 9) by lia.
  repeat destruct H0 as [->|H0]; try (subst k); vm_compute; split; reflexivity.
Qed.

Lemma digits_rev_spec (fuel : nat) (a : Z) :
  (1 <= fuel)%nat -> 0 <= a < 10 ^ Z.of_nat fuel ->
  let ds := rev (digits_rev fuel a) in
  Forall is_digit ds /\ ds <> [] /\ digits_value 0 ds = a.
Proof.
  revert a. induction fuel as [|f IH]; intros a Hf Ha; [lia|].
  cbn zeta. simpl digits_rev.
  replace (match Byte.of_N (Z.to_N (48 + a mod 10)) with Some b => b | None => "0"%byte end)
    with (digit_byte (a mod 10)) by reflexivity.
  pose proof (digit_byte_ok (a mod 10) ltac:(pose proof (Z.mod_pos_bound a 10); lia))
    as [Hd Hv].
  destruct (a <? 10) eqn:E.
  - apply Z.ltb_lt in E. simpl. split; [constructor; [eexists; exact Hd|constructor]|].
    split; [discriminate|]. unfold digits_value. simpl. rewrite Hv.
    rewrite Z.mod_small by lia. lia.
  - apply Z.ltb_ge in E.
    assert (Hf' : (1 <= f)%nat).
    { destruct f; [simpl in Ha; lia|lia]. }
    assert (Ha' : 0 <= a / 10 < 10 ^ Z.of_nat f).
    { rewrite Nat2Z.inj_succ, Z.pow_succ_r in Ha by lia.
      split; [apply Z.div_pos; lia|]. apply Z.div_lt_upper_bound; lia. }
    destruct (IH (a / 10) Hf' Ha') as (H1 & H2 & H3).
    simpl rev. split; [apply Forall_app; split; [exact H1|constructor; [eexists; exact Hd|constructor]]|].
    split; [intros He; apply app_eq_nil in He as [_ He]; discriminate|].
    rewrite digits_value_app, H3, Hv. pose proof (Z.div_mod a 10). lia.
Qed.

Lemma Itoa_digits (a : Z) : 0 <= a ->
  let ds := rev (digits_rev (S (Z.to_nat (Z.log2 (a + 1)))) a) in
  Forall is_digit ds /\ ds <> [] /\ digits_value 0 ds = a.
Proof.
  intros Ha. apply digits_rev_spec; [lia|]. split; [exact Ha|].
  pose proof (Z.log2_spec (a + 1) ltac:(lia)) as [_ Hl].
  pose proof (Z.log2_nonneg (a + 1)).
  rewrite Nat2Z.inj_succ, Z2Nat.id by lia.
  apply Z.lt_le_trans with (2 ^ Z.succ (Z.log2 (a + 1))); [lia|].
  apply Z.pow_le_mono_l. lia.
Qed.

Lemma Atoi_Itoa_int64 (n : Z) :
  - 2 ^ 63 <= n < 2 ^ 63 -> Atoi (Itoa n) = (n, None).
Proof.
  intros Hn. unfold Itoa.
  destruct (Itoa_digits (Z.abs n) (Z.abs_nonneg n)) as (Hd & Hne & Hv).
  set (ds := rev (digits_rev (S (Z.to_nat (Z.log2 (Z.abs n + 1)))) (Z.abs n))) in *.
  destruct ds as [|c rest] eqn:Eds; [contradiction|].
  inversion Hd as [|? ? [d0 Hc] Hrest]; subst.
  destruct (digit_not_sign c d0 Hc) as [Hm Hp].
  assert (Hu : ParseUint10 (c :: rest) = (Z.abs n, None)).
  { unfold ParseUint10. rewrite <- Hv. apply parseUint10_loop_digits; [lia|exact Hd|].
    rewrite Hv. unfold maxUint64. lia. }
  destruct (n <? 0) eqn:En.
  - apply Z.ltb_lt in En. unfold Atoi.
    destruct ((0 <? len ("-"%byte :: c :: rest)) && (len ("-"%byte :: c :: rest) <? 19)).
    + cbn -[atoi_fast_loop]. rewrite (atoi_fast_loop_digits 0 (c :: rest) Hd).
      rewrite Hv. f_equal. lia.
    + unfold ParseInt10. cbn -[ParseUint10 Z.pow]. rewrite Hu.
      replace (2 ^ 63 <? Z.abs n) with false by (symmetry; apply Z.ltb_ge; lia).
      simpl. f_equal. lia.
  - apply Z.ltb_ge in En. unfold Atoi.
    destruct ((0 <? len (c :: rest)) && (len (c :: rest) <? 19)).
    + rewrite Hm, Hp. cbn -[atoi_fast_loop]. rewrite (atoi_fast_loop_digits 0 (c :: rest) Hd).
      rewrite Hv. f_equal. lia.
    + unfold ParseInt10. rewrite Hp, Hm. cbn -[ParseUint10 Z.pow]. rewrite Hu.
      replace (2 ^ 63 <=? Z.abs n) with false by (symmetry; apply Z.leb_gt; lia).
      simpl. f_equal. lia.
Qed.

(** X2: [strconv.Atoi] reads back what [strconv.Itoa] writes, for every
    64-bit [int]. *)
Theorem Atoi_Itoa (n : Z) :
  - 2 ^ 63 <= n < 2 ^ 63 -> Atoi (Itoa n) = (n, None).
Proof.
  intros Hn. exact (Atoi_Itoa_int64 n Hn).
Qed.


(** ** matcher and Match: which records land in which bucket *)

Lemma opt_app_to_opt (a b : list ParsedLog) :
  opt_app (to_opt a) (to_opt b) = to_opt (a ++ b).
Proof. destruct a, b; simpl; rewrite ?app_nil_r; reflexivity. Qed.

Lemma matcher_loop_lookup (sha1 : list byte -> list byte) (sm : SearchMap)
    (ps : list ParsedLog) (hit : Matches) (c : Counters) (k : ptr) :
  fst (matcher_loop sha1 sm ps hit c) !! k =
  opt_app (hit !! k) (to_opt (hits_for sha1 sm k ps)).
Proof.
  revert hit c. induction ps as [|p ps IH]; intros hit c; simpl.
  - rewrite opt_app_None_r. reflexivity.
  - unfold hits_for. simpl.
    destruct (sm !! ParsedLog_Fingerprint sha1 p) as [stmt|] eqn:E.
    + rewrite IH. fold (hits_for sha1 sm k ps).
      destruct (decide (stmt = k)) as [->|Hne].
      * rewrite bool_decide_true by reflexivity.
        destruct (hit !! k) as [s|] eqn:Hk.
        -- rewrite lookup_insert_eq. destruct (hits_for sha1 sm k ps); simpl;
             [reflexivity|]. rewrite <- app_assoc. reflexivity.
        -- rewrite lookup_insert_eq. destruct (hits_for sha1 sm k ps); reflexivity.
      * rewrite bool_decide_false by congruence.
        destruct (hit !! stmt); rewrite lookup_insert_ne by congruence; reflexivity.
    + rewrite IH. rewrite bool_decide_false by congruence. reflexivity.
Qed.

Lemma matcher_loop_counts (sha1 : list byte -> list byte) (sm : SearchMap)
    (ps : list ParsedLog) (hit : Matches) (c : Counters) :
  - 2 ^ 63 <= numMatched c < 2 ^ 63 -> - 2 ^ 63 <= numNotMatched c < 2 ^ 63 ->
  let c' := snd (matcher_loop sha1 sm ps hit c) in
  numMatched c' = wrap64 (numMatched c + len (List.filter (in_map sha1 sm) ps)) /\
  numNotMatched c' =
    wrap64 (numNotMatched c + len (List.filter (fun p => negb (in_map sha1 sm p)) ps)).
Proof.
  revert hit c. induction ps as [|p ps IH]; intros hit c Hm Hn; cbn zeta.
  - unfold len. simpl. rewrite !Z.add_0_r, !wrap64_small by assumption. split; reflexivity.
  - cbn [matcher_loop List.filter].
    destruct (sm !! ParsedLog_Fingerprint sha1 p) as [n|] eqn:E.
    + assert (Hin : in_map sha1 sm p = true)
        by (unfold in_map; rewrite E; apply bool_decide_true; eexists; reflexivity).
      rewrite Hin. simpl negb. cbv iota.
      match goal with |- context [matcher_loop sha1 sm ps ?h ?c2] =>
        destruct (IH h c2) as [H1 H2] end; simpl; 
        try apply wrap64_range; try assumption.
      simpl in H1, H2. rewrite H1, H2. unfold add64. rewrite wrap64_add_wrap.
      split; [|reflexivity]. f_equal. unfold len. simpl length. lia.
    + assert (Hin : in_map sha1 sm p = false)
        by (unfold in_map; rewrite E; apply bool_decide_false; intros [? ?]; discriminate).
      rewrite Hin. simpl negb. cbv iota.
      match goal with |- context [matcher_loop sha1 sm ps ?h ?c2] =>
        destruct (IH h c2) as [H1 H2] end; simpl; 
        try apply wrap64_range; try assumption.
      simpl in H1, H2. rewrite H1, H2. unfold add64. rewrite wrap64_add_wrap.
      split; [reflexivity|]. f_equal. unfold len. simpl length. lia.
Qed.

(** X3: the table one [matcher] call builds maps each statement to the
    records of its part whose fingerprint leads to it, in order, and has
    no entry for a statement without one; from [int64] values, the
    counters become their sums with the number of records found in the
    search map and the number not found, wrapped around as [int64]. *)
Theorem matcher_table (sha1 : list byte -> list byte) (sm : SearchMap)
    (ps : list ParsedLog) (c : Counters) :
  - 2 ^ 63 <= numMatched c < 2 ^ 63 -> - 2 ^ 63 <= numNotMatched c < 2 ^ 63 ->
  let '(hit, c') := matcher sha1 sm ps c in
  (forall k, hit !! k = to_opt (hits_for sha1 sm k ps)) /\
  numMatched c' = wrap64 (numMatched c + len (List.filter (in_map sha1 sm) ps)) /\
  numNotMatched c' =
    wrap64 (numNotMatched c + len (List.filter (fun p => negb (in_map sha1 sm p)) ps)).
Proof.
  intros Hm Hn.
  unfold matcher. pose proof (matcher_loop_lookup sha1 sm ps ∅ c) as Hl.
  pose proof (matcher_loop_counts sha1 sm ps ∅ c Hm Hn) as Hc.
  destruct (matcher_loop sha1 sm ps ∅ c) as [hit c']. simpl in *.
  split; [|exact Hc]. intros k. rewrite Hl. rewrite lookup_empty. reflexivity.
Qed.

Lemma run_matchers_lookup (sha1 : list byte -> list byte) (sm : SearchMap)
    (parts : list (list ParsedLog)) (c : Counters) (k : ptr) :
  map (fun m => m !! k) (fst (run_matchers sha1 sm parts c)) =
  map (fun part => to_opt (hits_for sha1 sm k part)) parts.
Proof.
  revert c. induction parts as [|part parts IH]; intros c; simpl; [reflexivity|].
  unfold matcher. pose proof (matcher_loop_lookup sha1 sm part ∅ c k) as Hl.
  destruct (matcher_loop sha1 sm part ∅ c) as [h c1] eqn:E1. simpl in Hl.
  rewrite lookup_empty in Hl.
  specialize (IH c1). destruct (run_matchers sha1 sm parts c1) as [hs c2]. simpl in *.
  rewrite Hl, IH. reflexivity.
Qed.

Lemma opt_flat_to_opt (f : list ParsedLog -> list ParsedLog) (parts : list (list ParsedLog)) :
  opt_flat (map (fun part => to_opt (f part)) parts) = to_opt (concat (map f parts)).
Proof.
  induction parts as [|part parts IH]; simpl; [reflexivity|].
  rewrite IH, opt_app_to_opt. reflexivity.
Qed.

Lemma hits_for_concat (sha1 : list byte -> list byte) (sm : SearchMap) (k : ptr)
    (parts : list (list ParsedLog)) :
  hits_for sha1 sm k (concat parts) = concat (map (hits_for sha1 sm k) parts).
Proof.
  induction parts as [|part parts IH]; simpl; [reflexivity|].
  rewrite <- IH. unfold hits_for. clear IH. induction part as [|p part IHp]; simpl;
    [reflexivity|]. destruct (bool_decide _); simpl; rewrite IHp; reflexivity.
Qed.

Lemma Permutation_list_filter (f : ParsedLog -> bool) (l l' : list ParsedLog) :
  Permutation l l' -> Permutation (List.filter f l) (List.filter f l').
Proof.
  induction 1; simpl.
  - constructor.
  - destruct (f x); [constructor|]; assumption.
  - destruct (f x), (f y); try constructor; try reflexivity; apply perm_swap.
  - eapply Permutation_trans; eassumption.
Qed.

Lemma to_opt_perm (a b : list ParsedLog) : Permutation a b -> opt_perm (to_opt a) (to_opt b).
Proof.
  intros H. destruct a as [|x a], b as [|y b]; simpl; auto.
  - apply Permutation_nil in H. discriminate.
  - symmetry in H. apply Permutation_nil in H. discriminate.
Qed.

Lemma schedule_perm (scheds : list (list (list ParsedLog)))
    (groups : list (list ParsedLog)) (P : nat -> list (list ParsedLog) -> Prop) :
  length scheds = length groups ->
  (forall g sched grp, scheds !! g = Some sched -> groups !! g = Some grp ->
     Permutation (concat sched) grp /\ P g sched) ->
  Permutation (concat (concat scheds)) (concat groups).
Proof.
  revert groups P. induction scheds as [|s ss IH]; intros [|grp gs] P Hlen Hperm;
    simpl in *; try discriminate; try reflexivity.
  rewrite concat_app.
  destruct (Hperm 0%nat s grp eq_refl eq_refl) as [Hp _].
  apply Permutation_app; [exact Hp|].
  apply (IH gs (fun g => P (S g))); [lia|].
  intros g sched grp' Hs Hg. exact (Hperm (S g) sched grp' Hs Hg).
Qed.

(** X4: after a [Match] run, the aggregated bucket of each statement holds,
    up to order, exactly the parsed records of the archive whose
    fingerprint leads to it (none when there are none). *)
Theorem Match_aggregate_buckets (sha1 : list byte -> list byte)
    (GetBytes : list byte -> list byte -> option (list byte))
    (sm : SearchMap) (archive : list byte) (numCPU : nat) (jsonField : list byte)
    (c : Counters) (res : MatchResults) (c' : Counters) (recs : list ParsedLog)
    (A : Matches) :
  Match_run sha1 GetBytes sm archive numCPU jsonField c (Ok res) c' ->
  accepted_records GetBytes archive (numCPU / 4) jsonField = Ok recs ->
  AggregateResults (Matched res) = Ok A ->
  forall k, opt_perm (A !! k) (to_opt (hits_for sha1 sm k recs)).
Proof.
  intros Hrun Hrecs HA k.
  inversion Hrun as [| | |c0 groups scheds hits matched c1
                       HG Hgroups Hlen Hperm Hm Hmatched]; subst.
  unfold accepted_records in Hrecs. rewrite Hgroups in Hrecs. simpl in Hrecs.
  injection Hrecs as <-.
  simpl in HA. rewrite (AggregateResults_lookup _ _ k HA).
  eapply opt_perm_trans.
  { apply opt_flat_perm. apply Permutation_map. exact Hmatched. }
  pose proof (run_matchers_lookup sha1 sm (concat scheds) c k) as Hl.
  rewrite Hm in Hl. simpl in Hl. rewrite Hl, opt_flat_to_opt, <- hits_for_concat.
  apply to_opt_perm. unfold hits_for. apply Permutation_list_filter.
  exact (schedule_perm scheds groups _ Hlen Hperm).
Qed.


(** ** FindMissed *)

Lemma FindMissed_lookup_core (sm : SearchMap) (aggregated : Matches) (k : ptr) :
  (FindMissed sm aggregated !! k = Some None <->
   (exists fp, sm !! fp = Some k) /\ aggregated !! k = None) /\
  (FindMissed sm aggregated !! k = None \/ FindMissed sm aggregated !! k = Some None).
Proof.
  unfold FindMissed.
  apply (map_fold_weak_ind
           (fun (r : gmap ptr (option (list ParsedLog))) (m : SearchMap) =>
              (r !! k = Some None <-> (exists fp, m !! fp = Some k) /\ aggregated !! k = None) /\
              (r !! k = None \/ r !! k = Some None))).
  - rewrite lookup_empty. split; [|left; reflexivity].
    split; [discriminate|]. intros [[fp Hfp] _]. rewrite lookup_empty in Hfp. discriminate.
  - intros fp v m r Hm IH. destruct IH as [[IH1 IH2] IH3].
    assert (Hex : (exists fp', <[fp:=v]> m !! fp' = Some k) <->
                  v = k \/ exists fp', m !! fp' = Some k).
    { split.
      - intros [fp' Hfp']. destruct (decide (fp = fp')) as [<-|Hne].
        + rewrite lookup_insert_eq in Hfp'. injection Hfp' as ->. left; reflexivity.
        + rewrite lookup_insert_ne in Hfp' by exact Hne. right. exists fp'. exact Hfp'.
      - intros [<-|[fp' Hfp']].
        + exists fp. apply lookup_insert_eq.
        + exists fp'. rewrite lookup_insert_ne; [exact Hfp'|].
          intros <-. rewrite Hm in Hfp'. discriminate. }
    rewrite Hex.
    destruct (aggregated !! v) as [b|] eqn:Ev.
    + split; [|exact IH3]. split.
      * intros H. destruct (IH1 H) as [Hk Ha]. split; [right; exact Hk|exact Ha].
      * intros [[<-|Hk] Ha]; [rewrite Ev in Ha; discriminate|]. apply IH2. split; assumption.
    + destruct (decide (v = k)) as [<-|Hne].
      * rewrite lookup_insert_eq. split; [|right; reflexivity].
        split; [intros _; split; [left; reflexivity|exact Ev]|intros _; reflexivity].
      * rewrite lookup_insert_ne by exact Hne. split; [|exact IH3]. split.
        -- intros H. destruct (IH1 H) as [Hk Ha]. split; [right; exact Hk|exact Ha].
        -- intros [[Hv|Hk] Ha]; [congruence|]. apply IH2. split; assumption.
Qed.

(** X5: [FindMissed] has a nil entry for exactly the statements of the
    search map without a bucket in [aggregated], and no other entries. *)
Theorem FindMissed_lookup (sm : SearchMap) (aggregated : Matches) (k : ptr) :
  (FindMissed sm aggregated !! k = Some None <->
   (exists fp, sm !! fp = Some k) /\ aggregated !! k = None) /\
  (FindMissed sm aggregated !! k = None \/ FindMissed sm aggregated !! k = Some None).
Proof.
  exact (FindMissed_lookup_core sm aggregated k).
Qed.


(** ** GenerateSearchMap *)

(** X6: [GenerateSearchMap] keeps, for each fingerprint, the first
    statement with it; [collisions] holds all the statements of a
    fingerprint, in order, when there are two or more, and nothing
    otherwise. *)
Theorem GenerateSearchMap_spec (sha1 : list byte -> list byte) (deref : ptr -> LogStatement)
    (s : list ptr) (f : list byte) :
  let '(sm, collisions) := GenerateSearchMap sha1 deref s in
  sm !! f = head (with_fp sha1 deref f s) /\
  collisions !! f = (if (2 <=? length (with_fp sha1 deref f s))%nat then Some (with_fp sha1 deref f s) else None).
Proof.
  unfold GenerateSearchMap. induction s as [|x s IH] using rev_ind.
  - simpl. rewrite !lookup_empty. split; reflexivity.
  - rewrite fold_left_app. simpl.
    destruct (fold_left (gen_step sha1 deref) s (∅, ∅)) as [sm col] eqn:Hst.
    destruct IH as [IH1 IH2].
    unfold with_fp in *. rewrite List.filter_app. simpl.
    destruct (sm !! LogStatement_Fingerprint sha1 (deref x)) as [e|] eqn:Hx;
    destruct (decide (LogStatement_Fingerprint sha1 (deref x) = f)) as [Hf|Hf].
    + subst f. rewrite bool_decide_true by reflexivity.
      set (L := List.filter _ s) in *.
      rewrite IH1 in Hx.
      destruct L as [|y L'] eqn:HL; [discriminate Hx|]. simpl in Hx. injection Hx as <-.
      split; [exact IH1|].
      rewrite lookup_insert_eq. rewrite IH2.
      simpl. rewrite length_app. simpl.
      destruct L' as [|z L'']; simpl; [reflexivity|].
      reflexivity.
    + rewrite bool_decide_false by exact Hf. rewrite app_nil_r.
      rewrite lookup_insert_ne by exact Hf. split; assumption.
    + subst f. rewrite bool_decide_true by reflexivity.
      set (L := List.filter _ s) in *.
      rewrite IH1 in Hx.
      destruct L as [|y L'] eqn:HL; [|discriminate Hx].
      rewrite lookup_insert_eq. simpl. split; [reflexivity|exact IH2].
    + rewrite bool_decide_false by exact Hf. rewrite app_nil_r.
      rewrite lookup_insert_ne by exact Hf. split; assumption.
Qed.



(** ** AnalyzeMatches and the report's verbosity tables *)

Lemma cnt_cons {A} (P : A -> bool) (x : A) (l : list A) :
  cnt P (x :: l) = (if P x then 1 else 0) + cnt P l.
Proof. unfold cnt. simpl. destruct (P x); simpl; lia. Qed.

Lemma cnt_bounds {A} (P : A -> bool) (l : list A) : 0 <= cnt P l <= Z.of_nat (length l).
Proof.
  unfold cnt. split; [lia|]. apply inj_le.
  induction l as [|x l IH]; simpl; [lia|]. destruct (P x); simpl; lia.
Qed.

Lemma scalar_step {A} (Q : A -> bool) (c : Z) (x : A) (xs : list A) :
  Z.of_nat (length (x :: xs)) < 2 ^ 63 -> c = cnt Q xs ->
  (if Q x then add64 c 1 else c) = cnt Q (x :: xs).
Proof.
  intros Hl ->. rewrite cnt_cons. pose proof (cnt_bounds Q xs). simpl in Hl.
  destruct (Q x); [rewrite add64_small|]; lia.
Qed.

Section AnalyzeProofs.
Variable deref : ptr -> LogStatement.

Lemma map_step (Q : ptr -> bool) (m : gmap Z Z) (x : ptr) (xs : list ptr) :
  Z.of_nat (length (x :: xs)) < 2 ^ 63 ->
  (forall i, m !! i = cnt_opt (fun w => Q w && (stmt_verbosity deref w =? i)) xs) ->
  forall i, (if Q x then map_incr m (stmt_verbosity deref x) else m) !! i =
            cnt_opt (fun w => Q w && (stmt_verbosity deref w =? i)) (x :: xs).
Proof.
  intros Hl Hm i. unfold cnt_opt. rewrite cnt_cons.
  pose proof (cnt_bounds (fun w => Q w && (stmt_verbosity deref w =? i)) xs) as Hb.
  simpl in Hl.
  destruct (Q x) eqn:Hq; simpl.
  - unfold map_incr, map_get.
    destruct (decide (stmt_verbosity deref x = i)) as [<-|Hne].
    + rewrite Z.eqb_refl, lookup_insert_eq, Hm. unfold cnt_opt.
      destruct (cnt _ xs =? 0) eqn:E; simpl; rewrite add64_small by lia.
      * apply Z.eqb_eq in E. rewrite E. reflexivity.
      * destruct (1 + cnt _ xs =? 0) eqn:E2; [lia|]. f_equal. lia.
    + rewrite lookup_insert_ne by exact Hne. rewrite Hm.
      apply Z.eqb_neq in Hne. rewrite Hne. reflexivity.
  - rewrite Hm. reflexivity.
Qed.

Lemma analyze_fold_counts (results : Matches) (l : list ptr) :
  Z.of_nat (length l) < 2 ^ 63 ->
  counts_ok deref results l (foldr (fun v r => analyze_visit deref results r v) (analyze_init) l).
Proof.
  induction l as [|x l IH]; intros Hl.
  - unfold counts_ok, cnt_opt, cnt. simpl. repeat split; intros; apply lookup_empty.
  - assert (Hl' : Z.of_nat (length l) < 2 ^ 63) by (simpl in Hl; lia).
    destruct (IH Hl') as (H1 & H2 & H3 & H4 & H5 & H6 & H7 & H8 & H9 & H10).
    cbn [foldr]. set (r := foldr _ _ l) in *.
    unfold counts_ok. unfold analyze_visit at 1 2 3 4 5 6 7 8 9 10. cbn [NumHitTotal NumMissedTotal
      NumWarnHit NumWarnMissed NumFatalHit NumFatalMissed NumInfoHit NumInfoMissed NumErrorHit NumErrorMissed].
    split; [|split; [|split; [|split; [|split; [|split; [|split; [|split; [|split]]]]]]]].
    + rewrite <- (scalar_step (fun v => negb (is_missed results v)) _ x l Hl H1).
      destruct (is_missed results x); reflexivity.
    + exact (scalar_step (is_missed results) _ x l Hl H2).
    + exact (scalar_step (hit_sev deref results 1) _ x l Hl H3).
    + exact (scalar_step (miss_sev deref results 1) _ x l Hl H4).
    + exact (scalar_step (hit_sev deref results 3) _ x l Hl H5).
    + exact (scalar_step (miss_sev deref results 3) _ x l Hl H6).
    + exact (map_step (hit_sev deref results 0) _ x l Hl H7).
    + exact (map_step (miss_sev deref results 0) _ x l Hl H8).
    + exact (map_step (hit_sev deref results 2) _ x l Hl H9).
    + exact (map_step (miss_sev deref results 2) _ x l Hl H10).
Qed.
End AnalyzeProofs.

Lemma map_fold_stmts {B} (f : ptr -> B -> B) (b : B) (sm : SearchMap) :
  map_fold (fun _ v r => f v r) b sm = foldr f b (stmts sm).
Proof.
  rewrite map_fold_foldr. unfold stmts.
  induction (map_to_list sm) as [|[k v] l IH]; simpl; [reflexivity|]. rewrite IH. reflexivity.
Qed.

Lemma length_stmts (sm : SearchMap) : length (stmts sm) = size sm.
Proof. unfold stmts. rewrite length_map. apply length_map_to_list. Qed.

Lemma fold_set_lookup (f : Z -> Z -> float) (g : Z -> float) (l : list (Z * Z))
    (acc : gmap Z float) (j : Z) :
  (forall k v, (k, v) ∈ l -> f k v = g k) ->
  foldr (uncurry (fun k v pct => <[k := f k v]> pct)) acc l !! j =
  if bool_decide (j ∈ l.*1) then Some (g j) else acc !! j.
Proof.
  induction l as [|[k v] l IH]; intros Hf; simpl; [reflexivity|].
  destruct (decide (k = j)) as [<-|Hne].
  - rewrite lookup_insert_eq. rewrite bool_decide_true by (left). f_equal.
    apply Hf. left.
  - rewrite lookup_insert_ne by exact Hne. rewrite IH.
    + destruct (bool_decide (j ∈ l.*1)) eqn:E.
      * apply bool_decide_eq_true in E. rewrite bool_decide_true; [reflexivity|]. right. exact E.
      * apply bool_decide_eq_false in E. rewrite bool_decide_false; [reflexivity|].
        intros Hin. apply elem_of_cons in Hin as [Hin|Hin]; [congruence|contradiction].
    + intros k' v' Hin. apply Hf. right. exact Hin.
Qed.

Lemma in_keys (m : gmap Z Z) (j : Z) : j ∈ (map_to_list m).*1 <-> is_Some (m !! j).
Proof.
  rewrite list_elem_of_fmap. split.
  - intros [[k v] [-> Hin]]. apply elem_of_map_to_list in Hin. simpl. exists v. exact Hin.
  - intros [v Hv]. exists (j, v). split; [reflexivity|]. apply elem_of_map_to_list. exact Hv.
Qed.

Lemma percent_map_lookup (hit missed : gmap Z Z) (j : Z) :
  percent_map hit missed !! j =
  match hit !! j, missed !! j with
  | None, None => None
  | _, _ => Some (percent (map_get hit j) (add64 (map_get hit j) (map_get missed j)))
  end.
Proof.
  unfold percent_map. rewrite !map_fold_foldr.
  set (g := fun k => percent (map_get hit k) (add64 (map_get hit k) (map_get missed k))).
  rewrite (fold_set_lookup _ g).
  2: { intros k v _. reflexivity. }
  destruct (bool_decide (j ∈ (map_to_list missed).*1)) eqn:Em.
  - apply bool_decide_eq_true, in_keys in Em. destruct Em as [x Hx]. rewrite Hx.
    destruct (hit !! j); reflexivity.
  - apply bool_decide_eq_false in Em. rewrite in_keys in Em.
    destruct (missed !! j) eqn:Hm; [exfalso; apply Em; eexists; reflexivity|].
    rewrite (fold_set_lookup _ g).
    + destruct (bool_decide (j ∈ (map_to_list hit).*1)) eqn:Eh.
      * apply bool_decide_eq_true, in_keys in Eh. destruct Eh as [x Hx]. rewrite Hx. reflexivity.
      * apply bool_decide_eq_false in Eh. rewrite in_keys in Eh.
        destruct (hit !! j) eqn:Hh; [exfalso; apply Eh; eexists; reflexivity|].
        apply lookup_empty.
    + intros k v Hin. apply elem_of_map_to_list in Hin. unfold g, map_get. rewrite Hin. reflexivity.
Qed.

Lemma cnt_disjoint {A} (P Q : A -> bool) (l : list A) :
  (forall x, P x && Q x = false) -> cnt P l + cnt Q l <= Z.of_nat (length l).
Proof.
  intros H. induction l as [|x l IH]; [unfold cnt; simpl; lia|].
  rewrite !cnt_cons. specialize (H x). simpl length.
  destruct (P x), (Q x); simpl in H; try discriminate; lia.
Qed.

Lemma AnalyzeMatches_fold (deref : ptr -> LogStatement) (sm : SearchMap) (results : Matches) :
  let r := foldr (fun v r => analyze_visit deref results r v) analyze_init (stmts sm) in
  AnalyzeMatches deref sm results =
  {| NumHitTotal := NumHitTotal r;
     NumMissedTotal := NumMissedTotal r;
     PercentHitTotal := percent (NumHitTotal r) (add64 (NumHitTotal r) (NumMissedTotal r));
     NumInfoHit := NumInfoHit r;
     NumInfoMissed := NumInfoMissed r;
     PercentInfoHit := percent_map (NumInfoHit r) (NumInfoMissed r);
     NumWarnHit := NumWarnHit r;
     NumWarnMissed := NumWarnMissed r;
     PercentWarnHit := percent (NumWarnHit r) (add64 (NumWarnHit r) (NumWarnMissed r));
     NumErrorHit := NumErrorHit r;
     NumErrorMissed := NumErrorMissed r;
     PercentErrorHit := percent_map (NumErrorHit r) (NumErrorMissed r);
     NumFatalHit := NumFatalHit r;
     NumFatalMissed := NumFatalMissed r;
     PercentFatalHit := percent (NumFatalHit r) (add64 (NumFatalHit r) (NumFatalMissed r)) |}.
Proof.
  intros r. unfold AnalyzeMatches.
  rewrite (map_fold_stmts (fun v r => analyze_visit deref results r v)). reflexivity.
Qed.

(** X7: for a search map of fewer than [2^63] entries, [AnalyzeMatches]
    counts its statements exactly: hit and missed in total, per severity,
    and per severity and verbosity level, and hit plus missed is the size
    of the map. *)
Theorem AnalyzeMatches_counts (deref : ptr -> LogStatement) (sm : SearchMap) (results : Matches) :
  Z.of_nat (size sm) < 2 ^ 63 ->
  counts_ok deref results (stmts sm) (AnalyzeMatches deref sm results) /\
  NumHitTotal (AnalyzeMatches deref sm results) + NumMissedTotal (AnalyzeMatches deref sm results)
    = Z.of_nat (size sm).
Proof.
  intros Hsz. rewrite AnalyzeMatches_fold.
  rewrite <- length_stmts in Hsz.
  pose proof (analyze_fold_counts deref results (stmts sm) Hsz) as Hc.
  destruct Hc as (H1 & H2 & H3 & H4 & H5 & H6 & H7 & H8 & H9 & H10).
  split; [repeat split; assumption|]. cbn [NumHitTotal NumMissedTotal].
  rewrite H1, H2, <- length_stmts.
  clear. induction (stmts sm) as [|x l IH]; [reflexivity|].
  rewrite !cnt_cons. simpl length. destruct (is_missed results x); simpl; lia.
Qed.

Lemma rows_from_counts (deref : ptr -> LogStatement) (results : Matches) (l : list ptr)
    (hit missed : gmap Z Z) (Hs Ms : ptr -> bool) :
  Z.of_nat (length l) < 2 ^ 63 ->
  (forall x, Hs x && Ms x = false) ->
  (forall i, hit !! i = cnt_opt (at_level deref Hs i) l) ->
  (forall i, missed !! i = cnt_opt (at_level deref Ms i) l) ->
  forEachVerbosityLevel hit missed (percent_map hit missed) =
  level_rows (fun i => cnt (at_level deref Hs i) l) (fun i => cnt (at_level deref Ms i) l).
Proof.
  intros Hl Hdis Hh Hm. unfold forEachVerbosityLevel, level_rows.
  apply flat_map_ext. intros i.
  rewrite percent_map_lookup. unfold map_get. rewrite Hh, Hm. unfold cnt_opt.
  pose proof (cnt_bounds (at_level deref Hs i) l).
  pose proof (cnt_bounds (at_level deref Ms i) l).
  assert (Hsum : cnt (at_level deref Hs i) l + cnt (at_level deref Ms i) l <= Z.of_nat (length l)).
  { apply cnt_disjoint. intros x. unfold at_level.
    specialize (Hdis x). destruct (Hs x), (Ms x); simpl in *; try discriminate; try reflexivity.
    destruct (stmt_verbosity deref x =? i); reflexivity. }
  destruct (cnt (at_level deref Hs i) l =? 0) eqn:E1;
  destruct (cnt (at_level deref Ms i) l =? 0) eqn:E2; simpl;
    try (apply Z.eqb_eq in E1); try (apply Z.eqb_eq in E2);
    try (rewrite E1); try (rewrite E2); simpl; try reflexivity;
    rewrite add64_small by lia; reflexivity.
Qed.

(** X8: the INFO and ERROR tables of the report have one row per verbosity
    level of [-1..9] (["*"] for no verbosity) with a statement of that
    severity and level, in increasing order, with the hit and missed
    counts and the percentage computed from them; other levels are never
    shown. *)
Theorem AnalyzeMatches_verbosity_rows (deref : ptr -> LogStatement) (sm : SearchMap)
    (results : Matches) :
  Z.of_nat (size sm) < 2 ^ 63 ->
  let r := AnalyzeMatches deref sm results in
  forEachVerbosityLevel (NumInfoHit r) (NumInfoMissed r) (PercentInfoHit r) =
    level_rows (fun i => cnt (at_level deref (hit_sev deref results 0) i) (stmts sm))
               (fun i => cnt (at_level deref (miss_sev deref results 0) i) (stmts sm)) /\
  forEachVerbosityLevel (NumErrorHit r) (NumErrorMissed r) (PercentErrorHit r) =
    level_rows (fun i => cnt (at_level deref (hit_sev deref results 2) i) (stmts sm))
               (fun i => cnt (at_level deref (miss_sev deref results 2) i) (stmts sm)).
Proof.
  intros Hsz r.
  destruct (AnalyzeMatches_counts deref sm results Hsz) as [Hc _].
  destruct Hc as (_ & _ & _ & _ & _ & _ & H7 & H8 & H9 & H10).
  rewrite <- length_stmts in Hsz.
  assert (Hdis : forall s x, hit_sev deref results s x && miss_sev deref results s x = false).
  { intros s x. unfold hit_sev, miss_sev. destruct (is_missed results x); simpl; [reflexivity|].
    apply andb_false_r. }
  unfold r. rewrite AnalyzeMatches_fold. cbn [NumInfoHit NumInfoMissed PercentInfoHit
    NumErrorHit NumErrorMissed PercentErrorHit].
  rewrite AnalyzeMatches_fold in H7, H8, H9, H10.
  cbn [NumInfoHit NumInfoMissed NumErrorHit NumErrorMissed] in H7, H8, H9, H10.
  split; apply (rows_from_counts deref results); auto.
Qed.

Lemma cnt_none {A} (P : A -> bool) (l : list A) :
  Forall (fun x => P x = false) l -> cnt P l = 0.
Proof.
  induction 1 as [|x l Hx _ IH]; [reflexivity|]. rewrite cnt_cons, Hx. exact IH.
Qed.

Lemma percent_zero_nan : PrimFloat.is_nan (percent 0 (add64 0 0)) = true.
Proof. vm_compute. reflexivity. Qed.

(** X9: a percentage over no statement is NaN: the total one for an empty
    search map, and the WARNING (FATAL) one when the map has no WARNING
    (FATAL) statement. *)
Theorem AnalyzeMatches_empty_nan (deref : ptr -> LogStatement) (sm : SearchMap)
    (results : Matches) :
  Z.of_nat (size sm) < 2 ^ 63 ->
  let r := AnalyzeMatches deref sm results in
  (sm = ∅ -> PrimFloat.is_nan (PercentHitTotal r) = true) /\
  (Forall (fun v => Severity (deref v) <> 1) (stmts sm) ->
     PrimFloat.is_nan (PercentWarnHit r) = true) /\
  (Forall (fun v => Severity (deref v) <> 3) (stmts sm) ->
     PrimFloat.is_nan (PercentFatalHit r) = true).
Proof.
  intros Hsz r.
  destruct (AnalyzeMatches_counts deref sm results Hsz) as [Hc _].
  destruct Hc as (H1 & H2 & H3 & H4 & H5 & H6 & _).
  assert (Hr : forall s, Forall (fun v => Severity (deref v) <> s) (stmts sm) ->
            cnt (hit_sev deref results s) (stmts sm) = 0 /\
            cnt (miss_sev deref results s) (stmts sm) = 0).
  { intros s Hf. split; apply cnt_none; eapply Forall_impl; try exact Hf;
      intros v Hv; unfold hit_sev, miss_sev; apply Z.eqb_neq in Hv; rewrite Hv;
      apply andb_false_r. }
  unfold r. rewrite AnalyzeMatches_fold in *. cbn [PercentHitTotal PercentWarnHit PercentFatalHit].
  cbn [NumHitTotal NumMissedTotal NumWarnHit NumWarnMissed NumFatalHit NumFatalMissed] in *.
  split; [|split].
  - intros ->. rewrite H1, H2. unfold stmts. rewrite map_to_list_empty. exact percent_zero_nan.
  - intros Hf. destruct (Hr 1 Hf) as [E1 E2]. rewrite H3, H4, E1, E2. exact percent_zero_nan.
  - intros Hf. destruct (Hr 3 Hf) as [E1 E2]. rewrite H5, H6, E1, E2. exact percent_zero_nan.
Qed.


(** ** The match command's top entries *)

Lemma insert_rev_length (less : MatchEntry -> MatchEntry -> bool) (x : MatchEntry)
    (rs : list MatchEntry) : length (insert_rev less x rs) = S (length rs).
Proof.
  induction rs as [|y ys IH]; simpl; [reflexivity|].
  destruct (less x y); simpl; [rewrite IH|]; reflexivity.
Qed.

Lemma sort_Slice_length (less : MatchEntry -> MatchEntry -> bool) (entries : list MatchEntry) :
  length (sort_Slice less entries) = length entries.
Proof.
  unfold sort_Slice. rewrite length_rev.
  assert (H : forall acc, length (fold_left (fun acc x => insert_rev less x acc) entries acc)
                          = (length acc + length entries)%nat).
  { induction entries as [|x es IH]; intros acc; simpl; [lia|].
    rewrite IH, insert_rev_length. simpl. lia. }
  rewrite H. reflexivity.
Qed.

(** X11: with the default [--top] of 20 and no [--all], the match command
    panics on [sorted[:top]] whenever the aggregated matches have between 1
    and 19 buckets ([SortMatches] returns one entry per bucket, with
    capacity equal to its length). *)
Theorem default_top_panics (deref : ptr -> LogStatement)
    (results : list (ptr * option (list ParsedLog))) :
  (0 < length results < 20)%nat ->
  top_entries (SortMatches deref results) false default_top =
    Panic "slice bounds out of range"%string.
Proof.
  intros Hl. unfold SortMatches.
  set (entries := map _ results).
  pose proof (sort_Slice_length (entry_less deref) entries) as Hs.
  unfold entries in Hs. rewrite length_map in Hs. fold entries in Hs.
  unfold top_entries, slice, default_top. cbv zeta. unfold len. rewrite Hs.
  replace (Z.of_nat (length results) =? 0) with false by (symmetry; apply Z.eqb_neq; lia).
  replace (20 <=? Z.of_nat (length results)) with false by (symmetry; apply Z.leb_gt; lia).
  rewrite andb_false_r. reflexivity.
Qed.

(** ** ShortSourceFile *)

Lemma beq_slash_false (c : byte) : c <> slash -> beq c slash = false.
Proof. intros H. destruct (beq c slash) eqn:E; [apply Byte.byte_dec_bl in E; contradiction|reflexivity]. Qed.

Lemma split_path_noslash (y s cur : list byte) :
  Forall (fun c => c <> slash) y -> split_path cur (y ++ s) = split_path (rev y ++ cur) s.
Proof.
  revert cur. induction y as [|c y IH]; intros cur Hy; [reflexivity|].
  inversion Hy as [|? ? Hc Hy']; subst. simpl. rewrite beq_slash_false by exact Hc.
  rewrite IH by exact Hy'. rewrite <- app_assoc. reflexivity.
Qed.

Lemma split_path_pre (x z cur : list byte) :
  exists es, split_path cur (x ++ slash :: z) = es ++ split_path [] z.
Proof.
  revert cur. induction x as [|c x IH]; intros cur.
  - exists [rev cur]. simpl. change (beq slash slash) with true. reflexivity.
  - simpl. destruct (beq c slash).
    + destruct (IH []) as [es Hes]. exists (rev cur :: es). rewrite Hes. reflexivity.
    + apply IH.
Qed.

Lemma clean_elems_app (r : bool) (st a b : list (list byte)) :
  clean_elems r st (a ++ b) = clean_elems r (clean_elems r st a) b.
Proof.
  revert st. induction a as [|e a IH]; intros st; [reflexivity|].
  simpl. repeat case_match; apply IH.
Qed.

Lemma list_byte_eqb_false (a b : list byte) : a <> b -> list_byte_eqb a b = false.
Proof. intros H. unfold list_byte_eqb. destruct (decide (a = b)); [contradiction|reflexivity]. Qed.

Lemma clean_elems_plain (r : bool) (st : list (list byte)) (d : list byte) :
  plain_elem d -> clean_elems r st [d; []] = d :: st.
Proof.
  intros (H1 & _ & H3 & H4). simpl.
  rewrite !list_byte_eqb_false by assumption. reflexivity.
Qed.

Lemma join_with_snoc (sep : list byte) (L : list (list byte)) (d : list byte) :
  join_with sep (L ++ [d]) = match L with [] => d | _ => join_with sep L ++ sep ++ d end.
Proof.
  induction L as [|x L IH]; [reflexivity|].
  simpl app. destruct L as [|y L'].
  - reflexivity.
  - change (join_with sep (x :: (y :: L') ++ [d])) with (x ++ sep ++ join_with sep ((y :: L') ++ [d])).
    rewrite IH. change (join_with sep (x :: y :: L')) with (x ++ sep ++ join_with sep (y :: L')).
    rewrite <- !app_assoc. reflexivity.
Qed.


Lemma Clean_last (q d : list byte) (es : list (list byte)) :
  plain_elem d -> split_path [] q = es ++ [d; []] ->
  exists y, Clean q = y ++ d /\ slash_ended y.
Proof.
  intros Hd Hs. destruct q as [|c q'].
  { simpl in Hs. destruct es as [|e [|e' es']]; simpl in Hs; discriminate. }
  unfold Clean. rewrite Hs, clean_elems_app, clean_elems_plain by exact Hd.
  cbn [rev]. rewrite join_with_snoc.
  set (L := rev (clean_elems (beq c slash) [] es)).
  destruct (beq c slash).
  - destruct L as [|x L'].
    + exists [slash]. split; [reflexivity|]. right. exists []. reflexivity.
    + exists (slash :: join_with [slash] (x :: L') ++ [slash]). split.
      * simpl. rewrite <- app_assoc. reflexivity.
      * right. eexists. rewrite app_comm_cons. reflexivity.
  - destruct L as [|x L'].
    + destruct d as [|b d']; [destruct Hd as [[] _]; reflexivity|].
      exists []. split; [reflexivity|left; reflexivity].
    + exists (join_with [slash] (x :: L') ++ [slash]). split.
      * rewrite <- app_assoc. destruct (join_with [slash] (x :: L') ++ [slash] ++ d) eqn:E.
        -- apply app_eq_nil in E as [_ E]. discriminate.
        -- reflexivity.
      * right. eexists. reflexivity.
Qed.

Lemma upto_noslash (d : list byte) : Forall (fun c => c <> slash) d -> upto_last_slash d = [].
Proof.
  induction 1 as [|c d Hc _ IH]; [reflexivity|]. simpl. rewrite IH, beq_slash_false by exact Hc.
  reflexivity.
Qed.

Lemma upto_app (a d : list byte) :
  upto_last_slash d = [] -> upto_last_slash (a ++ d) = upto_last_slash a.
Proof. intros Hd. induction a as [|c a IH]; [exact Hd|]. simpl. rewrite IH. reflexivity. Qed.

Lemma upto_snoc_slash (a : list byte) : upto_last_slash (a ++ [slash]) = a ++ [slash].
Proof.
  induction a as [|c a IH]; [reflexivity|]. simpl. rewrite IH.
  destruct (a ++ [slash]) eqn:E; [apply app_eq_nil in E as [_ E]; discriminate|reflexivity].
Qed.

Lemma upto_slash_ended (y : list byte) : slash_ended y -> upto_last_slash y = y.
Proof. intros [->|[y' ->]]; [reflexivity|apply upto_snoc_slash]. Qed.

Lemma Base_last (y d : list byte) : plain_elem d -> slash_ended y -> Base (y ++ d) = d.
Proof.
  intros Hd Hy. pose proof Hd as (Hne & Hns & _).
  destruct (exists_last Hne) as [d0 [c Ed]].
  assert (Hc : c <> slash).
  { rewrite Ed in Hns. apply Forall_app in Hns as [_ Hc]. inversion Hc; assumption. }
  unfold Base.
  destruct (y ++ d) as [|b p] eqn:Ep.
  { apply app_eq_nil in Ep as [_ Ep]. contradiction. }
  rewrite <- Ep.
  assert (Hr : rev (strip_trailing_slashes_rev (rev (y ++ d))) = y ++ d).
  { rewrite Ed, app_assoc, rev_app_distr. simpl.
    rewrite beq_slash_false by exact Hc. change (c :: rev (y ++ d0)) with ([c] ++ rev (y ++ d0)). rewrite rev_app_distr, rev_involutive. reflexivity. }
  rewrite Hr. unfold after_last_slash.
  rewrite (upto_app y d (upto_noslash d Hns)), (upto_slash_ended y Hy).
  rewrite skipn_app, Nat.sub_diag, skipn_all. simpl.
  destruct d; [contradiction|reflexivity].
Qed.

Lemma Clean_nonrooted (q : list byte) (c : byte) (q' : list byte) :
  q = c :: q' -> c <> slash ->
  Clean q = match join_with [slash] (rev (clean_elems false [] (split_path [] q))) with
            | [] => bs "."
            | out => out
            end.
Proof.
  intros -> Hc. unfold Clean. rewrite (beq_slash_false c Hc).
  destruct (join_with _ _); reflexivity.
Qed.

Lemma Clean_two (d f : list byte) :
  plain_elem d -> plain_elem f -> Clean (d ++ slash :: f) = d ++ slash :: f.
Proof.
  intros Hd Hf. pose proof Hd as (Hdne & Hdns & Hd3 & Hd4). pose proof Hf as (Hfne & Hfns & Hf3 & Hf4).
  destruct d as [|c d']; [contradiction|].
  assert (Hc : c <> slash) by (inversion Hdns; assumption).
  assert (Hs : split_path [] ((c :: d') ++ slash :: f) = [c :: d'; f]).
  { rewrite (split_path_noslash (c :: d') (slash :: f) [] Hdns).
    simpl split_path at 1. change (beq slash slash) with true. cbv iota.
    rewrite <- (app_nil_r f). rewrite (split_path_noslash f [] [] Hfns).
    rewrite app_nil_r. simpl. rewrite ?app_nil_r, ?rev_app_distr, ?rev_involutive. reflexivity. }
  assert (Hq : (c :: d') ++ slash :: f = c :: (d' ++ slash :: f)) by reflexivity.
  rewrite (Clean_nonrooted _ c _ Hq Hc), Hs.
  simpl clean_elems. rewrite !list_byte_eqb_false by assumption.
  reflexivity.
Qed.

Lemma split_path_dir (pre d : list byte) :
  plain_elem d -> slash_ended pre ->
  exists es, split_path [] (pre ++ d ++ [slash]) = es ++ [d; []].
Proof.
  intros (_ & Hns & _) Hpre.
  assert (Hd : split_path [] (d ++ [slash]) = [d; []]).
  { rewrite (split_path_noslash d [slash] [] Hns). simpl.
    change (beq slash slash) with true. simpl. rewrite app_nil_r, rev_involutive. reflexivity. }
  destruct Hpre as [->|[x ->]].
  - exists []. exact Hd.
  - rewrite <- app_assoc. simpl app.
    destruct (split_path_pre x (d ++ [slash]) []) as [es Hes].
    exists es. rewrite Hes, Hd. reflexivity.
Qed.

(** X12: [ShortSourceFile] keeps the last two elements of a path: a source
    file [pre ++ d/f], with [d] and [f] non-empty, free of '/', and neither
    "." nor "..", and [pre] empty or ending in '/', is shortened to [d/f]. *)
Theorem ShortSourceFile_last_two (s : LogStatement) (pre d f : list byte) :
  plain_elem d -> plain_elem f -> slash_ended pre ->
  SourceFile s = pre ++ d ++ slash :: f ->
  ShortSourceFile s = d ++ slash :: f.
Proof.
  intros Hd Hf Hpre Hs. unfold ShortSourceFile. rewrite Hs.
  pose proof Hf as (Hfne & Hfns & _).
  assert (Hp : pre ++ d ++ slash :: f = (pre ++ d ++ [slash]) ++ f)
    by (rewrite <- !app_assoc; reflexivity).
  rewrite Hp.
  assert (HB : Base ((pre ++ d ++ [slash]) ++ f) = f).
  { apply Base_last; [exact Hf|]. right. exists (pre ++ d). rewrite <- app_assoc. reflexivity. }
  assert (HD : Base (Dir ((pre ++ d ++ [slash]) ++ f)) = d).
  { unfold Dir. rewrite (upto_app _ f (upto_noslash f Hfns)), app_assoc, upto_snoc_slash.
    rewrite <- app_assoc.
    destruct (split_path_dir pre d Hd Hpre) as [es Hes].
    destruct (Clean_last _ d es Hd Hes) as [y [Hy Hye]].
    rewrite Hy. apply Base_last; assumption. }
  rewrite HB, HD. unfold Join.
  pose proof Hd as (Hdne & _).
  destruct d as [|b d']; [contradiction|].
  destruct (filter _ _) eqn:E.
  - vm_compute in E. discriminate E.
  - change (join_with [slash] [b :: d'; f]) with ((b :: d') ++ [slash] ++ f).
    apply Clean_two; assumption.
Qed.

(** ** ParseLine on a well-formed line *)

Lemma at_nth (l : list byte) (i : nat) (c : byte) :
  nth_error l i = Some c -> at_ l (Z.of_nat i) = Ok c.
Proof.
  intros H. unfold at_, len. pose proof (nth_error_Some l i) as [Hs _].
  assert (Hi : (i < length l)%nat) by (apply Hs; rewrite H; discriminate).
  replace ((0 <=? Z.of_nat i) && (Z.of_nat i <? Z.of_nat (length l))) with true
    by (symmetry; apply andb_true_iff; split; [apply Z.leb_le|apply Z.ltb_lt]; lia).
  rewrite Nat2Z.id, H. reflexivity.
Qed.

Lemma filename_loop_step (fuel : nat) (line : list byte) (i : nat) (c : byte) (de fs fe : Z) :
  nth_error line i = Some c -> (S i < length line)%nat ->
  filename_loop (S fuel) line (Z.of_nat i) de fs fe =
  if is_path_char c then filename_loop fuel line (Z.of_nat (S i)) de fs fe
  else if beq c "/"%byte then filename_loop fuel line (Z.of_nat (S i)) (Z.of_nat i) (Z.of_nat (S i)) fe
  else if beq c ":"%byte then Ok (Z.of_nat i, de, fs, Z.of_nat i)
  else Ok (Z.of_nat i, de, fs, fe).
Proof.
  intros Hc Hi. cbn [filename_loop]. unfold len.
  replace (Z.of_nat i <? Z.of_nat (length line) - 1) with true by (symmetry; apply Z.ltb_lt; lia).
  rewrite (at_nth line i c Hc). cbn [mbind outcome_bind].
  replace (Z.of_nat i + 1) with (Z.of_nat (S i)) by lia. reflexivity.
Qed.

Lemma filename_loop_run (line seg : list byte) (fuel i : nat) (de fs fe : Z) :
  Forall (fun c => is_path_char c = true) seg ->
  (forall k, (k < length seg)%nat -> nth_error line (i + k) = nth_error seg k) ->
  (i + length seg < length line)%nat -> (length seg <= fuel)%nat ->
  filename_loop fuel line (Z.of_nat i) de fs fe =
  filename_loop (fuel - length seg) line (Z.of_nat (i + length seg)) de fs fe.
Proof.
  revert i fuel. induction seg as [|c seg IH]; intros i fuel Hp Hn Hl Hf.
  - simpl. rewrite Nat.sub_0_r, Nat.add_0_r. reflexivity.
  - inversion Hp as [|? ? Hc Hp']; subst.
    destruct fuel as [|fuel]; [simpl in Hf; lia|].
    assert (Hi : nth_error line i = Some c) by (rewrite <- (Nat.add_0_r i), Hn; [reflexivity|simpl; lia]).
    rewrite (filename_loop_step fuel line i c de fs fe Hi) by (simpl in Hl; lia).
    rewrite Hc. rewrite (IH (S i) fuel Hp').
    + simpl length. replace (S fuel - S (length seg))%nat with (fuel - length seg)%nat by lia.
      replace (S i + length seg)%nat with (i + S (length seg))%nat by lia. reflexivity.
    + intros k Hk. replace (S i + k)%nat with (i + S k)%nat by lia. apply Hn. simpl. lia.
    + simpl in Hl. lia.
    + simpl in Hf. lia.
Qed.

Lemma linenumber_loop_step (fuel : nat) (line : list byte) (i : nat) (c : byte) (e : Z) :
  nth_error line i = Some c -> (S i < length line)%nat ->
  linenumber_loop (S fuel) line (Z.of_nat i) e =
  if negb (out_of c "0"%byte "9"%byte) then linenumber_loop fuel line (Z.of_nat (S i)) e
  else if beq c "]"%byte then Ok (Z.of_nat i, Z.of_nat i)
  else Ok (Z.of_nat i, e).
Proof.
  intros Hc Hi. cbn [linenumber_loop]. unfold len.
  replace (Z.of_nat i <? Z.of_nat (length line) - 1) with true by (symmetry; apply Z.ltb_lt; lia).
  rewrite (at_nth line i c Hc). cbn [mbind outcome_bind].
  replace (Z.of_nat i + 1) with (Z.of_nat (S i)) by lia. reflexivity.
Qed.

Lemma linenumber_loop_run (line seg : list byte) (fuel i : nat) (e : Z) :
  Forall (fun c => out_of c "0"%byte "9"%byte = false) seg ->
  (forall k, (k < length seg)%nat -> nth_error line (i + k) = nth_error seg k) ->
  (i + length seg < length line)%nat -> (length seg <= fuel)%nat ->
  linenumber_loop fuel line (Z.of_nat i) e =
  linenumber_loop (fuel - length seg) line (Z.of_nat (i + length seg)) e.
Proof.
  revert i fuel. induction seg as [|c seg IH]; intros i fuel Hp Hn Hl Hf.
  - simpl. rewrite Nat.sub_0_r, Nat.add_0_r. reflexivity.
  - inversion Hp as [|? ? Hc Hp']; subst.
    destruct fuel as [|fuel]; [simpl in Hf; lia|].
    assert (Hi : nth_error line i = Some c) by (rewrite <- (Nat.add_0_r i), Hn; [reflexivity|simpl; lia]).
    rewrite (linenumber_loop_step fuel line i c e Hi) by (simpl in Hl; lia).
    rewrite Hc. simpl negb. cbv iota. rewrite (IH (S i) fuel Hp').
    + simpl length. replace (S fuel - S (length seg))%nat with (fuel - length seg)%nat by lia.
      replace (S i + length seg)%nat with (i + S (length seg))%nat by lia. reflexivity.
    + intros k Hk. replace (S i + k)%nat with (i + S k)%nat by lia. apply Hn. simpl. lia.
    + simpl in Hl. lia.
    + simpl in Hf. lia.
Qed.


Lemma nth_shift {A} (P S : list A) (i : nat) :
  nth_error (P ++ S) (length P + i) = nth_error S i.
Proof. rewrite nth_error_app2 by lia. f_equal. lia. Qed.

Lemma at_prefix {A} (P S : list A) (i : Z) :
  0 <= i < len P -> at_ (P ++ S) i = at_ P i.
Proof.
  intros H. unfold at_, len in *. rewrite length_app.
  replace ((0 <=? i) && (i <? Z.of_nat (length P + length S))) with true
    by (symmetry; apply andb_true_iff; split; [apply Z.leb_le|apply Z.ltb_lt]; lia).
  replace ((0 <=? i) && (i <? Z.of_nat (length P))) with true
    by (symmetry; apply andb_true_iff; split; [apply Z.leb_le|apply Z.ltb_lt]; lia).
  rewrite nth_error_app1 by lia. reflexivity.
Qed.

Lemma ranges_ok_prefix (P S : list byte) (rs : list (Z * byte * byte)) :
  Forall (fun r => 0 <= fst (fst r) < len P) rs ->
  ranges_ok (P ++ S) rs = ranges_ok P rs.
Proof.
  induction rs as [|[[i lo] hi] rs IH]; intros H; [reflexivity|].
  inversion H as [|? ? Hi Hrs]; subst. simpl in Hi. simpl.
  rewrite (at_prefix P S i Hi). destruct (at_ P i); simpl; try reflexivity.
  destruct (out_of _ lo hi); [reflexivity|]. apply IH. exact Hrs.
Qed.

Lemma slice_mid {A} (P M S : list A) :
  slice (P ++ M ++ S) (len P) (len P + len M) = Ok M.
Proof.
  unfold slice, len. rewrite !length_app.
  replace ((0 <=? Z.of_nat (length P)) && (Z.of_nat (length P) <=? Z.of_nat (length P) + Z.of_nat (length M)) &&
      (Z.of_nat (length P) + Z.of_nat (length M) <=? Z.of_nat (length P + (length M + length S)))) with true
    by (symmetry; rewrite !andb_true_iff; rewrite !Z.leb_le; lia).
  replace (Z.to_nat (Z.of_nat (length P) + Z.of_nat (length M) - Z.of_nat (length P))) with (length M) by lia.
  rewrite Nat2Z.id, List.skipn_app, List.skipn_all, Nat.sub_diag. simpl.
  rewrite skipn_O, List.firstn_app, List.firstn_all, Nat.sub_diag. simpl. rewrite app_nil_r. reflexivity.
Qed.

Lemma is_digit_out_of (c : byte) : is_digit c -> out_of c "0"%byte "9"%byte = false.
Proof. intros [d H]. unfold digit_val in H. destruct (out_of _ _ _); [discriminate|reflexivity]. Qed.

Ltac len_simpl := repeat (progress (rewrite ?length_app; simpl length)).

Ltac zcmp :=
  repeat match goal with
  | |- context [Z.eqb ?a ?b] => destruct (Z.eqb_spec a b); try (exfalso; lia)
  | |- context [Z.ltb ?a ?b] => destruct (Z.ltb_spec a b); try (exfalso; lia)
  | |- context [Z.leb ?a ?b] => destruct (Z.leb_spec a b); try (exfalso; lia)
  end.

(** X13: [ParseLine] reads back a well-formed klog line: a 30-byte header
    passing its checks, [dir/file:] of path characters, the decimal line
    number [n] with [0 <= n < 2^63], "] ", the message and one last byte
    yield the source file [dir/file], line number [n], the header's
    severity and the message without its last byte. *)
Theorem ParseLine_roundtrip (hdr dir file msg : list byte) (sev n : Z) (x : byte) :
  klog_header_ok hdr sev ->
  dir <> [] -> Forall (fun c => is_path_char c = true) dir ->
  file <> [] -> Forall (fun c => is_path_char c = true) file ->
  0 <= n < 2 ^ 63 ->
  ParseLine (hdr ++ dir ++ "/"%byte :: file ++ ":"%byte :: Itoa n ++
             "]"%byte :: " "%byte :: msg ++ [x])
  = Ok (mkParsedLog (dir ++ "/"%byte :: file) n sev msg, true).
Proof.
  intros (Hh & (c0 & H0 & Hsev) & H5 & H21 & H29 & Hr & Ht) Hd Hdp Hf Hfp Hn.
  assert (Hds : Forall is_digit (Itoa n) /\ Itoa n <> []).
  { unfold Itoa. replace (n <? 0) with false by (symmetry; apply Z.ltb_ge; lia).
    destruct (Itoa_digits (Z.abs n) (Z.abs_nonneg n)) as (? & ? & _). split; assumption. }
  destruct Hds as [Hdig Hdne].
  pose proof (Atoi_Itoa_int64 n ltac:(lia)) as Hatoi.
  set (ds := Itoa n) in *.
  set (L := hdr ++ dir ++ "/"%byte :: file ++ ":"%byte :: ds ++ "]"%byte :: " "%byte :: msg ++ [x]).
  assert (Ha : (1 <= length dir)%nat) by (destruct dir; [contradiction|simpl; lia]).
  assert (Hb : (1 <= length file)%nat) by (destruct file; [contradiction|simpl; lia]).
  assert (Hm : (1 <= length ds)%nat) by (destruct ds; [contradiction|simpl; lia]).
  assert (HL : length L = (35 + length dir + length file + length ds + length msg)%nat).
  { unfold L. len_simpl. lia. }
  (* positions in the line *)
  assert (Pdir : forall i, (i < length dir)%nat -> nth_error L (30 + i) = nth_error dir i).
  { intros i Hi. unfold L. rewrite <- Hh, nth_shift. apply nth_error_app1. exact Hi. }
  assert (Pslash : nth_error L (30 + length dir) = Some "/"%byte).
  { unfold L. rewrite <- Hh, nth_shift, <- (Nat.add_0_r (length dir)), nth_shift. reflexivity. }
  assert (Pfile : forall i, (i < length file)%nat -> nth_error L (30 + length dir + 1 + i) = nth_error file i).
  { intros i Hi. unfold L. rewrite <- Hh. replace (length hdr + length dir + 1 + i)%nat with (length hdr + (length dir + (1 + i)))%nat by lia.
    rewrite nth_shift, nth_shift. simpl. apply nth_error_app1. exact Hi. }
  assert (Pcolon : nth_error L (31 + length dir + length file) = Some ":"%byte).
  { unfold L. replace (31 + length dir + length file)%nat with (length hdr + (length dir + (1 + (length file + 0))))%nat by lia.
    rewrite nth_shift, nth_shift. simpl. rewrite nth_shift. reflexivity. }
  assert (Pds : forall i, (i < length ds)%nat -> nth_error L (32 + length dir + length file + i) = nth_error ds i).
  { intros i Hi. unfold L. replace (32 + length dir + length file + i)%nat with (length hdr + (length dir + (1 + (length file + (1 + i)))))%nat by lia.
    rewrite nth_shift, nth_shift. simpl. rewrite nth_shift. simpl. apply nth_error_app1. exact Hi. }
  assert (Pbr : nth_error L (32 + length dir + length file + length ds) = Some "]"%byte).
  { unfold L. replace (32 + length dir + length file + length ds)%nat with (length hdr + (length dir + (1 + (length file + (1 + (length ds + 0))))))%nat by lia.
    rewrite nth_shift, nth_shift. simpl. rewrite nth_shift. simpl. rewrite nth_shift. reflexivity. }
  assert (Psp : nth_error L (33 + length dir + length file + length ds) = Some " "%byte).
  { unfold L. replace (33 + length dir + length file + length ds)%nat with (length hdr + (length dir + (1 + (length file + (1 + (length ds + 1))))))%nat by lia.
    rewrite nth_shift, nth_shift. simpl. rewrite nth_shift. simpl. rewrite nth_shift. reflexivity. }
  assert (Phdr : forall i, (i < 30)%nat -> nth_error L i = nth_error hdr i).
  { intros i Hi. unfold L. apply nth_error_app1. lia. }
  (* the header *)
  assert (E5 : at_ L 5 = Ok " "%byte) by (apply (at_nth L 5); rewrite Phdr by lia; exact H5).
  assert (E21 : at_ L 21 = Ok " "%byte) by (apply (at_nth L 21); rewrite Phdr by lia; exact H21).
  assert (E29 : at_ L 29 = Ok " "%byte) by (apply (at_nth L 29); rewrite Phdr by lia; exact H29).
  assert (E0 : at_ L 0 = Ok c0) by (apply (at_nth L 0); rewrite Phdr by lia; exact H0).
  assert (ER : ranges_ok L header_ranges = Ok true).
  { unfold L. rewrite ranges_ok_prefix; [exact Hr|].
    unfold len. rewrite Hh. repeat constructor; simpl; lia. }
  assert (ET : slice L 22 29 = Ok (firstn 7 (skipn 22 hdr))).
  { unfold slice. replace ((0 <=? 22) && (22 <=? 29) && (29 <=? len L)) with true
      by (symmetry; unfold len; rewrite HL; rewrite !andb_true_iff, !Z.leb_le; lia).
    f_equal. unfold L. simpl (Z.to_nat _). rewrite List.skipn_app, List.firstn_app.
    rewrite length_skipn, Hh. simpl. rewrite app_nil_r. reflexivity. }
  (* the file name loop *)
  assert (EF : filename_loop (length L) L 30 0 0 0 =
               Ok (Z.of_nat (31 + length dir + length file), Z.of_nat (30 + length dir), Z.of_nat (31 + length dir), Z.of_nat (31 + length dir + length file))).
  { change 30 with (Z.of_nat 30).
    rewrite (filename_loop_run L dir (length L) 30 0 0 0 Hdp) by (try (intros; apply Pdir); lia).
    replace (length L - length dir)%nat with (S (length L - length dir - 1)) by lia.
    rewrite (filename_loop_step _ L (30 + length dir) "/"%byte 0 0 0 Pslash) by lia.
    change (is_path_char "/"%byte) with false. change (beq "/"%byte "/"%byte) with true. cbv iota.
    rewrite (filename_loop_run L file _ (S (30 + length dir)) _ _ _ Hfp)
      by (try (intros j Hj; replace (S (30 + length dir) + j)%nat with (30 + length dir + 1 + j)%nat by lia; apply Pfile); lia).
    replace (length L - length dir - 1 - length file)%nat with (S (length L - length dir - 1 - length file - 1)) by lia.
    rewrite (filename_loop_step _ L (S (30 + length dir) + length file) ":"%byte _ _ _)
      by (try (replace (S (30 + length dir) + length file)%nat with (31 + length dir + length file)%nat by lia; exact Pcolon); lia).
    change (is_path_char ":"%byte) with false. change (beq ":"%byte "/"%byte) with false.
    change (beq ":"%byte ":"%byte) with true. cbv iota.
    repeat f_equal; lia. }
  (* the line number loop *)
  assert (EN : linenumber_loop (length L) L (Z.of_nat (31 + length dir + length file) + 1) 0 =
               Ok (Z.of_nat (32 + length dir + length file + length ds), Z.of_nat (32 + length dir + length file + length ds))).
  { replace (Z.of_nat (31 + length dir + length file) + 1) with (Z.of_nat (32 + length dir + length file)) by lia.
    rewrite (linenumber_loop_run L ds (length L) (32 + length dir + length file) 0)
      by (try (eapply Forall_impl; [exact Hdig|exact is_digit_out_of]);
          try (intros; apply Pds); lia).
    replace (length L - length ds)%nat with (S (length L - length ds - 1)) by lia.
    rewrite (linenumber_loop_step _ L (32 + length dir + length file + length ds) "]"%byte 0 Pbr) by lia.
    reflexivity. }
  assert (ESP : at_ L (Z.of_nat (32 + length dir + length file + length ds) + 1) = Ok " "%byte).
  { replace (Z.of_nat (32 + length dir + length file + length ds) + 1) with (Z.of_nat (33 + length dir + length file + length ds)) by lia.
    apply at_nth. exact Psp. }
  assert (ENUM : slice L (Z.of_nat (31 + length dir + length file) + 1) (Z.of_nat (32 + length dir + length file + length ds)) = Ok ds).
  { replace L with ((hdr ++ dir ++ "/"%byte :: file ++ [":"%byte]) ++ ds ++ "]"%byte :: " "%byte :: msg ++ [x])
      by (unfold L; repeat (rewrite <- app_assoc || (progress simpl)); reflexivity).
    replace (Z.of_nat (31 + length dir + length file) + 1) with (len (hdr ++ dir ++ "/"%byte :: file ++ [":"%byte]))
      by (unfold len; len_simpl; lia).
    replace (Z.of_nat (32 + length dir + length file + length ds)) with (len (hdr ++ dir ++ "/"%byte :: file ++ [":"%byte]) + len ds)
      by (unfold len; len_simpl; lia).
    apply slice_mid. }
  assert (ESF : slice L 30 (Z.of_nat (31 + length dir + length file)) = Ok (dir ++ "/"%byte :: file)).
  { replace L with (hdr ++ (dir ++ "/"%byte :: file) ++ ":"%byte :: ds ++ "]"%byte :: " "%byte :: msg ++ [x])
      by (unfold L; repeat (rewrite <- app_assoc || (progress simpl)); reflexivity).
    replace 30 with (len hdr) by (unfold len; rewrite Hh; reflexivity).
    replace (Z.of_nat (31 + length dir + length file)) with (len hdr + len (dir ++ "/"%byte :: file))
      by (unfold len; len_simpl; lia).
    apply slice_mid. }
  assert (EMSG : slice L (Z.of_nat (32 + length dir + length file + length ds) + 1 + 1) (len L - 1) = Ok msg).
  { replace L with ((hdr ++ dir ++ "/"%byte :: file ++ ":"%byte :: ds ++ ["]"%byte; " "%byte]) ++ msg ++ [x])
      by (unfold L; repeat (rewrite <- app_assoc || (progress simpl)); reflexivity).
    replace (Z.of_nat (32 + length dir + length file + length ds) + 1 + 1) with (len (hdr ++ dir ++ "/"%byte :: file ++ ":"%byte :: ds ++ ["]"%byte; " "%byte]))
      by (unfold len; len_simpl; lia).
    replace (len ((hdr ++ dir ++ "/"%byte :: file ++ ":"%byte :: ds ++ ["]"%byte; " "%byte]) ++ msg ++ [x]) - 1)
      with (len (hdr ++ dir ++ "/"%byte :: file ++ ":"%byte :: ds ++ ["]"%byte; " "%byte]) + len msg)
      by (unfold len; len_simpl; lia).
    apply slice_mid. }
  unfold ParseLine. fold L.
  assert (HLz : len L = Z.of_nat (35 + length dir + length file + length ds + length msg)) by (unfold len; rewrite HL; reflexivity).
  rewrite HLz. zcmp.
  rewrite E5, E21, E29. cbn [mbind outcome_bind].
  change (beq " "%byte " "%byte) with true. simpl negb. cbv iota.
  rewrite E0. cbn [mbind outcome_bind]. rewrite Hsev.
  rewrite ER. cbn [mbind outcome_bind negb]. rewrite ET. cbn [mbind outcome_bind]. rewrite Ht. cbn [negb].
  rewrite EF. cbn [mbind outcome_bind]. zcmp.
  rewrite EN. cbn [mbind outcome_bind]. zcmp.
  rewrite ESP. cbn [mbind outcome_bind]. change (beq " "%byte " "%byte) with true. cbn [negb].
  rewrite ENUM. cbn [mbind outcome_bind]. rewrite Hatoi. cbv beta iota zeta.
  rewrite ESF. cbn [mbind outcome_bind]. rewrite <- HLz, EMSG. reflexivity.
Qed.

(** ** printEntries and the missed listing *)

Section PrintProofs.
Variable deref : ptr -> LogStatement.
Variable ToLower : list byte -> list byte.
Variable fullPaths : bool.
Variable severityFilter : list (list byte).

Lemma print_rows_In (m : gmap Z bool) (i0 : Z) (entries : list MatchEntry) (r : PrintedRow) :
  In r (print_rows deref fullPaths m i0 entries) <->
  exists i e, nth_error entries i = Some e /\ default false (m !! Severity (deref (Log e))) = true /\
              r = entry_row deref fullPaths (i0 + Z.of_nat i) e.
Proof.
  revert i0. induction entries as [|e es IH]; intros i0; simpl.
  - split; [contradiction|]. intros (i & e & H & _). destruct i; discriminate.
  - destruct (default false (m !! Severity (deref (Log e)))) eqn:Es.
    + simpl. rewrite IH. split.
      * intros [<-|(i & e' & H1 & H2 & ->)].
        -- exists 0%nat, e. split; [reflexivity|]. split; [exact Es|]. f_equal. lia.
        -- exists (S i), e'. split; [exact H1|]. split; [exact H2|]. f_equal. lia.
      * intros ([|i] & e' & H1 & H2 & ->).
        -- injection H1 as <-. left. f_equal. lia.
        -- right. exists i, e'. split; [exact H1|]. split; [exact H2|]. f_equal. lia.
    + rewrite IH. split.
      * intros (i & e' & H1 & H2 & ->). exists (S i), e'. split; [exact H1|]. split; [exact H2|]. f_equal. lia.
      * intros ([|i] & e' & H1 & H2 & ->).
        -- injection H1 as <-. rewrite Es in H2. discriminate.
        -- exists i, e'. split; [exact H1|]. split; [exact H2|]. f_equal. lia.
Qed.

Lemma print_rows_sorted (m : gmap Z bool) (i0 : Z) (entries : list MatchEntry) :
  Forall (fun r => i0 < row_index r) (print_rows deref fullPaths m i0 entries) /\
  StronglySorted (fun r1 r2 => row_index r1 < row_index r2) (print_rows deref fullPaths m i0 entries).
Proof.
  revert i0. induction entries as [|e es IH]; intros i0; simpl; [split; constructor|].
  destruct (IH (i0 + 1)) as [H1 H2].
  destruct (default false _); [|split; [eapply Forall_impl; [exact H1|]; intros r Hr; cbv beta in *; lia|exact H2]].
  split.
  - constructor; [simpl; lia|]. eapply Forall_impl; [exact H1|]. intros r Hr; cbv beta in *; lia.
  - constructor; [exact H2|]. eapply Forall_impl; [exact H1|]. intros r Hr. cbv beta in *. simpl. lia.
Qed.

Lemma all_severities_lookup (b : bool) (s : Z) :
  default false (all_severities b !! s) = if (0 <=? s) && (s <=? 3) then b else false.
Proof.
  unfold all_severities.
  destruct (decide (s = 0)) as [->|H0]; [rewrite lookup_insert_eq; reflexivity|].
  rewrite lookup_insert_ne by congruence.
  destruct (decide (s = 1)) as [->|H1]; [rewrite lookup_insert_eq; reflexivity|].
  rewrite lookup_insert_ne by congruence.
  destruct (decide (s = 2)) as [->|H2]; [rewrite lookup_insert_eq; reflexivity|].
  rewrite lookup_insert_ne by congruence.
  destruct (decide (s = 3)) as [->|H3]; [rewrite lookup_insert_eq; reflexivity|].
  rewrite lookup_insert_ne by congruence. rewrite lookup_empty.
  destruct ((0 <=? s) && (s <=? 3)) eqn:E; [|reflexivity].
  apply andb_true_iff in E as [E1 E2]. apply Z.leb_le in E1. apply Z.leb_le in E2. exfalso. lia.
Qed.

Lemma severity_case_range (f : list byte) (s : Z) :
  severity_case ToLower f = Some s -> 0 <= s <= 3.
Proof.
  unfold severity_case. repeat case_match; intros Hs; try discriminate Hs; injection Hs as <-; lia.
Qed.

Lemma filter_fold_lookup (fs : list (list byte)) (m : gmap Z bool) (s : Z) :
  default false (fold_left (fun m f => match severity_case ToLower f with
                                       | Some s => <[s := true]> m
                                       | None => m
                                       end) fs m !! s) = true <->
  default false (m !! s) = true \/ exists f, In f fs /\ severity_case ToLower f = Some s.
Proof.
  revert m. induction fs as [|f fs IH]; intros m; simpl.
  - split; [left; exact H|]. intros [H|(f & [] & _)]. exact H.
  - rewrite IH. destruct (severity_case ToLower f) as [s'|] eqn:Ef.
    + destruct (decide (s' = s)) as [<-|Hne].
      * rewrite lookup_insert_eq. simpl. split; [intros _; right; exists f; split; [left; reflexivity|exact Ef]|].
        intros _. left. reflexivity.
      * rewrite lookup_insert_ne by exact Hne. split.
        -- intros [H|(g & Hg & Hgs)]; [left; exact H|right; exists g; split; [right; exact Hg|exact Hgs]].
        -- intros [H|(g & [<-|Hg] & Hgs)]; [left; exact H| |right; exists g; split; assumption].
           rewrite Ef in Hgs. injection Hgs as ->. contradiction.
    + split.
      * intros [H|(g & Hg & Hgs)]; [left; exact H|right; exists g; split; [right; exact Hg|exact Hgs]].
      * intros [H|(g & [<-|Hg] & Hgs)]; [left; exact H| |right; exists g; split; assumption].
        rewrite Ef in Hgs. discriminate.
Qed.

Lemma severity_filter_map_selected (s : Z) :
  default false (severity_filter_map ToLower severityFilter !! s) = true <->
  severity_selected ToLower severityFilter s.
Proof.
  unfold severity_filter_map, severity_selected, len.
  destruct severityFilter as [|f0 fs].
  - simpl. rewrite all_severities_lookup. destruct ((0 <=? s) && (s <=? 3)) eqn:E.
    + apply andb_true_iff in E as [E1 E2]. apply Z.leb_le in E1. apply Z.leb_le in E2.
      split; [intros _; lia|reflexivity].
    + split; [discriminate|]. intros H. apply andb_false_iff in E as [E|E];
        [apply Z.leb_gt in E|apply Z.leb_gt in E]; lia.
  - replace (0 <? Z.of_nat (length (f0 :: fs))) with true
      by (symmetry; apply Z.ltb_lt; simpl length; lia).
    rewrite filter_fold_lookup, all_severities_lookup.
    destruct ((0 <=? s) && (s <=? 3)); (split; [intros [H|H]; [discriminate|exact H]|intros H; right; exact H]).
Qed.

End PrintProofs.

(** X14: [printEntries] prints, in the order of the list, exactly the
    entries whose statement has a selected severity; each row shows the
    entry's 1-based position in the whole list. *)
Theorem printEntries_rows (deref : ptr -> LogStatement) (ToLower : list byte -> list byte)
    (fullPaths : bool) (severityFilter : list (list byte)) (entries : list MatchEntry) :
  (forall r, In r (printEntries deref ToLower fullPaths severityFilter entries) <->
     exists i e, nth_error entries i = Some e /\
       severity_selected ToLower severityFilter (Severity (deref (Log e))) /\
       r = entry_row deref fullPaths (Z.of_nat i) e) /\
  StronglySorted (fun r1 r2 => row_index r1 < row_index r2)
    (printEntries deref ToLower fullPaths severityFilter entries).
Proof.
  split.
  - intros r. unfold printEntries. rewrite print_rows_In.
    split; intros (i & e & H1 & H2 & H3); exists i, e; split; try exact H1;
      (split; [apply severity_filter_map_selected; exact H2|exact H3]).
  - apply print_rows_sorted.
Qed.

Lemma insert_rev_perm (less : MatchEntry -> MatchEntry -> bool) (x : MatchEntry) (rs : list MatchEntry) :
  Permutation (insert_rev less x rs) (x :: rs).
Proof.
  induction rs as [|y ys IH]; simpl; [reflexivity|].
  destruct (less x y); [|reflexivity].
  rewrite IH. apply perm_swap.
Qed.

Lemma sort_Slice_perm (less : MatchEntry -> MatchEntry -> bool) (entries : list MatchEntry) :
  Permutation (sort_Slice less entries) entries.
Proof.
  unfold sort_Slice. rewrite <- Permutation_rev.
  assert (H : forall acc, Permutation (fold_left (fun acc x => insert_rev less x acc) entries acc)
                                      (entries ++ acc)).
  { induction entries as [|x es IH]; intros acc; simpl; [reflexivity|].
    rewrite IH, insert_rev_perm. symmetry. apply Permutation_middle. }
  rewrite H, app_nil_r. reflexivity.
Qed.

(** X15: [Severity.String] gives back the letter [ParseLine] reads for a
    severity, and "?" exactly outside 0..3; [printEntries] never prints a
    "?" row. *)
Theorem Severity_String_letters (deref : ptr -> LogStatement) (ToLower : list byte -> list byte)
    (fullPaths : bool) (severityFilter : list (list byte)) (entries : list MatchEntry) :
  (forall c s, severity_of c = Some s -> Severity_String s = [c]) /\
  (forall s, Severity_String s = bs "?" <-> ~ (0 <= s <= 3)) /\
  (forall r, In r (printEntries deref ToLower fullPaths severityFilter entries) ->
     row_severity r <> bs "?").
Proof.
  assert (Hq : forall s, Severity_String s = bs "?" <-> ~ (0 <= s <= 3)).
  { intros s. unfold Severity_String.
    destruct (Z.eqb_spec s 0); [split; [discriminate|lia]|].
    destruct (Z.eqb_spec s 1); [split; [discriminate|lia]|].
    destruct (Z.eqb_spec s 2); [split; [discriminate|lia]|].
    destruct (Z.eqb_spec s 3); [split; [discriminate|lia]|].
    split; [lia|reflexivity]. }
  split; [|split; [exact Hq|]].
  - intros c s H. unfold severity_of in H.
    destruct (beq c "I"%byte) eqn:EI; [apply Byte.byte_dec_bl in EI; subst; injection H as <-; reflexivity|].
    destruct (beq c "W"%byte) eqn:EW; [apply Byte.byte_dec_bl in EW; subst; injection H as <-; reflexivity|].
    destruct (beq c "E"%byte) eqn:EE; [apply Byte.byte_dec_bl in EE; subst; injection H as <-; reflexivity|].
    destruct (beq c "F"%byte) eqn:EF; [apply Byte.byte_dec_bl in EF; subst; injection H as <-; reflexivity|].
    discriminate H.
  - intros r Hr. unfold printEntries in Hr. apply print_rows_In in Hr as (i & e & _ & Hsel & ->).
    apply severity_filter_map_selected in Hsel. simpl. rewrite Hq. intros Hn. apply Hn.
    unfold severity_selected in Hsel. destruct severityFilter; [exact Hsel|].
    destruct Hsel as (f & _ & Hf). apply (severity_case_range ToLower f). exact Hf.
Qed.

(** X19: [SortMatches] only reorders: its result holds each entry [range]
    visits exactly once, a nil bucket as an empty [Hits]. *)
Theorem SortMatches_perm (deref : ptr -> LogStatement)
    (results : list (ptr * option (list ParsedLog))) :
  Permutation (SortMatches deref results)
              (map (fun '(k, v) => mkMatchEntry k (default [] v)) results).
Proof.
  unfold SortMatches. rewrite sort_Slice_perm.
  apply Permutation_refl'. apply map_ext. intros [k [v|]]; reflexivity.
Qed.

(** X16: every row of the [--missed] listing shows 0 hits and a statement of
    the search map that has no bucket in the aggregated matches, for any order
    in which [range] visits [FindMissed]'s result. *)
Theorem missed_rows_no_hits (deref : ptr -> LogStatement) (ToLower : list byte -> list byte)
    (fullPaths : bool) (severityFilter : list (list byte))
    (sm : SearchMap) (aggregated : Matches) (rl : list (ptr * option (list ParsedLog))) :
  Permutation rl (map_to_list (FindMissed sm aggregated)) ->
  forall r, In r (printEntries deref ToLower fullPaths severityFilter (SortMatches deref rl)) ->
    row_hits r = 0 /\
    exists fp v, sm !! fp = Some v /\ aggregated !! v = None /\
                 row_format r = FormatString (deref v) /\
                 row_filename r = formatFilename fullPaths (deref v).
Proof.
  intros Hp r Hr. unfold printEntries in Hr. apply print_rows_In in Hr as (i & e & He & _ & ->).
  apply nth_error_In in He. unfold SortMatches in He.
  apply (Permutation_in _ (sort_Slice_perm _ _)) in He.
  apply in_map_iff in He as ([k v] & Hkv & Hin).
  apply (Permutation_in _ Hp) in Hin. apply list_elem_of_In in Hin. apply elem_of_map_to_list in Hin.
  destruct (FindMissed_lookup_core sm aggregated k) as [[H1 _] [H2|H2]]; rewrite Hin in H2; [discriminate|].
  injection H2 as ->. subst e. destruct (H1 Hin) as [[fp Hfp] Ha].
  split; [reflexivity|]. exists fp, k. split; [exact Hfp|]. split; [exact Ha|]. split; reflexivity.
Qed.

(** ** resolveSeverity *)

Section ResolveProofs.
Variable ToLower : list byte -> list byte.

Lemma at_last (kw : list byte) (c0 : byte) (rest : list byte) :
  kw = c0 :: rest -> at_ kw (len kw - 1) = Ok (List.last kw c0).
Proof.
  intros ->. unfold at_, len.
  replace ((0 <=? Z.of_nat (length (c0 :: rest)) - 1) &&
           (Z.of_nat (length (c0 :: rest)) - 1 <? Z.of_nat (length (c0 :: rest)))) with true
    by (symmetry; simpl length; apply andb_true_iff; split; [apply Z.leb_le|apply Z.ltb_lt]; lia).
  replace (Z.to_nat (Z.of_nat (length (c0 :: rest)) - 1)) with (length rest) by (simpl length; lia).
  assert (H : forall d, nth_error (c0 :: rest) (length rest) = Some (List.last (c0 :: rest) d)).
  { clear. revert c0. induction rest as [|c rest IH]; intros c0 d; [reflexivity|].
    simpl length. cbn [nth_error]. rewrite (IH c d). reflexivity. }
  rewrite (H c0). reflexivity.
Qed.

Lemma slice_tail (kw : list byte) : kw <> [] -> slice kw 1 (len kw) = Ok (skipn 1 kw).
Proof.
  intros H. destruct kw as [|c rest]; [contradiction|]. unfold slice, len. simpl length.
  replace ((0 <=? 1) && (1 <=? Z.of_nat (S (length rest))) && (Z.of_nat (S (length rest)) <=? Z.of_nat (S (length rest))))
    with true by (symmetry; rewrite !andb_true_iff, !Z.leb_le; lia).
  replace (Z.to_nat (Z.of_nat (S (length rest)) - 1)) with (length rest) by lia.
  simpl. rewrite firstn_all. reflexivity.
Qed.

Lemma slice_init (kw : list byte) : kw <> [] -> slice kw 0 (len kw - 1) = Ok (removelast kw).
Proof.
  intros H. unfold slice, len.
  destruct kw as [|c rest]; [contradiction|]. simpl length.
  replace ((0 <=? 0) && (0 <=? Z.of_nat (S (length rest)) - 1) &&
           (Z.of_nat (S (length rest)) - 1 <=? Z.of_nat (S (length rest))))
    with true by (symmetry; rewrite !andb_true_iff, !Z.leb_le; lia).
  replace (Z.to_nat (Z.of_nat (S (length rest)) - 1 - 0)) with (length rest) by lia.
  simpl skipn. f_equal.
  rewrite (app_removelast_last c (l := c :: rest)) at 1 by discriminate.
  rewrite List.firstn_app.
  assert (Hl : length (removelast (c :: rest)) = length rest).
  { pose proof (app_removelast_last c (l := c :: rest) ltac:(discriminate)) as E.
    apply (f_equal (@length byte)) in E. rewrite length_app in E. cbn [length] in E. lia. }
  rewrite <- Hl, firstn_all, Nat.sub_diag. simpl. apply app_nil_r.
Qed.

Lemma resolve_loop_cons (u kw : list byte) (rest : list (list byte)) :
  kw <> [] ->
  resolve_loop ToLower u (kw :: rest) =
  if keyword_matches ToLower u kw then Ok 2 else resolve_loop ToLower u rest.
Proof.
  intros H. destruct kw as [|c0 r] eqn:Ekw; [contradiction|].
  cbn [resolve_loop keyword_matches]. rewrite <- Ekw.
  assert (E0 : at_ kw 0 = Ok c0) by (rewrite Ekw; reflexivity).
  rewrite E0. cbn [mbind outcome_bind].
  destruct (beq c0 "^"%byte).
  - rewrite (slice_tail kw ltac:(rewrite Ekw; discriminate)). cbn [mbind outcome_bind].
    reflexivity.
  - rewrite (at_last kw c0 r Ekw). cbn [mbind outcome_bind].
    destruct (beq (List.last kw c0) "$"%byte).
    + rewrite (slice_init kw ltac:(rewrite Ekw; discriminate)). reflexivity.
    + reflexivity.
Qed.

Lemma resolve_loop_nonempty (u : list byte) (kws : list (list byte)) :
  Forall (fun kw => kw <> []) kws ->
  resolve_loop ToLower u kws = if existsb (keyword_matches ToLower u) kws then Ok 2 else Ok 0.
Proof.
  induction kws as [|kw kws IH]; intros H; [reflexivity|].
  inversion H as [|? ? Hk Hks]; subst.
  rewrite resolve_loop_cons by exact Hk. simpl.
  destruct (keyword_matches ToLower u kw); [reflexivity|]. apply IH. exact Hks.
Qed.

Lemma resolve_loop_app (u : list byte) (pre post : list (list byte)) :
  Forall (fun kw => kw <> []) pre ->
  resolve_loop ToLower u (pre ++ post) =
  if existsb (keyword_matches ToLower u) pre then Ok 2 else resolve_loop ToLower u post.
Proof.
  induction pre as [|kw pre IH]; intros H; [reflexivity|].
  inversion H as [|? ? Hk Hks]; subst.
  simpl app. rewrite resolve_loop_cons by exact Hk. simpl.
  destruct (keyword_matches ToLower u kw); [reflexivity|]. apply IH. exact Hks.
Qed.

Lemma existsb_perm {A} (f : A -> bool) (l l' : list A) :
  Permutation l l' -> existsb f l = existsb f l'.
Proof.
  intros Hp. destruct (existsb f l) eqn:E1, (existsb f l') eqn:E2; try reflexivity.
  - apply existsb_exists in E1 as (x & Hx & Hf).
    apply (Permutation_in _ Hp) in Hx.
    assert (existsb f l' = true) by (apply existsb_exists; exists x; split; assumption). congruence.
  - apply existsb_exists in E2 as (x & Hx & Hf).
    apply (Permutation_in _ (Permutation_sym Hp)) in Hx.
    assert (existsb f l = true) by (apply existsb_exists; exists x; split; assumption). congruence.
Qed.

End ResolveProofs.

(** X17: when every error keyword is non-empty, their order does not matter:
    [resolveSeverity] gives the same result for any permutation, and that
    result is the severity unchanged or [SeverityError]. *)
Theorem resolveSeverity_keyword_order (ToLower : list byte -> list byte)
    (message : list byte) (severity : Z) (kws kws' : list (list byte)) :
  Forall (fun kw => kw <> []) kws -> Permutation kws kws' ->
  resolveSeverity ToLower message severity kws = resolveSeverity ToLower message severity kws' /\
  (resolveSeverity ToLower message severity kws = Ok severity \/
   resolveSeverity ToLower message severity kws = Ok 2).
Proof.
  intros Hne Hp. unfold resolveSeverity.
  destruct (negb (severity =? 0)) eqn:Es; [split; [reflexivity|left; reflexivity]|].
  apply negb_false_iff, Z.eqb_eq in Es. subst severity.
  assert (Hne' : Forall (fun kw => kw <> []) kws')
    by (apply List.Forall_forall; intros x Hx; apply (Permutation_in _ (Permutation_sym Hp)) in Hx;
        rewrite List.Forall_forall in Hne; apply Hne; exact Hx).
  rewrite !resolve_loop_nonempty by assumption.
  rewrite (existsb_perm _ _ _ Hp).
  split; [reflexivity|]. destruct (existsb _ kws'); [right|left]; reflexivity.
Qed.

(** X18: a bare "^" or "$" keyword, reached after non-empty keywords, turns
    every Info message into an error; an empty keyword reached there
    panics when none of the earlier keywords matched (and the result is
    Error when one did). *)
Theorem resolveSeverity_bare_anchor (ToLower : list byte -> list byte)
    (message : list byte) (pre post : list (list byte)) :
  ToLower [] = [] -> Forall (fun kw => kw <> []) pre ->
  resolveSeverity ToLower message 0 (pre ++ bs "^" :: post) = Ok 2 /\
  resolveSeverity ToLower message 0 (pre ++ bs "$" :: post) = Ok 2 /\
  resolveSeverity ToLower message 0 (pre ++ [] :: post) =
    (if existsb (keyword_matches ToLower (ToLower (Trim [" "%byte; dquote] message))) pre
     then Ok 2 else Panic "index out of range"%string).
Proof.
  intros HL Hpre. unfold resolveSeverity. simpl negb. cbv iota zeta.
  rewrite !resolve_loop_app by exact Hpre.
  destruct (existsb _ pre); [split; [|split]; reflexivity|].
  split; [|split; [|reflexivity]].
  - rewrite resolve_loop_cons by discriminate. cbn. rewrite HL. unfold HasPrefix. simpl. reflexivity.
  - rewrite resolve_loop_cons by discriminate. cbn. rewrite HL. unfold HasSuffix. simpl.
    rewrite Nat.sub_0_r, skipn_all. reflexivity.
Qed.

(** ** Witnesses of the properties above *)

Lemma Atoi_Itoa_witness :
  - 2 ^ 63 <= - 9223372036854775808 < 2 ^ 63 /\
  Atoi (Itoa (- 9223372036854775808)) = (- 9223372036854775808, None).
Proof. split; [lia|]. apply Atoi_Itoa. lia. Defined.

Lemma Match_aggregate_buckets_witness :
  Match_run (fun d => d) no_json sample_sm sample_archive 4%nat [] zeroCounters
    (Ok (sample_result zeroCounters))
    (snd (run_matchers (fun d => d) sample_sm (concat sample_scheds) zeroCounters)) /\
  accepted_records no_json sample_archive (4 / 4) [] = Ok [S1_record] /\
  AggregateResults (Matched (sample_result zeroCounters)) = Ok (<[0%nat := [S1_record]]> ∅) /\
  opt_perm ((<[0%nat := [S1_record]]> ∅ : Matches) !! 0%nat)
    (to_opt (hits_for (fun d => d) sample_sm 0%nat [S1_record])).
Proof.
  split; [apply sample_Match_run|]. split; [apply sample_accepted|].
  split; [vm_compute; reflexivity|].
  apply (Match_aggregate_buckets (fun d => d) no_json sample_sm sample_archive 4%nat []
           zeroCounters (sample_result zeroCounters) _ [S1_record] (<[0%nat := [S1_record]]> ∅)
           (sample_Match_run zeroCounters) sample_accepted).
  vm_compute. reflexivity.
Defined.

Lemma AnalyzeMatches_counts_witness :
  Z.of_nat (size analysis_sm) < 2 ^ 63 /\
  counts_ok analysis_deref analysis_results (stmts analysis_sm)
    (AnalyzeMatches analysis_deref analysis_sm analysis_results) /\
  NumHitTotal (AnalyzeMatches analysis_deref analysis_sm analysis_results) +
    NumMissedTotal (AnalyzeMatches analysis_deref analysis_sm analysis_results)
    = Z.of_nat (size analysis_sm).
Proof.
  split; [vm_compute; reflexivity|].
  apply (AnalyzeMatches_counts analysis_deref analysis_sm analysis_results).
  vm_compute. reflexivity.
Defined.

Lemma AnalyzeMatches_verbosity_rows_witness :
  Z.of_nat (size analysis_sm) < 2 ^ 63 /\
  let r := AnalyzeMatches analysis_deref analysis_sm analysis_results in
  forEachVerbosityLevel (NumInfoHit r) (NumInfoMissed r) (PercentInfoHit r) =
    level_rows
      (fun i => cnt (at_level analysis_deref (hit_sev analysis_deref analysis_results 0) i)
                    (stmts analysis_sm))
      (fun i => cnt (at_level analysis_deref (miss_sev analysis_deref analysis_results 0) i)
                    (stmts analysis_sm)) /\
  forEachVerbosityLevel (NumErrorHit r) (NumErrorMissed r) (PercentErrorHit r) =
    level_rows
      (fun i => cnt (at_level analysis_deref (hit_sev analysis_deref analysis_results 2) i)
                    (stmts analysis_sm))
      (fun i => cnt (at_level analysis_deref (miss_sev analysis_deref analysis_results 2) i)
                    (stmts analysis_sm)).
Proof.
  split; [vm_compute; reflexivity|].
  apply (AnalyzeMatches_verbosity_rows analysis_deref analysis_sm analysis_results).
  vm_compute. reflexivity.
Defined.

Lemma AnalyzeMatches_empty_nan_witness :
  Z.of_nat (size analysis_sm) < 2 ^ 63 /\
  let r := AnalyzeMatches analysis_deref analysis_sm analysis_results in
  (analysis_sm = ∅ -> PrimFloat.is_nan (PercentHitTotal r) = true) /\
  (Forall (fun v => Severity (analysis_deref v) <> 1) (stmts analysis_sm) ->
     PrimFloat.is_nan (PercentWarnHit r) = true) /\
  (Forall (fun v => Severity (analysis_deref v) <> 3) (stmts analysis_sm) ->
     PrimFloat.is_nan (PercentFatalHit r) = true).
Proof.
  split; [vm_compute; reflexivity|].
  apply (AnalyzeMatches_empty_nan analysis_deref analysis_sm analysis_results).
  vm_compute. reflexivity.
Defined.

Lemma default_top_panics_witness :
  (0 < length [(0%nat, @None (list ParsedLog))] < 20)%nat /\
  top_entries (SortMatches analysis_deref [(0%nat, None)]) false default_top =
    Panic "slice bounds out of range"%string.
Proof.
  split; [simpl; lia|]. apply (default_top_panics analysis_deref [(0%nat, None)]). simpl. lia.
Defined.

Lemma ShortSourceFile_last_two_witness :
  plain_elem (bs "queueset") /\ plain_elem (bs "queueset.go") /\ slash_ended (bs "k8s.io/") /\
  SourceFile (mkLogStatement (bs "k8s.io/queueset/queueset.go") 488 0 None (bs "x")) =
    bs "k8s.io/" ++ bs "queueset" ++ slash :: bs "queueset.go" /\
  ShortSourceFile (mkLogStatement (bs "k8s.io/queueset/queueset.go") 488 0 None (bs "x")) =
    bs "queueset" ++ slash :: bs "queueset.go".
Proof.
  assert (P1 : plain_elem (bs "queueset")).
  { unfold plain_elem. vm_compute. split; [discriminate|]. split; [repeat constructor; discriminate|].
    split; discriminate. }
  assert (P2 : plain_elem (bs "queueset.go")).
  { unfold plain_elem. vm_compute. split; [discriminate|]. split; [repeat constructor; discriminate|].
    split; discriminate. }
  assert (P3 : slash_ended (bs "k8s.io/")) by (right; exists (bs "k8s.io"); reflexivity).
  split; [exact P1|]. split; [exact P2|]. split; [exact P3|]. split; [reflexivity|].
  apply (ShortSourceFile_last_two (mkLogStatement (bs "k8s.io/queueset/queueset.go") 488 0 None (bs "x"))
           (bs "k8s.io/") (bs "queueset") (bs "queueset.go") P1 P2 P3).
  reflexivity.
Defined.

Lemma ParseLine_roundtrip_witness :
  klog_header_ok (bs "I1105 13:30:39.614388  739568 ") 0 /\
  bs "queueset" <> [] /\ Forall (fun c => is_path_char c = true) (bs "queueset") /\
  bs "queueset.go" <> [] /\ Forall (fun c => is_path_char c = true) (bs "queueset.go") /\
  0 <= 488 < 2 ^ 63 /\
  ParseLine (bs "I1105 13:30:39.614388  739568 " ++ bs "queueset" ++ "/"%byte :: bs "queueset.go" ++
             ":"%byte :: Itoa 488 ++ "]"%byte :: " "%byte :: bs "Sample Tex" ++ ["t"%byte])
  = Ok (mkParsedLog (bs "queueset" ++ "/"%byte :: bs "queueset.go") 488 0 (bs "Sample Tex"), true).
Proof.
  assert (H : klog_header_ok (bs "I1105 13:30:39.614388  739568 ") 0).
  { unfold klog_header_ok. split; [reflexivity|]. split; [exists "I"%byte; split; reflexivity|].
    repeat split; reflexivity. }
  assert (D1 : bs "queueset" <> []) by discriminate.
  assert (D2 : Forall (fun c => is_path_char c = true) (bs "queueset")) by (vm_compute; repeat constructor).
  assert (F1 : bs "queueset.go" <> []) by discriminate.
  assert (F2 : Forall (fun c => is_path_char c = true) (bs "queueset.go")) by (vm_compute; repeat constructor).
  assert (N : 0 <= 488 < 2 ^ 63) by lia.
  repeat (split; [assumption|]).
  apply (ParseLine_roundtrip _ _ _ _ 0 488 "t"%byte H D1 D2 F1 F2 N).
Defined.

Lemma missed_rows_no_hits_witness :
  Permutation (map_to_list (FindMissed analysis_sm ∅)) (map_to_list (FindMissed analysis_sm ∅)) /\
  forall r, In r (printEntries analysis_deref (fun s => s) false []
                  (SortMatches analysis_deref (map_to_list (FindMissed analysis_sm ∅)))) ->
    row_hits r = 0 /\
    exists fp v, analysis_sm !! fp = Some v /\ (∅ : Matches) !! v = None /\
                 row_format r = FormatString (analysis_deref v) /\
                 row_filename r = formatFilename false (analysis_deref v).
Proof.
  split; [reflexivity|].
  apply (missed_rows_no_hits analysis_deref (fun s => s) false [] analysis_sm ∅
           (map_to_list (FindMissed analysis_sm ∅))).
  reflexivity.
Defined.

Lemma resolveSeverity_keyword_order_witness :
  Forall (fun kw => kw <> []) [bs "a"; bs "^b"] /\ Permutation [bs "a"; bs "^b"] [bs "^b"; bs "a"] /\
  (resolveSeverity (fun s => s) (bs "x") 0 [bs "a"; bs "^b"] =
     resolveSeverity (fun s => s) (bs "x") 0 [bs "^b"; bs "a"] /\
   (resolveSeverity (fun s => s) (bs "x") 0 [bs "a"; bs "^b"] = Ok 0 \/
    resolveSeverity (fun s => s) (bs "x") 0 [bs "a"; bs "^b"] = Ok 2)).
Proof.
  assert (H1 : Forall (fun kw => kw <> []) [bs "a"; bs "^b"]) by (repeat constructor; discriminate).
  assert (H2 : Permutation [bs "a"; bs "^b"] [bs "^b"; bs "a"]) by constructor.
  split; [exact H1|]. split; [exact H2|].
  apply (resolveSeverity_keyword_order (fun s => s) (bs "x") 0 _ _ H1 H2).
Defined.

Lemma resolveSeverity_bare_anchor_witness :
  (fun s : list byte => s) [] = [] /\ Forall (fun kw => kw <> []) [bs "zzz"] /\
  (resolveSeverity (fun s => s) (bs "x") 0 ([bs "zzz"] ++ bs "^" :: []) = Ok 2 /\
   resolveSeverity (fun s => s) (bs "x") 0 ([bs "zzz"] ++ bs "$" :: []) = Ok 2 /\
   resolveSeverity (fun s => s) (bs "x") 0 ([bs "zzz"] ++ [] :: []) =
     (if existsb (keyword_matches (fun s => s) ((fun s => s) (Trim [" "%byte; dquote] (bs "x"))))
           [bs "zzz"]
      then Ok 2 else Panic "index out of range"%string)).
Proof.
  assert (H1 : (fun s : list byte => s) [] = []) by reflexivity.
  assert (H2 : Forall (fun kw => kw <> []) [bs "zzz"]) by (repeat constructor; discriminate).
  split; [exact H1|]. split; [exact H2|].
  apply (resolveSeverity_bare_anchor (fun s => s) (bs "x") [bs "zzz"] [] H1 H2).
Defined.

Lemma matcher_table_witness :
  (- 2 ^ 63 <= numMatched (mkCounters (2 ^ 63 - 1) 0) < 2 ^ 63) /\
  (- 2 ^ 63 <= numNotMatched (mkCounters (2 ^ 63 - 1) 0) < 2 ^ 63) /\
  let '(hit, c') := matcher (fun d => d) sample_sm [S1_record] (mkCounters (2 ^ 63 - 1) 0) in
  (forall k, hit !! k = to_opt (hits_for (fun d => d) sample_sm k [S1_record])) /\
  numMatched c' = wrap64 (numMatched (mkCounters (2 ^ 63 - 1) 0) +
                          len (List.filter (in_map (fun d => d) sample_sm) [S1_record])) /\
  numNotMatched c' =
    wrap64 (numNotMatched (mkCounters (2 ^ 63 - 1) 0) +
            len (List.filter (fun p => negb (in_map (fun d => d) sample_sm p)) [S1_record])).
Proof.
  assert (Hm : - 2 ^ 63 <= numMatched (mkCounters (2 ^ 63 - 1) 0) < 2 ^ 63) by (simpl; lia).
  assert (Hn : - 2 ^ 63 <= numNotMatched (mkCounters (2 ^ 63 - 1) 0) < 2 ^ 63) by (simpl; lia).
  split; [exact Hm|]. split; [exact Hn|].
  exact (matcher_table (fun d => d) sample_sm [S1_record] (mkCounters (2 ^ 63 - 1) 0) Hm Hn).
Defined.

Lemma read_chunks_drops_final_newline_witness :
  (1 <= 1)%nat /\
  exists chunks, read_chunks (bs "a" ++ [nl]) 1 = Ok chunks /\ length chunks = 1%nat /\
    concat chunks = bs "a".
Proof.
  split; [lia|]. apply read_chunks_drops_final_newline. lia.
Defined.
